(** * trusttree: a counted directory trie over the fapolicyd trust database

    A shallow embedding of [trust/trusttree.py] together with the
    properties of its tree pipeline: path normalisation, trie building,
    pruning, chain collapsing, child ordering, the two renderers and the
    derivation of filter suggestions.

    Python values are modelled as follows.
    - [str] is [string]; every character the program inspects
      (the separator, the dot, the star) is ASCII, and the byte order on
      UTF-8 strings coincides with Python's code point order.
    - [int] is [Z].
    - a [dict] is an association list in insertion order with unique keys.
    - a [set] of strings is a [gset string].
    - a [Node] whose ownership is tree shaped is a value of the inductive
      type [Node]; where the program shares node objects between two
      dictionaries ([print_tree]), objects live in an explicit store. *)

From Stdlib Require Import ZArith Ascii String List Lia Bool.
From Stdlib Require Import Sorting.Sorted Permutation OrdersEx.
From stdpp Require Import gmap strings list pretty.

Set Warnings "-register-all,-clear-no-such-hyp".

Open Scope string_scope.
Open Scope Z_scope.

(** ** Python strings *)

Module Str.

(** [s.startswith(pre)] *)
Fixpoint startswith (s pre : string) {struct pre} : bool :=
match pre with
| EmptyString => true
| String a pre' =>
    match s with
    | EmptyString => false
    | String b s' => Ascii.eqb a b && startswith s' pre'
    end
end.

(** [c in s] for a one character string [c] *)
Fixpoint contains (c : ascii) (s : string) : bool :=
match s with
| EmptyString => false
| String d s' => if Ascii.eqb d c then true else contains c s'
end.

(** [s.split(sep)] for a one character separator: never empty, and
  consecutive separators delimit empty fields. *)
Fixpoint split (sep : ascii) (s : string) : list string :=
match s with
| EmptyString => [EmptyString]
| String c s' =>
    if Ascii.eqb c sep then EmptyString :: split sep s'
    else match split sep s' with
         | [] => [String c EmptyString]
         | w :: ws => String c w :: ws
         end
end.

(** [sep.join(l)] *)
Fixpoint join (sep : string) (l : list string) : string :=
match l with
| [] => EmptyString
| [w] => w
| w :: ws => w +:+ sep +:+ join sep ws
end.

(** [s.find(c)]: index of the first occurrence, [-1] when there is none *)
Fixpoint find (c : ascii) (s : string) : Z :=
match s with
| EmptyString => -1
| String d s' =>
    if Ascii.eqb d c then 0
    else let r := find c s' in if r <? 0 then -1 else r + 1
end.

Fixpoint drop (n : nat) (s : string) : string :=
match n, s with
| O, _ => s
| S n', EmptyString => EmptyString
| S n', String _ s' => drop n' s'
end.

(** [s[i:]], a negative [i] counting from the end *)
Definition slice_from (s : string) (i : Z) : string :=
if i <? 0 then drop (Z.to_nat (Z.of_nat (String.length s) + i)) s
else drop (Z.to_nat i) s.

(** truthiness of a string: non-empty *)
Definition nonempty (s : string) : bool :=
match s with EmptyString => false | _ => true end.

End Str.

(** [l[-1]] of a non-empty list of strings *)
Definition last_str (l : list string) : string := List.last l EmptyString.

(** [not l] for a list *)
Definition is_nil {A} (l : list A) : bool :=
  match l with [] => true | _ => false end.

(** ** The POSIX path functions of the Python library *)

Module Posix.

(** One step of the component loop of [posixpath.normpath]:
  [new_comps] is kept in order. *)
Definition norm_step (initial_slashes : Z) (new_comps : list string)
  (comp : string) : list string :=
if String.eqb comp "" || String.eqb comp "." then new_comps
else if negb (String.eqb comp "..")
        || ((initial_slashes =? 0) && is_nil new_comps)
        || (negb (is_nil new_comps) && String.eqb (last_str new_comps) "..")
     then (new_comps ++ [comp])%list
     else if negb (is_nil new_comps) then removelast new_comps
     else new_comps.

Fixpoint repeat_sep (n : nat) : string :=
match n with O => "" | S n' => "/" +:+ repeat_sep n' end.

(** [os.path.normpath] on POSIX: exactly two leading slashes are kept,
  one or three and more become one. *)
Definition normpath (path : string) : string :=
if String.eqb path "" then "."
else
  let initial_slashes : Z :=
    if Str.startswith path "/" then
      if Str.startswith path "//" && negb (Str.startswith path "///")
      then 2 else 1
    else 0 in
  let comps := fold_left (norm_step initial_slashes) (Str.split "/" path) [] in
  let p := Str.join "/" comps in
  let p := repeat_sep (Z.to_nat initial_slashes) +:+ p in
  if Str.nonempty p then p else ".".

(** [os.path.join(a, b)] on POSIX with two arguments *)
Definition join (a b : string) : string :=
if Str.startswith b "/" then b
else if negb (Str.nonempty a) || Str.startswith (Str.drop (Nat.pred (String.length a)) a) "/"
     then a +:+ b
     else a +:+ "/" +:+ b.

End Posix.

(** ** Path normaliser *)

(** The three values of [--ext-mode]. *)
Inductive ExtMode : Type := last | full | star.

Definition get_ext_leaf (basename : string) (mode : ExtMode) : string :=
  match mode with
  | star => "*"
  | _ =>
      if Str.startswith basename "." then "*"
      else if negb (Str.contains "." basename) then "*"
      else match mode with
           | last =>
               let ext := last_str (Str.split "." basename) in
               if Str.nonempty ext then "*." +:+ ext else "*"
           | _ =>
               let first_dot := Str.find "." basename in
               let ext := Str.slice_from basename (first_dot + 1) in
               if Str.nonempty ext then "*." +:+ ext else "*"
           end
  end.

Definition nonempty_comps (norm : string) : list string :=
  List.filter Str.nonempty (Str.split "/" norm).

Definition path_to_parts (path : string) (mode : ExtMode) : list string :=
  let norm := Posix.normpath path in
  if String.eqb norm "/" then ["/"; "*"]
  else
    let parts :=
      if Str.startswith norm "/" then
        "/" :: nonempty_comps (Str.slice_from norm 1)
      else
        let parts := nonempty_comps norm in
        if negb (is_nil parts) && negb (String.eqb (hd "" parts) "/")
        then "/" :: parts else parts in
    if negb (is_nil parts) then
      let base := last_str parts in
      let ext_leaf := get_ext_leaf base mode in
      (removelast parts ++ [ext_leaf])%list
    else ["/"; "*"].

(** ** Dictionaries

    A Python [dict] keeps its keys in insertion order; assigning to a key
    that is present keeps the key's position. *)

Definition dict (V : Type) : Type := list (string * V).

Fixpoint dict_get {V} (d : dict V) (k : string) : option V :=
  match d with
  | [] => None
  | (k', v) :: d' => if String.eqb k' k then Some v else dict_get d' k
  end.

(** [d[k] = v] *)
Fixpoint dict_set {V} (d : dict V) (k : string) (v : V) : dict V :=
  match d with
  | [] => [(k, v)]
  | (k', v') :: d' =>
      if String.eqb k' k then (k, v) :: d' else (k', v') :: dict_set d' k v
  end.

Definition keys {V} (d : dict V) : list string := map fst d.

(** The loop [new = {}; for k, v in d.items(): ... new[k2] = v2], where the
    body may skip an item. *)
Section DictBuild.
Context {A B : Type} (f : string -> A -> option (string * B)).

Fixpoint dict_build (items : list (string * A)) (acc : dict B) : dict B :=
  match items with
  | [] => acc
  | (k, v) :: rest =>
      match f k v with
      | Some (k2, v2) => dict_build rest (dict_set acc k2 v2)
      | None => dict_build rest acc
      end
  end.
End DictBuild.

(** ** Counted trie *)

(** [class Node]: a count and a dictionary of children. *)
#[local] Unset Elimination Schemes.
Inductive Node : Type :=
  mkNode { count : Z; children : dict Node }.
#[local] Set Elimination Schemes.

(** [Node()] *)
Definition new_node : Node := mkNode 0 [].

(** [ensure_path(root, parts)]: the node passed in is counted, then the
    walk continues in the child for the first part, created when missing. *)
Fixpoint ensure_path (root : Node) (parts : list string) : Node :=
  let cnt := count root + 1 in
  match parts with
  | [] => mkNode cnt (children root)
  | part :: rest =>
      let child :=
        match dict_get (children root) part with
        | Some c => c
        | None => new_node
        end in
      mkNode cnt (dict_set (children root) part (ensure_path child rest))
  end.

(** [prune_tree(node, min_count)] *)
Fixpoint prune_tree (node : Node) (min_count : Z) : option Node :=
  match node with
  | mkNode cnt chs =>
      if cnt <? min_count then None
      else
        let new_children :=
          dict_build
            (fun name child =>
               match prune_tree child min_count with
               | Some kept => Some (name, kept)
               | None => None
               end) chs [] in
        Some (mkNode cnt new_children)
  end.

(** [collapse_chains(name, node)], as a function of the tree below [node]:
    the [while] loop is the first branch. *)
Fixpoint collapse_chains (name : string) (node : Node) : string * Node :=
  match node with
  | mkNode cnt chs =>
      match chs with
      | [(child_name, child_node)] =>
          collapse_chains
            (if Str.nonempty name then name +:+ "/" +:+ child_name else child_name)
            child_node
      | _ =>
          (name,
           mkNode cnt
             (dict_build (fun ch_name ch_node => Some (collapse_chains ch_name ch_node))
                chs []))
      end
  end.

(** ** Child ordering *)

Definition is_leaf_name (name : string) : bool :=
  String.eqb name "*" || Str.startswith name "*.".

(** The sort key [(is_leaf_name(kv[0]), -kv[1].count, kv[0])]. *)
Definition sort_key (kv : string * Node) : bool * Z * string :=
  (is_leaf_name kv.1, - count kv.2, kv.1).

(** Python's order on such tuples: lexicographic, [False < True]. *)
Definition key_compare (a b : bool * Z * string) : comparison :=
  match Bool.compare a.1.1 b.1.1 with
  | Eq =>
      match Z.compare a.1.2 b.1.2 with
      | Eq => String.compare a.2 b.2
      | c => c
      end
  | c => c
  end.

Definition key_leb (a b : bool * Z * string) : bool :=
  match key_compare a b with Gt => false | _ => true end.

(** [sorted(items, key=...)] is a stable sort; stable insertion from the
    right gives the same list as any other stable sort. *)
Section Sorted.
Context {A K : Type} (key : A -> K) (leb : K -> K -> bool).

Fixpoint insert_sorted (x : A) (l : list A) : list A :=
  match l with
  | [] => [x]
  | y :: l' =>
      if leb (key x) (key y) then x :: y :: l' else y :: insert_sorted x l'
  end.

Definition sorted (l : list A) : list A := fold_right insert_sorted [] l.
End Sorted.

Definition sorted_children (node : Node) : list (string * Node) :=
  sorted sort_key key_leb (children node).

(** [items[:n]] *)
Definition slice_to {A} (items : list A) (n : Z) : list A :=
  if n <? 0 then firstn (Z.to_nat (Z.of_nat (length items) + n)) items
  else firstn (Z.to_nat n) items.

(** The children a renderer shows at one level:
    [items = sorted_children(node)], cut to [items[:top]] when [top] is set
    and there are more than [top] of them. *)
Definition shown_children (top : Z) (node : Node) : list (string * Node) :=
  let items := sorted_children node in
  if negb (top =? 0) && (Z.of_nat (length items) >? top)
  then slice_to items top else items.

(** Longest root-to-leaf route, the recursion depth of the renderers. *)
Fixpoint height (node : Node) : nat :=
  match node with
  | mkNode _ chs => S (list_max (map (fun kc => height kc.2) chs))
  end.

(** ** JSON renderer *)

(** The objects [{"name": .., "count": .., "children": [..]}]. *)
#[local] Unset Elimination Schemes.
Inductive Json : Type :=
  JObj { j_name : string; j_count : Z; j_children : list Json }.
#[local] Set Elimination Schemes.

Section Render.
Variables (max_depth top : Z).

(** [json_slice(name, node, depth)] of [main]; [fuel] bounds the
    recursion depth. *)
Fixpoint json_slice (fuel : nat) (name : string) (node : Node) (depth : Z) : Json :=
  match fuel with
  | O => JObj name (count node) []
  | S fuel' =>
      if negb (max_depth =? 0) && (depth >=? max_depth)
      then JObj name (count node) []
      else
        JObj name (count node)
          (map (fun kv => json_slice fuel' kv.1 kv.2 (depth + 1))
             (shown_children top node))
  end.

(** [root_obj] of [main] *)
Definition json_root (tree : Node) : Json :=
  JObj "/" (count tree)
    (map (fun kv => json_slice (height tree) kv.1 kv.2 1)
       (shown_children top tree)).

(** ** Text renderer *)

(** One printed line, kept in pieces; [l_depth] records the depth of the
    node the line is for and is not part of the text. *)
Record Line : Type :=
  mkLine { l_prefix : string; l_connector : string; l_name : string;
           l_count : Z; l_depth : Z }.

Variables (tee corner pipe dash : string).

(** [_print(node, prefix, depth)] of [print_tree] *)
Fixpoint _print (fuel : nat) (node : Node) (prefix : string) (depth : Z) : list Line :=
  match fuel with
  | O => []
  | S fuel' =>
      let items := shown_children top node in
      flat_map
        (fun ikv : nat * (string * Node) =>
           let i := ikv.1 in
           let name := ikv.2.1 in
           let child := ikv.2.2 in
           let is_last := Nat.eqb i (length items - 1) in
           let connector := if is_last then corner else tee in
           let line := mkLine prefix connector name (count child) (depth + 1) in
           if negb (max_depth =? 0) && (depth + 1 >=? max_depth)
           then [line]
           else
             let new_prefix := prefix +:+ (if is_last then dash else pipe) in
             line :: _print fuel' child new_prefix (depth + 1))
        (combine (seq 0 (length items)) items)
  end.
End Render.

(** The text of a line: [prefix + connector + name], then the count. *)
Definition line_text (show_counts : bool) (l : Line) : string :=
  l_prefix l +:+ l_connector l +:+ l_name l +:+
  (if show_counts then " [" +:+ pretty (l_count l) +:+ "]" else "").

(** The part of [print_tree] that prints, from the working node. *)
Definition render_lines (working : Node) (use_ascii : bool) (max_depth top : Z)
  : list Line :=
  let '(tee, corner, pipe, dash) :=
    if use_ascii then ("|-- ", "`-- ", "|   ", "    ")
    else ("├── ", "└── ", "│   ", "    ") in
  mkLine "" "" "/" (count working) 0
  :: _print max_depth top tee corner pipe dash (S (height working)) working "" 0.

Definition render_text (working : Node) (use_ascii show_counts : bool)
    (max_depth top : Z) : list string :=
  map (line_text show_counts) (render_lines working use_ascii max_depth top).

(** ** Filter derivation *)

(** The values of [--emit-filter-mode]. *)
Inductive FilterMode : Type := ext | dir | all.

(** [current_dir_path(stack)] of [collect_filters] *)
Definition current_dir_path (stack : list string) : string :=
  if is_nil stack then "/"
  else
    let elems :=
      List.filter
        (fun s => negb (String.eqb s "/")
                  && negb (String.eqb s "*" || Str.startswith s "*."))
        stack in
    if negb (is_nil elems) then "/" +:+ Str.join "/" elems else "/".

Section CollectFilters.
Variable mode : FilterMode.

Definition mode_ext : bool := match mode with ext | all => true | dir => false end.
Definition mode_dir : bool := match mode with dir | all => true | ext => false end.

(** [walk(name, node, stack)]: [stack] is the list before the push and
    [out] the set collected so far; every call pops what it pushed, so
    the caller's list is unchanged on return. *)
Fixpoint walk (name : string) (node : Node) (stack : list string)
    (out : gset string) : gset string :=
  let pushed := (stack ++ [name])%list in
  if is_leaf_name name then
    let d := current_dir_path stack in
    if mode_ext then out ∪ {[ Posix.join d name ]} else out
  else
    let out :=
      if mode_dir then out ∪ {[ Posix.join (current_dir_path pushed) "**" ]}
      else out in
    fold_left (fun out kc => walk kc.1 kc.2 pushed out) (children node) out.

(** [collect_filters(node, path_stack, mode)]; [path_stack] is not used
    by the program. *)
Definition collect_filters (node : Node) (path_stack : list string) : gset string :=
  fold_left (fun out kc => walk kc.1 kc.2 [] out) (children node) ∅.
End CollectFilters.

(** [sorted(filters)]: the strings of the set in ascending order. *)
Definition sorted_strings (l : list string) : list string :=
  sorted (fun s => s) String.leb l.

(** ** Node objects in a store

    [print_tree] puts the node objects of the pruned tree into a second
    dictionary and [collapse_chains] assigns to their [children] attribute.
    To follow what this does to the tree [main] still holds, the objects
    live in a store: a location is an index, an object holds its count and
    a dictionary from names to locations. *)

Module Store.

Definition loc : Type := nat.

Record Obj : Type := mkObj { o_count : Z; o_children : dict loc }.

Definition store : Type := list Obj.

(** A new object is placed after the existing ones. *)
Definition alloc (o : Obj) (s : store) : loc * store :=
  (length s, (s ++ [o])%list).

(** The objects of the children of a node, in the order of its
    dictionary. *)
Section AllocItems.
Variable alloc_node : Node -> store -> loc * store.

Fixpoint alloc_items (items : dict Node) (s : store) : dict loc * store :=
  match items with
  | [] => ([], s)
  | (k, c) :: rest =>
      let (l, s1) := alloc_node c s in
      let (ls, s2) := alloc_items rest s1 in
      ((k, l) :: ls, s2)
  end.
End AllocItems.

(** The objects of a tree value, children before their parent. *)
Fixpoint alloc_tree (t : Node) (s : store) : loc * store :=
  match t with
  | mkNode cnt chs =>
      let (locs, s1) := alloc_items alloc_tree chs s in
      alloc (mkObj cnt locs) s1
  end.

(** The tree a read-only traversal from [l] sees. *)
Fixpoint snapshot (fuel : nat) (s : store) (l : loc) : option Node :=
  match fuel with
  | O => None
  | S fuel' =>
      o ← s !! l;
      chs ← mapM (fun kl : string * loc =>
                    c ← snapshot fuel' s kl.2; Some (kl.1, c))
                 (o_children o);
      Some (mkNode (o_count o) chs)
  end.

(** [node.children = d] *)
Definition set_children (node : loc) (d : dict loc) (s : store) : option store :=
  o ← s !! node; Some (<[node := mkObj (o_count o) d]> s).

(** The loop [for name, child in d.items():
    nname, nnode = collapse_chains(name, child);
    collapsed_children[nname] = nnode]. *)
Section Items.
Variable collapse : string -> loc -> store -> option (string * loc * store).

Fixpoint collapse_items (items : dict loc) (collapsed_children : dict loc)
    (s : store) : option (dict loc * store) :=
  match items with
  | [] => Some (collapsed_children, s)
  | (name, child) :: rest =>
      r ← collapse name child s;
      collapse_items rest (dict_set collapsed_children r.1.1 r.1.2) r.2
  end.
End Items.

(** [collapse_chains(name, node)] on objects: every turn of the [while]
    loop and every recursive call takes one unit of [fuel]. *)
Fixpoint collapse_chains (fuel : nat) (name : string) (node : loc) (s : store)
  : option (string * loc * store) :=
  match fuel with
  | O => None
  | S fuel' =>
      o ← s !! node;
      match o_children o with
      | [(child_name, child_node)] =>
          collapse_chains fuel'
            (if Str.nonempty name then name +:+ "/" +:+ child_name else child_name)
            child_node s
      | chs =>
          r ← collapse_items (collapse_chains fuel') chs [] s;
          s2 ← set_children node r.1 r.2;
          Some (name, node, s2)
      end
  end.

(** [print_tree(root_node, ...)]: the lines printed and the store left
    behind. [working] is a new object with a copy of the root's
    dictionary, so it names the same child objects. *)
Definition print_tree (s : store) (root_node : loc)
    (use_ascii show_counts : bool) (max_depth top : Z) (compact : bool)
  : option (list string * store) :=
  r ← s !! root_node;
  let '(working, s) := alloc (mkObj (o_count r) (o_children r)) s in
  let fuel := S (length s) in
  s ← (if compact then
         c ← collapse_items (collapse_chains fuel) (o_children r) [] s;
         set_children working c.1 c.2
       else Some s);
  view ← snapshot fuel s working;
  Some (render_text view use_ascii show_counts max_depth top, s).

End Store.

(** ** The pipeline *)

Module Args.
(** The namespace [parse_args] returns. *)
Record t : Type := mk {
  ascii : bool;
  min_count : Z;
  max_depth : Z;
  top : Z;
  prefix : string;
  exclude_regex : string;
  include_regex : string;
  ext_mode : ExtMode;
  no_counts : bool;
  compact : bool;
  json : bool;
  emit_filter : bool;
  emit_filter_mode : FilterMode
}.
End Args.

(** What [main] writes. The JSON document is kept as a value. *)
Inductive Output : Type :=
  | Stdout (line : string)
  | StdoutJson (doc : Json)
  | Stderr (line : string).

Section Pipeline.
(** The regular expression engine: [re_search pattern path] is whether
    [re.compile(pattern).search(path)] finds a match. *)
Variable re_search : string -> string -> bool.

(** [compile_filters(args)]: an empty pattern gives [None]. *)
Definition compile_filters (args : Args.t)
  : option (string -> bool) * option (string -> bool) :=
  (if Str.nonempty (Args.include_regex args)
   then Some (re_search (Args.include_regex args)) else None,
   if Str.nonempty (Args.exclude_regex args)
   then Some (re_search (Args.exclude_regex args)) else None).

Definition want_path (path prefix : string)
    (include_re exclude_re : option (string -> bool)) : bool :=
  if Str.nonempty prefix && negb (Str.startswith path prefix) then false
  else if match include_re with Some re => negb (re path) | None => false end
  then false
  else if match exclude_re with Some re => re path | None => false end
  then false
  else true.

(** [build_tree(args)] over the paths [read_paths_from_stdin] yields. *)
Definition build_tree (args : Args.t) (paths : list string) : Node :=
  let '(include_re, exclude_re) := compile_filters args in
  fold_left
    (fun root path =>
       if negb (want_path path (Args.prefix args) include_re exclude_re)
       then root
       else ensure_path root (path_to_parts path (Args.ext_mode args)))
    paths new_node.

Definition filter_lines (mode : FilterMode) (tree : Node) : list string :=
  sorted_strings (elements (collect_filters mode tree [])).

(** [main()]; [None] only when a traversal of the store runs out of
    fuel. *)
Definition main (args : Args.t) (paths : list string) : option (list Output) :=
  let tree := build_tree args paths in
  match prune_tree tree (Args.min_count args) with
  | None => Some []
  | Some tree =>
      if is_nil (children tree) then Some []
      else if Args.json args then
        Some (StdoutJson (json_root (Args.max_depth args) (Args.top args) tree)
              :: (if Args.emit_filter args
                  then map (fun f => Stdout ("#FILTER " +:+ f))
                         (filter_lines (Args.emit_filter_mode args) tree)
                  else []))
      else
        let '(root, s) := Store.alloc_tree tree [] in
        r ← Store.print_tree s root (Args.ascii args) (negb (Args.no_counts args))
              (Args.max_depth args) (Args.top args) (Args.compact args);
        if Args.emit_filter args then
          tree ← Store.snapshot (S (length r.2)) r.2 root;
          Some (map Stdout r.1
                ++ map Stderr (filter_lines (Args.emit_filter_mode args) tree))%list
        else Some (map Stdout r.1)
  end.
End Pipeline.

(** ** Reading the input

    White space is the ASCII white space; the model follows the program
    on input without other Unicode white space. *)

Module StrWs.







End StrWs.




(** ** The unlimited JSON tree *)

(** [to_json(name, node)]; [fuel] bounds the recursion depth. *)
Fixpoint to_json (fuel : nat) (name : string) (node : Node) : Json :=
  match fuel with
  | O => JObj name (count node) []
  | S fuel' =>
      JObj name (count node)
        (map (fun kv => to_json fuel' kv.1 kv.2) (sorted_children node))
  end.

(** * Vocabulary of the properties *)

(** ** Buckets, routes and counts *)

(** A bucket is [*] or [*.ext] with a non-empty [ext]. *)
Definition is_bucket (s : string) : Prop :=
  s = "*" \/ exists e, e <> "" /\ s = "*." +:+ e.

(** The options of a run without flags. *)
Definition default_args : Args.t :=
  Args.mk false 1 0 0 "/" "" "" last false false false false ext.

(** The pruned tree of five files [/etc/*.conf]: the root holds the root
    marker, which holds [etc], which holds the bucket. *)
Definition etc_conf_tree : Node :=
  mkNode 5 [("/", mkNode 5 [("etc", mkNode 5 [("*.conf", mkNode 5 [])])])].

Definition etc_conf_paths : list string :=
  ["/etc/a.conf"; "/etc/b.conf"; "/etc/c.conf"; "/etc/d.conf"; "/etc/e.conf"].

(** The node a route of segments leads to. *)
Fixpoint node_at (t : Node) (route : list string) : option Node :=
  match route with
  | [] => Some t
  | k :: r =>
      match dict_get (children t) k with
      | Some c => node_at c r
      | None => None
      end
  end.

(** The count found at the end of a route, 0 where there is no node. *)
Definition count_at (t : Node) (route : list string) : Z :=
  match node_at t route with
  | Some n => count n
  | None => 0
  end.

(** [route] is an initial part of [parts]. *)
Fixpoint route_prefix (route parts : list string) : bool :=
  match route, parts with
  | [], _ => true
  | _ :: _, [] => false
  | k :: r, p :: ps => String.eqb k p && route_prefix r ps
  end.

(** The inclusion filter of [build_tree] on one path. *)
Definition passes (re_search : string -> string -> bool) (args : Args.t)
    (path : string) : bool :=
  want_path path (Args.prefix args)
    (compile_filters re_search args).1 (compile_filters re_search args).2.

(** The paths that contribute to the node at [route]. *)
Definition through (re_search : string -> string -> bool) (args : Args.t)
    (route : list string) (paths : list string) : list string :=
  List.filter
    (fun p => route_prefix route (path_to_parts p (Args.ext_mode args)))
    (List.filter (passes re_search args) paths).

(** ** Well-formed, pruned and collapsed trees *)

(** Induction on trees, with the hypothesis for every child. *)
Fixpoint Node_ind (P : Node -> Prop)
    (H : forall cnt chs, Forall (fun kc => P kc.2) chs -> P (mkNode cnt chs))
    (t : Node) : P t :=
  match t with
  | mkNode cnt chs =>
      H cnt chs
        ((fix all (l : dict Node) : Forall (fun kc => P kc.2) l :=
            match l with
            | [] => @List.Forall_nil _ _
            | kc :: l' => @List.Forall_cons _ _ kc l' (Node_ind P H kc.2) (all l')
            end) chs)
  end.

(** The keys of every dictionary of the tree are distinct. *)
Inductive wf : Node -> Prop :=
  | wf_node cnt chs :
      List.NoDup (keys chs) -> Forall (fun kc => wf kc.2) chs ->
      wf (mkNode cnt chs).

(** The trie after inserting the segment sequences [seqs], in order. *)
Definition built (seqs : list (list string)) : Node :=
  fold_left ensure_path seqs new_node.

Section Assigned.
Context {A B : Type} (f : string -> A -> option (string * B)).

(** The items the loop assigns, in order. *)
Fixpoint assigned (items : list (string * A)) : dict B :=
  match items with
  | [] => []
  | (k, v) :: rest =>
      match f k v with
      | Some kv => kv :: assigned rest
      | None => assigned rest
      end
  end.
End Assigned.

(** The body of the loop of [prune_tree] for one child. *)
Definition prune_child (min_count : Z) (name : string) (child : Node)
  : option (string * Node) :=
  match prune_tree child min_count with
  | Some kept => Some (name, kept)
  | None => None
  end.

(** Every node on the route exists and has a count of at least
    [min_count], the node the route starts from included. *)
Fixpoint survivesb (min_count : Z) (t : Node) (route : list string) : bool :=
  negb (count t <? min_count)
  && match route with
     | [] => true
     | k :: r =>
         match dict_get (children t) k with
         | Some c => survivesb min_count c r
         | None => false
         end
     end.

Definition prune_demo_seqs : list (list string) :=
  [["/"; "a"; "*.txt"]; ["/"; "a"; "*.txt"]; ["/"; "b"; "*"]].

(** A name is plain when it is not empty and has no separator. *)
Definition plain_name (k : string) : bool :=
  Str.nonempty k && negb (Str.contains "/" k).

Fixpoint distinct (l : list string) : bool :=
  match l with
  | [] => true
  | x :: l' => negb (existsb (String.eqb x) l') && distinct l'
  end.

(** Every dictionary of the tree has distinct plain keys, as in the trie
    below the root marker. *)
Fixpoint plain (t : Node) : bool :=
  match t with
  | mkNode _ chs =>
      distinct (keys chs)
      && forallb (fun kc => plain_name kc.1 && plain kc.2) chs
  end.

(** No node of the tree has exactly one child. *)
Fixpoint collapsed (t : Node) : bool :=
  match t with
  | mkNode _ chs =>
      negb (Nat.eqb (length chs) 1) && forallb (fun kc => collapsed kc.2) chs
  end.

(** What collapsing appends to a name: nothing, or segments led by a
    separator. *)
Definition chain_suffix (s : string) : bool :=
  match s with
  | EmptyString => true
  | String c _ => Ascii.eqb c "/"
  end.

(** The body of the loop of [collapse_chains] for one child. *)
Definition collapse_child (ch_name : string) (ch_node : Node)
  : option (string * Node) :=
  Some (collapse_chains ch_name ch_node).

(** What [collapse_chains] returns for a name and a plain tree. *)
Definition collapse_ok (name : string) (t : Node) : Prop :=
  (exists sfx, chain_suffix sfx = true
               /\ (collapse_chains name t).1 = name +:+ sfx)
  /\ wf (collapse_chains name t).2
  /\ collapsed (collapse_chains name t).2 = true.

(** ** Sibling order and rendered nodes *)

(** The order of siblings in the words of the program's key: an entry
    that is not leaf-shaped comes before a leaf-shaped one; among entries
    of the same shape the larger count comes first; among equal counts the
    smaller name comes first. *)
Definition child_before (a b : string * Node) : Prop :=
  (is_leaf_name a.1 = false /\ is_leaf_name b.1 = true)
  \/ (is_leaf_name a.1 = is_leaf_name b.1
      /\ (count a.2 > count b.2
          \/ (count a.2 = count b.2 /\ String.ltb a.1 b.1 = true))).

(** Children with tied counts and distinct names. *)
Definition tie_node : Node :=
  mkNode 14
    [("b", mkNode 2 []); ("*.x", mkNode 5 []); ("a", mkNode 2 []);
     ("*", mkNode 5 [])].

(** The node a line is about. *)
Definition line_node (l : Line) : Z * string * Z :=
  (l_depth l, l_name l, l_count l).

(** The nodes of a JSON document in document order, with their depth. *)
Fixpoint json_nodes (depth : Z) (j : Json) : list (Z * string * Z) :=
  match j with
  | JObj name cnt chs =>
      (depth, name, cnt) :: flat_map (json_nodes (depth + 1)) chs
  end.

(** Two files in two directories, rendered with [--compact] and
    [--emit-filter]. *)
Definition two_dirs_paths : list string := ["/etc/a.conf"; "/usr/b.txt"].

Definition two_dirs_args (compact : bool) : Args.t :=
  Args.mk false 1 0 0 "/" "" "" last false compact false true ext.

Definition two_dirs_tree : Node :=
  mkNode 2
    [("/", mkNode 2
       [("etc", mkNode 1 [("*.conf", mkNode 1 [])]);
        ("usr", mkNode 1 [("*.txt", mkNode 1 [])])])].

(** What is left of the tree after a render with collapsing. *)
Definition two_dirs_tree_after : Node :=
  mkNode 2
    [("/", mkNode 2
       [("etc/*.conf", mkNode 1 []); ("usr/*.txt", mkNode 1 [])])].

(** ** Located trees

    A tree together with the location of the object of each node. *)

#[local] Unset Elimination Schemes.
Inductive LNode : Type :=
  mkL { ln_loc : Store.loc; ln_count : Z; ln_children : dict LNode }.
#[local] Set Elimination Schemes.

Fixpoint LNode_ind (P : LNode -> Prop)
    (H : forall l cnt chs, Forall (fun kc => P kc.2) chs -> P (mkL l cnt chs))
    (lt : LNode) : P lt :=
  match lt with
  | mkL l cnt chs =>
      H l cnt chs
        ((fix all (d : dict LNode) : Forall (fun kc => P kc.2) d :=
            match d with
            | [] => @List.Forall_nil _ _
            | kc :: d' => @List.Forall_cons _ _ kc d' (LNode_ind P H kc.2) (all d')
            end) chs)
  end.

(** The tree value of a located tree. *)
Fixpoint erase (lt : LNode) : Node :=
  match lt with
  | mkL _ cnt chs => mkNode cnt (map (fun kc => (kc.1, erase kc.2)) chs)
  end.

Definition erase_item (kc : string * LNode) : string * Node :=
  (kc.1, erase kc.2).

(** The dictionary entry of a child: its name and its location. *)
Definition entry (kc : string * LNode) : string * Store.loc :=
  (kc.1, ln_loc kc.2).

(** The locations of all nodes. *)
Fixpoint all_locs (lt : LNode) : list Store.loc :=
  match lt with
  | mkL l _ chs => l :: flat_map (fun kc => all_locs kc.2) chs
  end.

Definition dict_locs (d : dict LNode) : list Store.loc :=
  flat_map (fun kc => all_locs kc.2) d.

(** The store holds the objects of the located tree. *)
Inductive holds (s : Store.store) : LNode -> Prop :=
  | holds_node l cnt chs :
      s !! l = Some (Store.mkObj cnt (map entry chs)) ->
      Forall (fun kc => holds s kc.2) chs ->
      holds s (mkL l cnt chs).

(** What is left at the node object passed to [collapse_chains]: the
    nodes of a chain keep their single child, the node the chain ends in
    gets the collapsed children. *)
Fixpoint collapse_left (t : Node) : Node :=
  match t with
  | mkNode cnt chs =>
      match chs with
      | [(k, c)] => mkNode cnt [(k, collapse_left c)]
      | _ => mkNode cnt (dict_build collapse_child chs [])
      end
  end.

(** The outcome of [Store.collapse_chains] on a located tree: the name
    and node returned, the node left behind, and the store. *)
Record collapse_post (s : Store.store) (name : string) (lt : LNode)
    (lt' lt0 : LNode) (s' : Store.store) : Prop := {
  post_result : erase lt' = (collapse_chains name (erase lt)).2;
  post_holds : holds s' lt';
  post_locs : incl (all_locs lt') (all_locs lt);
  post_left_loc : ln_loc lt0 = ln_loc lt;
  post_left : erase lt0 = collapse_left (erase lt);
  post_left_holds : holds s' lt0;
  post_left_locs : incl (all_locs lt0) (all_locs lt);
  post_length : length s' = length s;
  post_frame : forall l, ~ In l (all_locs lt) -> s' !! l = s !! l
}.

Definition collapse_refines (lt : LNode) : Prop :=
  forall (s : Store.store) (name : string) (fuel : nat),
    holds s lt -> List.NoDup (all_locs lt) ->
    (height (erase lt) <= fuel)%nat ->
    exists lt' lt0 s',
      Store.collapse_chains fuel name (ln_loc lt) s
      = Some ((collapse_chains name (erase lt)).1, ln_loc lt', s')
      /\ collapse_post s name lt lt' lt0 s'.

(** The tree under the working node of [print_tree]. *)
Definition print_tree_view (compact : bool) (t : Node) : Node :=
  if compact
  then mkNode (count t) (dict_build collapse_child (children t) [])
  else t.

(** The tree under the root node after [print_tree]. *)
Definition print_tree_left (compact : bool) (t : Node) : Node :=
  if compact
  then mkNode (count t)
         (map (fun kc => (kc.1, collapse_left kc.2)) (children t))
  else t.

(** The output of [main] as a function of the tree values: the text is
    rendered from the view of the working node, the filters are derived
    from what [print_tree] left under the root. *)
Definition main_output (re_search : string -> string -> bool)
    (args : Args.t) (paths : list string) : list Output :=
  match prune_tree (build_tree re_search args paths) (Args.min_count args) with
  | None => []
  | Some tree =>
      if is_nil (children tree) then []
      else if Args.json args then
        StdoutJson (json_root (Args.max_depth args) (Args.top args) tree)
        :: (if Args.emit_filter args
            then map (fun f => Stdout ("#FILTER " +:+ f))
                   (filter_lines (Args.emit_filter_mode args) tree)
            else [])
      else
        (map Stdout
           (render_text (print_tree_view (Args.compact args) tree)
              (Args.ascii args) (negb (Args.no_counts args))
              (Args.max_depth args) (Args.top args))
         ++ (if Args.emit_filter args
             then map Stderr
                    (filter_lines (Args.emit_filter_mode args)
                       (print_tree_left (Args.compact args) tree))
             else []))%list
  end.

(** ** Shapes of paths *)

(** Every character is the separator. *)
Fixpoint all_slashes (s : string) : bool :=
  match s with
  | EmptyString => true
  | String c s' => Ascii.eqb c "/" && all_slashes s'
  end.

(** A path component: not empty and without separator. *)
Definition component (w : string) : Prop :=
  Str.nonempty w = true /\ Str.contains "/" w = false.

(** ** Fields of an input line *)



(** ** Counts below a node *)

(** The sum of the counts of the children in a dictionary. *)
Definition sum_counts (d : dict Node) : Z :=
  fold_right (fun kc acc => count kc.2 + acc) 0 d.

(** Below every node the counts of the children are at least one and add
    up to at most the count of the node. *)
Fixpoint counted (t : Node) : bool :=
  match t with
  | mkNode cnt chs =>
      (sum_counts chs <=? cnt)
      && forallb (fun kc => (1 <=? count kc.2) && counted kc.2) chs
  end.

(** ** Leaves of a tree *)

(** The nodes without children below a node called [name], each with the
    names on the way to it joined by the separator, and with its count. *)
Fixpoint leaf_paths (name : string) (t : Node) : list (string * Z) :=
  match t with
  | mkNode cnt chs =>
      match chs with
      | [] => [(name, cnt)]
      | _ => flat_map (fun kc => leaf_paths (name +:+ "/" +:+ kc.1) kc.2) chs
      end
  end.

(** ** Size of a tree *)

(** The number of nodes of a tree. *)
Fixpoint size (t : Node) : nat :=
  match t with
  | mkNode _ chs => S (list_sum (map (fun kc => size kc.2) chs))
  end.

(** ** Filters of a route *)

(** The loop [for ch_name, ch_node in d.items(): walk(ch_name, ch_node,
    stack)] from an empty set. *)
Definition walks (mode : FilterMode) (d : dict Node) (stack : list string)
  : gset string :=
  fold_left (fun out kc => walk mode kc.1 kc.2 stack out) d ∅.

(** The filters one route gives below [stack]: a glob for every name that
    is not leaf-shaped, in the modes that ask for them, and the bucket
    pattern at the first leaf-shaped name, where the walk ends. *)
Fixpoint route_filters (mode : FilterMode) (parts stack : list string)
  : gset string :=
  match parts with
  | [] => ∅
  | k :: rest =>
      if is_leaf_name k then
        if mode_ext mode then {[ Posix.join (current_dir_path stack) k ]} else ∅
      else
        (if mode_dir mode
         then {[ Posix.join (current_dir_path (stack ++ [k])) "**" ]} else ∅)
        ∪ route_filters mode rest (stack ++ [k])
  end.

(** The shape of a filter: a directory part, the separator, and a last
    part that is [**] for a directory glob and a leaf-shaped name for a
    bucket pattern. *)
Definition filter_shape (f : string) : Prop :=
  Str.startswith f "/" = true
  /\ exists d name,
       f = d +:+ "/" +:+ name /\ (name = "**" \/ is_leaf_name name = true).

(** ** Directory names *)

(** A directory name of a route: not empty, without separator and not
    leaf-shaped. *)
Definition dir_name (d : string) : Prop :=
  plain_name d = true /\ is_leaf_name d = false.

(** [a] ends with the separator. *)
Definition ends_sep (a : string) : bool :=
  Str.startswith (Str.drop (Nat.pred (String.length a)) a) "/".

(** ** Clean path components *)

(** A path component that normalisation keeps as it is: not empty,
    without separator, and neither [.] nor [..]. *)
Definition clean (w : string) : Prop :=
  component w /\ w <> "." /\ w <> "..".

(** ** Trees with the same nodes *)

(** The count found at the end of a route, where there is a node. *)
Definition shape (t : Node) (route : list string) : option Z :=
  option_map count (node_at t route).

(** Two trees with the same routes and the same counts: they differ at
    most in the order of the names in their dictionaries. *)
Definition same_nodes (t1 t2 : Node) : Prop :=
  forall route, shape t1 route = shape t2 route.

(** A dictionary entry and its counterpart in such a tree. *)
Definition same_entry (a b : string * Node) : Prop :=
  a.1 = b.1 /\ wf a.2 /\ wf b.2 /\ same_nodes a.2 b.2.

(** * Properties *)

(** ** Extension buckets *)

Lemma contains_In (c : ascii) (s : string) :
  Str.contains c s = true <-> In c (list_ascii_of_string s).
Proof.
  induction s as [|d s IH]; simpl.
  - split; [discriminate | tauto].
  - destruct (Ascii.eqb_spec d c) as [->|Hne].
    + split; auto.
    + rewrite IH. split; [auto | intros [H|H]; [congruence | exact H]].
Qed.

Lemma nonempty_true (s : string) : Str.nonempty s = true -> s <> "".
Proof. destruct s; [discriminate | discriminate]. Qed.

Lemma get_ext_leaf_bucket (basename : string) (mode : ExtMode) :
  is_bucket (get_ext_leaf basename mode).
Proof.
  unfold get_ext_leaf.
  destruct mode; try (left; reflexivity);
    destruct (Str.startswith basename "."); try (left; reflexivity);
    destruct (Str.contains "." basename); try (left; reflexivity); simpl negb; cbv iota.
  - destruct (Str.nonempty _) eqn:E; [right | left; reflexivity].
    eexists; split; [apply nonempty_true, E | reflexivity].
  - destruct (Str.nonempty _) eqn:E; [right | left; reflexivity].
    eexists; split; [apply nonempty_true, E | reflexivity].
Qed.

Lemma is_bucket_leaf_name (s : string) : is_bucket s -> is_leaf_name s = true.
Proof.
  intros [->|(e & _ & ->)]; [reflexivity|].
  unfold is_leaf_name. simpl. reflexivity.
Qed.

(** C4: the bucket of [report.tar.gz] is [*.gz] under [last], [*.tar.gz]
    under [full] and [*] under [star]; a basename that starts with a dot
    (such as [.hidden]) and a basename without any dot (such as [noext])
    get the bucket [*] under every mode. *)
Theorem get_ext_leaf_buckets :
  get_ext_leaf "report.tar.gz" last = "*.gz"
  /\ get_ext_leaf "report.tar.gz" full = "*.tar.gz"
  /\ get_ext_leaf "report.tar.gz" star = "*"
  /\ (forall rest mode, get_ext_leaf (String "." rest) mode = "*")
  /\ (forall mode, get_ext_leaf ".hidden" mode = "*")
  /\ (forall basename mode,
        ~ In "."%char (list_ascii_of_string basename) ->
        get_ext_leaf basename mode = "*")
  /\ (forall mode, get_ext_leaf "noext" mode = "*").
Proof.
  repeat split; try reflexivity.
  - intros rest []; reflexivity.
  - intros []; reflexivity.
  - intros basename mode Hno.
    assert (Hc : Str.contains "." basename = false).
    { destruct (Str.contains "." basename) eqn:E; [|reflexivity].
      apply contains_In in E. contradiction. }
    unfold get_ext_leaf. rewrite Hc.
    destruct mode, (Str.startswith basename "."); reflexivity.
  - intros []; reflexivity.
Qed.

Lemma get_ext_leaf_buckets_witness :
  ~ In "."%char (list_ascii_of_string "Makefile")
  /\ get_ext_leaf "Makefile" full = "*".
Proof.
  assert (H : ~ In "."%char (list_ascii_of_string "Makefile")).
  { simpl. intros Hin. repeat (destruct Hin as [Hin|Hin]; [discriminate Hin|]).
    exact Hin. }
  split; [exact H|].
  exact (proj1 (proj2 (proj2 (proj2 (proj2 (proj2 get_ext_leaf_buckets)))))
           "Makefile" full H).
Defined.

(** ** The shape of normalised paths *)

(** C10: [path_to_parts] does not always start with the root marker. The
    path [//] is normalised to [//], which is neither [/] nor has a
    component after the first slash, so the root marker itself is taken as
    the basename and replaced by its bucket: the result is [["*"]] under
    every mode, and the trie built from it has the child [*] under the
    root, not a child [/]. *)
Theorem path_to_parts_double_slash :
  forall mode re_search,
    Posix.normpath "//" = "//"
    /\ path_to_parts "//" mode = ["*"]
    /\ hd "" (path_to_parts "//" mode) <> "/"
    /\ keys (children (build_tree re_search
                        (Args.mk false 1 0 0 "/" "" "" mode false false false false ext)
                        ["//"])) = ["*"].
Proof.
  intros mode re_search.
  repeat split; try (destruct mode; reflexivity).
  destruct mode; vm_compute; discriminate.
Qed.

(** ** Filter derivation on [/ -> etc -> *.conf] *)

Lemma etc_conf_tree_built (re_search : string -> string -> bool) :
  prune_tree (build_tree re_search default_args etc_conf_paths) 1
  = Some etc_conf_tree.
Proof. reflexivity. Qed.

(** C2, as stated, fails in [dir] mode: the node of the root marker is an
    internal node as well and contributes the glob [/**]. *)
Lemma collect_filters_dir_not_only_etc :
  collect_filters dir etc_conf_tree [] <> {[ "/etc/**" ]}.
Proof. vm_compute. discriminate. Qed.

(** C2 (amended): on the pruned tree [/ -> etc -> *.conf [5]] mode [ext]
    gives exactly [{"/etc/*.conf"}], and mode [dir] gives exactly
    [{"/**", "/etc/**"}]: every internal node, the root marker included,
    gives a glob and the bucket gives none. *)
Theorem collect_filters_etc_conf :
  collect_filters ext etc_conf_tree [] = {[ "/etc/*.conf" ]}
  /\ collect_filters dir etc_conf_tree [] = {[ "/**"; "/etc/**" ]}.
Proof. split; vm_compute; reflexivity. Qed.

(** Without the node of the root marker, a tree that [build_tree] never
    returns, [dir] mode gives [{"/etc/**"}] alone. *)
Remark collect_filters_without_root_marker :
  collect_filters dir (mkNode 5 [("etc", mkNode 5 [("*.conf", mkNode 5 [])])]) []
  = {[ "/etc/**" ]}.
Proof. vm_compute. reflexivity. Qed.

(** ** Dictionary lemmas *)

Section DictFacts.
Context {V : Type}.
Implicit Types (d : dict V) (k : string) (v : V).

Lemma dict_get_set_eq d k v : dict_get (dict_set d k v) k = Some v.
Proof.
  induction d as [|[k' v'] d IH]; simpl.
  - now rewrite String.eqb_refl.
  - destruct (String.eqb k' k) eqn:E; simpl.
    + now rewrite String.eqb_refl.
    + now rewrite E.
Qed.

Lemma dict_get_set_ne d k k' v :
  k <> k' -> dict_get (dict_set d k v) k' = dict_get d k'.
Proof.
  intros Hne. induction d as [|[k0 v0] d IH]; simpl.
  - destruct (String.eqb_spec k k'); [contradiction | reflexivity].
  - destruct (String.eqb_spec k0 k) as [->|Hk]; simpl.
    + destruct (String.eqb_spec k k'); [contradiction | reflexivity].
    + now rewrite IH.
Qed.

Lemma dict_get_None d k : dict_get d k = None <-> ~ In k (keys d).
Proof.
  induction d as [|[k0 v0] d IH]; simpl.
  - tauto.
  - destruct (String.eqb_spec k0 k) as [->|Hk].
    + split; [discriminate | intros H; exfalso; apply H; now left].
    + rewrite IH. tauto.
Qed.

Lemma dict_get_In d k v : dict_get d k = Some v -> In (k, v) d.
Proof.
  induction d as [|[k0 v0] d IH]; simpl; [discriminate|].
  destruct (String.eqb_spec k0 k) as [->|Hk].
  - intros [= ->]. now left.
  - intros H. right. now apply IH.
Qed.

Lemma In_dict_get d k v :
  List.NoDup (keys d) -> In (k, v) d -> dict_get d k = Some v.
Proof.
  induction d as [|[k0 v0] d IH]; simpl; [tauto|].
  intros Hnd [[= -> ->]|Hin].
  - now rewrite String.eqb_refl.
  - apply NoDup_cons_iff in Hnd as [Hk0 Hnd].
    destruct (String.eqb_spec k0 k) as [->|Hk].
    + exfalso. apply Hk0. change k with (fst (k, v)). now apply in_map.
    + auto.
Qed.

(** Assigning to a key that is absent appends it. *)
Lemma dict_set_fresh d k v : ~ In k (keys d) -> dict_set d k v = (d ++ [(k, v)])%list.
Proof.
  induction d as [|[k0 v0] d IH]; simpl; [reflexivity|].
  intros H. destruct (String.eqb_spec k0 k) as [->|Hk].
  - exfalso. apply H. now left.
  - rewrite IH; [reflexivity | tauto].
Qed.

Lemma keys_dict_set_present d k v : In k (keys d) -> keys (dict_set d k v) = keys d.
Proof.
  induction d as [|[k0 v0] d IH]; simpl; [tauto|].
  intros H. destruct (String.eqb_spec k0 k) as [->|Hk]; simpl.
  - reflexivity.
  - rewrite IH; [reflexivity|]. destruct H; [contradiction | assumption].
Qed.

Lemma keys_dict_set_fresh d k v :
  ~ In k (keys d) -> keys (dict_set d k v) = (keys d ++ [k])%list.
Proof.
  intros H. rewrite dict_set_fresh by assumption. unfold keys.
  now rewrite map_app.
Qed.

Lemma NoDup_snoc (l : list string) (x : string) :
  List.NoDup l -> ~ In x l -> List.NoDup (l ++ [x]).
Proof.
  induction l as [|y l IH]; simpl; intros Hnd Hx.
  - constructor; [tauto | constructor].
  - apply NoDup_cons_iff in Hnd as [Hy Hnd].
    constructor.
    + rewrite in_app_iff. simpl. intros [H|[H|[]]]; [tauto|]. subst. tauto.
    + apply IH; tauto.
Qed.

Lemma NoDup_keys_dict_set d k v :
  List.NoDup (keys d) -> List.NoDup (keys (dict_set d k v)).
Proof.
  intros Hnd. destruct (in_dec string_dec k (keys d)) as [Hin|Hout].
  - now rewrite keys_dict_set_present.
  - rewrite keys_dict_set_fresh by assumption. now apply NoDup_snoc.
Qed.
End DictFacts.

(** ** Counts of the built trie *)

Lemma count_at_new_node (route : list string) : count_at new_node route = 0.
Proof. destruct route; reflexivity. Qed.

Lemma count_at_cons (t : Node) (k : string) (r : list string) :
  count_at t (k :: r)
  = match dict_get (children t) k with
    | Some c => count_at c r
    | None => 0
    end.
Proof. unfold count_at. simpl. now destruct (dict_get (children t) k). Qed.

(** One insertion adds one to every node on the route of [parts] and to
    no other node. *)
Lemma ensure_path_count_at (parts : list string) :
  forall (t : Node) (route : list string),
    count_at (ensure_path t parts) route
    = count_at t route + (if route_prefix route parts then 1 else 0).
Proof.
  induction parts as [|p rest IH]; intros t [|k r].
  - reflexivity.
  - rewrite !count_at_cons. simpl. lia.
  - reflexivity.
  - rewrite !count_at_cons. simpl.
    destruct (String.eqb_spec k p) as [->|Hne]; simpl.
    + rewrite dict_get_set_eq, IH.
      destruct (dict_get (children t) p); [reflexivity|].
      now rewrite count_at_new_node.
    + rewrite dict_get_set_ne by congruence. lia.
Qed.

Section BuildCounts.
Variable re_search : string -> string -> bool.
Variable args : Args.t.

(** A path passes when it starts with the prefix, when the include
    pattern, if there is one, matches, and when the exclude pattern, if
    there is one, does not. *)
Lemma passes_spec (path : string) :
  passes re_search args path = true <->
  (Args.prefix args = "" \/ Str.startswith path (Args.prefix args) = true)
  /\ (Args.include_regex args = ""
      \/ re_search (Args.include_regex args) path = true)
  /\ (Args.exclude_regex args = ""
      \/ re_search (Args.exclude_regex args) path = false).
Proof.
  unfold passes, want_path, compile_filters. cbn [fst snd].
  set (sw := Str.startswith path (Args.prefix args)). clearbody sw.
  destruct (Args.prefix args), (Args.include_regex args),
    (Args.exclude_regex args); simpl;
    repeat match goal with
      | |- context [re_search ?a ?b] => destruct (re_search a b); simpl
      end;
    destruct sw; simpl;
    (split;
     [ intros H; try discriminate H;
       repeat split; first [now left | now right]
     | intros ([H1|H1] & [H2|H2] & [H3|H3]); congruence ]).
Qed.

Let step (root : Node) (path : string) : Node :=
  if negb (passes re_search args path) then root
  else ensure_path root (path_to_parts path (Args.ext_mode args)).

Lemma build_tree_fold (paths : list string) :
  build_tree re_search args paths = fold_left step paths new_node.
Proof. reflexivity. Qed.

Lemma through_nil (paths : list string) :
  through re_search args [] paths = List.filter (passes re_search args) paths.
Proof.
  unfold through.
  induction (List.filter (passes re_search args) paths) as [|x l IHl].
  - reflexivity.
  - cbn [List.filter route_prefix]. f_equal. exact IHl.
Qed.

Lemma fold_step_count_at (paths : list string) :
  forall (t : Node) (route : list string),
    count_at (fold_left step paths t) route
    = count_at t route + Z.of_nat (length (through re_search args route paths)).
Proof.
  induction paths as [|p paths IH]; intros t route; simpl.
  - unfold through. simpl. lia.
  - rewrite IH. unfold step, through. simpl.
    destruct (passes re_search args p); simpl.
    + rewrite ensure_path_count_at.
      destruct (route_prefix route _); simpl length; lia.
    + lia.
Qed.

(** C3: after [build_tree] the count of the root is the number of input
    paths that pass the inclusion filter, and the count of the node at
    any route is the number of passing paths whose normalised segment
    sequence goes through that route: each passing path adds exactly one
    to every node on its route. *)
Theorem build_tree_counts (paths : list string) :
  count (build_tree re_search args paths)
  = Z.of_nat (length (List.filter (passes re_search args) paths))
  /\ forall route : list string,
       count_at (build_tree re_search args paths) route
       = Z.of_nat (length (through re_search args route paths)).
Proof.
  assert (H : forall route : list string,
             count_at (build_tree re_search args paths) route
             = Z.of_nat (length (through re_search args route paths))).
  { intros route. rewrite build_tree_fold, fold_step_count_at.
    now rewrite count_at_new_node. }
  split; [|exact H].
  specialize (H []). now rewrite through_nil in H.
Qed.
End BuildCounts.

(** ** Well-formed trees *)

Lemma wf_inv (t : Node) :
  wf t -> List.NoDup (keys (children t)) /\ Forall (fun kc => wf kc.2) (children t).
Proof. now intros [cnt chs H1 H2]. Qed.

Lemma Forall_dict_set {V} (P : string * V -> Prop) (d : dict V) k v :
  Forall P d -> P (k, v) -> Forall P (dict_set d k v).
Proof.
  intros Hd Hkv. induction Hd as [|[k0 v0] d H0 Hd IH]; simpl.
  - now repeat constructor.
  - destruct (String.eqb k0 k); constructor; auto.
Qed.

Lemma Forall_dict_get {V} (P : string * V -> Prop) (d : dict V) k v :
  Forall P d -> dict_get d k = Some v -> P (k, v).
Proof.
  intros Hd Hg. apply dict_get_In in Hg.
  rewrite Forall_forall in Hd. apply Hd. now apply list_elem_of_In.
Qed.

Lemma wf_new_node : wf new_node.
Proof. constructor; constructor. Qed.

Lemma ensure_path_wf (parts : list string) :
  forall t, wf t -> wf (ensure_path t parts).
Proof.
  induction parts as [|p rest IH]; intros t Ht;
    destruct (wf_inv t Ht) as [Hnd Hall]; simpl.
  - now constructor.
  - constructor.
    + now apply NoDup_keys_dict_set.
    + apply Forall_dict_set; [assumption|]. simpl. apply IH.
      destruct (dict_get (children t) p) as [c|] eqn:E.
      * exact (Forall_dict_get _ _ _ _ Hall E).
      * apply wf_new_node.
Qed.

Lemma built_wf (seqs : list (list string)) : wf (built seqs).
Proof.
  unfold built. generalize wf_new_node. generalize new_node.
  induction seqs as [|parts seqs IH]; intros t Ht; simpl; [assumption|].
  apply IH. now apply ensure_path_wf.
Qed.

(** ** The dictionary a filtering loop builds *)

Section DictBuildFacts.
Context {A B : Type} (f : string -> A -> option (string * B)).

Hypothesis keeps_key : forall k v k2 v2, f k v = Some (k2, v2) -> k2 = k.

Lemma keys_assigned_incl (items : list (string * A)) (k : string) :
  In k (keys (assigned f items)) -> In k (keys items).
Proof.
  induction items as [|[k0 v0] items IH]; simpl; [tauto|].
  destruct (f k0 v0) as [[k2 v2]|] eqn:E; simpl.
  - apply keeps_key in E as ->. tauto.
  - tauto.
Qed.

Lemma NoDup_keys_assigned (items : list (string * A)) :
  List.NoDup (keys items) -> List.NoDup (keys (assigned f items)).
Proof.
  induction items as [|[k0 v0] items IH]; simpl; [constructor|].
  intros Hnd. apply NoDup_cons_iff in Hnd as [Hk Hnd].
  destruct (f k0 v0) as [[k2 v2]|] eqn:E; simpl; [|auto].
  apply keeps_key in E as ->. constructor; [|auto].
  intros Hin. apply Hk. now apply keys_assigned_incl.
Qed.

(** With distinct keys no assignment overwrites another. *)
Lemma dict_build_assigned (items : list (string * A)) :
  forall acc : dict B,
    List.NoDup (keys items) ->
    (forall k, In k (keys items) -> ~ In k (keys acc)) ->
    dict_build f items acc = (acc ++ assigned f items)%list.
Proof.
  induction items as [|[k0 v0] items IH]; intros acc Hnd Hdis; simpl.
  - now rewrite app_nil_r.
  - apply NoDup_cons_iff in Hnd as [Hk Hnd].
    destruct (f k0 v0) as [[k2 v2]|] eqn:E.
    + apply keeps_key in E as ->.
      rewrite IH; [|assumption|].
      * rewrite dict_set_fresh by (apply Hdis; now left).
        now rewrite <- app_assoc.
      * intros k Hin. rewrite keys_dict_set_fresh by (apply Hdis; now left).
        rewrite in_app_iff. simpl. intros [H|[H|[]]].
        -- revert H. apply Hdis. now right.
        -- subst. contradiction.
    + apply IH; [assumption|]. intros k Hin. apply Hdis. now right.
Qed.

Lemma dict_build_nil (items : list (string * A)) :
  List.NoDup (keys items) -> dict_build f items [] = assigned f items.
Proof. intros Hnd. now rewrite dict_build_assigned by auto. Qed.

Lemma dict_get_assigned (items : list (string * A)) (k : string) :
  List.NoDup (keys items) ->
  dict_get (assigned f items) k
  = match dict_get items k with
    | Some v => match f k v with Some kv => Some kv.2 | None => None end
    | None => None
    end.
Proof.
  induction items as [|[k0 v0] items IH]; simpl; [reflexivity|].
  intros Hnd. apply NoDup_cons_iff in Hnd as [Hk Hnd].
  destruct (String.eqb_spec k0 k) as [->|Hne].
  - destruct (f k v0) as [[k2 v2]|] eqn:E; simpl.
    + apply keeps_key in E as ->. now rewrite String.eqb_refl.
    + apply dict_get_None. intros Hin. apply Hk.
      now apply keys_assigned_incl.
  - destruct (f k0 v0) as [[k2 v2]|] eqn:E; simpl; [|auto].
    apply keeps_key in E as ->.
    destruct (String.eqb_spec k0 k); [contradiction | auto].
Qed.
End DictBuildFacts.

(** ** Pruning *)

Lemma prune_tree_unfold (cnt : Z) (chs : dict Node) (T : Z) :
  prune_tree (mkNode cnt chs) T
  = if cnt <? T then None
    else Some (mkNode cnt (dict_build (prune_child T) chs [])).
Proof. reflexivity. Qed.

Lemma prune_child_keeps_key (T : Z) k v k2 v2 :
  prune_child T k v = Some (k2, v2) -> k2 = k.
Proof. unfold prune_child. destruct (prune_tree v T); congruence. Qed.

Lemma prune_tree_None (t : Node) (T : Z) :
  prune_tree t T = None <-> count t < T.
Proof.
  destruct t as [cnt chs]. rewrite prune_tree_unfold. simpl.
  destruct (Z.ltb_spec cnt T); split; (congruence || lia).
Qed.

Lemma prune_tree_Some (t t' : Node) (T : Z) :
  wf t -> prune_tree t T = Some t' ->
  T <= count t
  /\ t' = mkNode (count t) (assigned (prune_child T) (children t)).
Proof.
  intros Hwf. destruct t as [cnt chs]. rewrite prune_tree_unfold. simpl.
  destruct (wf_inv _ Hwf) as [Hnd _]. simpl in Hnd.
  destruct (Z.ltb_spec cnt T); [discriminate|].
  intros [= <-]. split; [assumption|].
  now rewrite dict_build_nil by eauto using prune_child_keeps_key.
Qed.

Lemma survivesb_root (T : Z) (t : Node) (route : list string) :
  survivesb T t route = true -> T <= count t.
Proof.
  destruct route; simpl; intros H; apply andb_true_iff in H as [H _];
    destruct (Z.ltb_spec (count t) T); (discriminate || assumption).
Qed.

(** Descending in the pruned tree is descending in the tree and pruning
    there, as long as every node passed has a large enough count. *)
Lemma prune_node_at (T : Z) (t : Node) :
  wf t ->
  forall (t' : Node) (route : list string),
    prune_tree t T = Some t' ->
    node_at t' route
    = if survivesb T t route
      then match node_at t route with
           | Some n => prune_tree n T
           | None => None
           end
      else None.
Proof.
  induction t as [cnt chs IH] using Node_ind. intros Hwf t' route Hp.
  destruct (prune_tree_Some _ _ _ Hwf Hp) as [Hge Ht'].
  destruct (wf_inv _ Hwf) as [Hnd Hall].
  cbn [count children] in Hge, Ht', Hnd, Hall.
  assert (Hlt : (cnt <? T) = false) by (apply Z.ltb_ge; lia).
  destruct route as [|k r]; cbn [survivesb node_at count children];
    rewrite Hlt; cbn [negb andb].
  - now rewrite Hp.
  - subst t'. cbn [children].
    rewrite dict_get_assigned by eauto using prune_child_keeps_key.
    destruct (dict_get chs k) as [c|] eqn:Hc; [|reflexivity].
    unfold prune_child.
    destruct (prune_tree c T) as [c'|] eqn:Hpc; cbn [snd].
    + pose proof (Forall_dict_get _ _ _ _ IH Hc) as IHc.
      pose proof (Forall_dict_get _ _ _ _ Hall Hc) as Hwc.
      cbn [snd] in IHc, Hwc. now apply IHc.
    + apply prune_tree_None in Hpc.
      destruct (survivesb T c r) eqn:Hs; [|reflexivity].
      apply survivesb_root in Hs. lia.
Qed.

Lemma assigned_prune_wf (T : Z) (chs : dict Node) :
  Forall (fun kc => forall t', prune_tree kc.2 T = Some t' -> wf t') chs ->
  Forall (fun kc => wf kc.2) (assigned (prune_child T) chs).
Proof.
  induction 1 as [|[k c] chs Hc _ IH]; [constructor|].
  cbn [assigned]. unfold prune_child at 1.
  destruct (prune_tree c T) as [c'|] eqn:E; [|assumption].
  constructor; [|assumption]. cbn [snd] in *. now apply Hc.
Qed.

Lemma prune_tree_wf (T : Z) (t : Node) :
  wf t -> forall t', prune_tree t T = Some t' -> wf t'.
Proof.
  induction t as [cnt chs IH] using Node_ind. intros Hwf t' Hp.
  destruct (prune_tree_Some _ _ _ Hwf Hp) as [_ ->].
  destruct (wf_inv _ Hwf) as [Hnd Hall]. cbn [count children] in *.
  constructor.
  - apply NoDup_keys_assigned; eauto using prune_child_keeps_key.
  - apply assigned_prune_wf.
    rewrite Forall_forall in *. intros kc Hin. apply IH; auto.
Qed.

Lemma assigned_prune_twice (T : Z) (chs : dict Node) :
  Forall (fun kc => forall t', prune_tree kc.2 T = Some t' ->
                               prune_tree t' T = Some t') chs ->
  assigned (prune_child T) (assigned (prune_child T) chs)
  = assigned (prune_child T) chs.
Proof.
  induction 1 as [|[k c] chs Hc _ IH]; [reflexivity|].
  cbn [assigned]. destruct (prune_child T k c) as [[k2 c2]|] eqn:E; [|assumption].
  cbn [assigned]. unfold prune_child in E.
  destruct (prune_tree c T) as [c'|] eqn:Ec; [|discriminate].
  injection E as <- <-. cbn [snd] in Hc.
  unfold prune_child at 1. rewrite (Hc _ Ec). now rewrite IH.
Qed.

Lemma prune_tree_idempotent (T : Z) (t : Node) :
  wf t -> forall t', prune_tree t T = Some t' -> prune_tree t' T = Some t'.
Proof.
  induction t as [cnt chs IH] using Node_ind. intros Hwf t' Hp.
  destruct (prune_tree_Some _ _ _ Hwf Hp) as [Hge ->].
  destruct (wf_inv _ Hwf) as [Hnd Hall]. cbn [count children] in *.
  rewrite prune_tree_unfold.
  replace (cnt <? T) with false by (symmetry; apply Z.ltb_ge; lia).
  rewrite dict_build_nil.
  - rewrite assigned_prune_twice; [reflexivity|].
    rewrite Forall_forall in *. intros kc Hin. apply IH; auto.
  - eauto using prune_child_keeps_key.
  - apply NoDup_keys_assigned; eauto using prune_child_keeps_key.
Qed.

Lemma assigned_prune_all_below (T : Z) (chs : dict Node) :
  Forall (fun kc => count kc.2 < T) chs -> assigned (prune_child T) chs = [].
Proof.
  induction 1 as [|[k c] chs Hc _ IH]; [reflexivity|].
  cbn [assigned]. unfold prune_child at 1. cbn [snd] in Hc.
  now rewrite (proj2 (prune_tree_None c T) Hc).
Qed.

Lemma wf_node_at (t : Node) :
  wf t -> forall route n, node_at t route = Some n -> wf n.
Proof.
  induction t as [cnt chs IH] using Node_ind. intros Hwf [|k r] n; simpl.
  - now intros [= <-].
  - destruct (wf_inv _ Hwf) as [_ Hall]. simpl in Hall.
    destruct (dict_get chs k) as [c|] eqn:Hc; [|discriminate].
    apply (Forall_dict_get _ _ _ _ IH Hc).
    apply (Forall_dict_get _ _ _ _ Hall Hc).
Qed.

Lemma survivesb_node_at (T : Z) (t : Node) :
  forall route, survivesb T t route = true ->
    exists n, node_at t route = Some n /\ T <= count n.
Proof.
  induction t as [cnt chs IH] using Node_ind. intros [|k r] Hs.
  - exists (mkNode cnt chs). split; [reflexivity|].
    now apply survivesb_root in Hs.
  - cbn [survivesb node_at count children] in *.
    apply andb_true_iff in Hs as [_ Hs].
    destruct (dict_get chs k) as [c|] eqn:Hc; [|discriminate].
    now apply (Forall_dict_get _ _ _ _ IH Hc).
Qed.

(** C5: on every tree built by [ensure_path], [prune_tree] with threshold
    [T] gives nothing exactly when the root's count is below [T];
    otherwise a route leads to a node of the pruned tree exactly when it
    leads to a node of the tree and every node on it, from the root on, has
    a count of at least [T], and the node found is the pruned original,
    with its count; a node that survives while all its children are below
    [T] is kept without children; pruning the pruned tree again with [T]
    changes nothing. *)
Theorem prune_tree_spec (seqs : list (list string)) (T : Z) :
  (prune_tree (built seqs) T = None <-> count (built seqs) < T)
  /\ (forall t' route,
        prune_tree (built seqs) T = Some t' ->
        (is_Some (node_at t' route) <-> survivesb T (built seqs) route = true)
        /\ (forall n', node_at t' route = Some n' ->
             exists n, node_at (built seqs) route = Some n
                       /\ count n' = count n
                       /\ prune_tree n T = Some n'))
  /\ (forall t' route n,
        prune_tree (built seqs) T = Some t' ->
        node_at (built seqs) route = Some n ->
        survivesb T (built seqs) route = true ->
        Forall (fun kc => count kc.2 < T) (children n) ->
        node_at t' route = Some (mkNode (count n) []))
  /\ (forall t',
        prune_tree (built seqs) T = Some t' -> prune_tree t' T = Some t').
Proof.
  pose proof (built_wf seqs) as Hwf. set (t := built seqs) in *.
  split; [apply prune_tree_None|]. split; [|split].
  - intros t' route Hp.
    pose proof (prune_node_at T t Hwf t' route Hp) as Hat. split.
    + destruct (survivesb T t route) eqn:Hs.
      * split; [reflexivity|]. intros _.
        destruct (survivesb_node_at _ _ _ Hs) as (n & Hn & Hge).
        rewrite Hat, Hn.
        destruct (prune_tree n T) eqn:E; [eauto|].
        apply prune_tree_None in E. lia.
      * rewrite Hat. split; [intros [x Hx]; discriminate | discriminate].
    + intros n' Hn'. rewrite Hat in Hn'.
      destruct (survivesb T t route); [|discriminate].
      destruct (node_at t route) as [n|] eqn:Hn; [|discriminate].
      exists n. repeat split; [|assumption].
      pose proof (wf_node_at t Hwf route n Hn) as Hwn.
      destruct (prune_tree_Some _ _ _ Hwn Hn') as [_ ->]. reflexivity.
  - intros t' route n Hp Hn Hs Hall.
    rewrite (prune_node_at T t Hwf t' route Hp), Hs, Hn.
    destruct (survivesb_node_at _ _ _ Hs) as (n0 & Hn0 & Hge).
    rewrite Hn in Hn0. injection Hn0 as <-.
    destruct (prune_tree n T) as [n'|] eqn:E.
    + pose proof (wf_node_at t Hwf route n Hn) as Hwn.
      destruct (prune_tree_Some _ _ _ Hwn E) as [_ ->].
      now rewrite assigned_prune_all_below.
    + apply prune_tree_None in E. lia.
  - intros t'. now apply prune_tree_idempotent.
Qed.

Lemma prune_tree_spec_witness :
  prune_tree (built prune_demo_seqs) 2
  = Some (mkNode 3 [("/", mkNode 3 [("a", mkNode 2 [("*.txt", mkNode 2 [])])])])
  /\ prune_tree
       (mkNode 3 [("/", mkNode 3 [("a", mkNode 2 [("*.txt", mkNode 2 [])])])]) 2
     = Some (mkNode 3 [("/", mkNode 3 [("a", mkNode 2 [("*.txt", mkNode 2 [])])])]).
Proof.
  split; [reflexivity|].
  apply (proj2 (proj2 (proj2 (prune_tree_spec prune_demo_seqs 2)))).
  reflexivity.
Defined.

(** ** Chain collapsing *)

Lemma append_cons (x : ascii) (a b : string) :
  String x a +:+ b = String x (a +:+ b).
Proof. reflexivity. Qed.

Lemma append_nil_l (b : string) : "" +:+ b = b.
Proof. reflexivity. Qed.

Lemma append_assoc (a b c : string) : (a +:+ b) +:+ c = a +:+ b +:+ c.
Proof.
  induction a as [|x a IH]; [reflexivity|].
  rewrite !append_cons. now rewrite IH.
Qed.

Lemma append_nil_r (a : string) : a +:+ "" = a.
Proof.
  induction a as [|x a IH]; [reflexivity|].
  rewrite append_cons. now rewrite IH.
Qed.

Lemma distinct_NoDup (l : list string) : distinct l = true <-> List.NoDup l.
Proof.
  induction l as [|x l IH]; simpl.
  - split; [constructor | reflexivity].
  - rewrite andb_true_iff, negb_true_iff, IH, NoDup_cons_iff.
    assert (H : existsb (String.eqb x) l = false <-> ~ In x l).
    { destruct (existsb (String.eqb x) l) eqn:E.
      - apply existsb_exists in E as (y & Hy & Hxy).
        apply String.eqb_eq in Hxy as <-. split; [discriminate | tauto].
      - split; [|reflexivity]. intros _ Hin.
        assert (Hex : existsb (String.eqb x) l = true).
        { apply existsb_exists. exists x. split; [assumption|].
          apply String.eqb_refl. }
        congruence. }
    now rewrite H.
Qed.

(** Plain names followed by chain suffixes are equal only when the plain
    names are. *)
Lemma plain_prefix_inj (k1 k2 s1 s2 : string) :
  Str.contains "/" k1 = false -> Str.contains "/" k2 = false ->
  chain_suffix s1 = true -> chain_suffix s2 = true ->
  k1 +:+ s1 = k2 +:+ s2 -> k1 = k2.
Proof.
  revert k2. induction k1 as [|c k1 IH]; intros [|d k2] H1 H2 Hs1 Hs2 E;
    rewrite ?append_cons, ?append_nil_l in E; simpl in *.
  - reflexivity.
  - subst s1. simpl in Hs1. now rewrite Hs1 in H2.
  - subst s2. simpl in Hs2. now rewrite Hs2 in H1.
  - injection E as -> E.
    destruct (Ascii.eqb d "/"); [discriminate|].
    f_equal. now apply (IH k2).
Qed.

Lemma collapse_chains_single (name : string) (cnt : Z) (k : string) (c : Node) :
  collapse_chains name (mkNode cnt [(k, c)])
  = collapse_chains (if Str.nonempty name then name +:+ "/" +:+ k else k) c.
Proof. reflexivity. Qed.

Lemma collapse_chains_branch (name : string) (cnt : Z) (chs : dict Node) :
  length chs <> 1%nat ->
  collapse_chains name (mkNode cnt chs)
  = (name, mkNode cnt (dict_build collapse_child chs [])).
Proof.
  intros H. destruct chs as [|[k c] [|y l]];
    [reflexivity | exfalso; now apply H | reflexivity].
Qed.

(** Without the assumption on [f]: distinct assigned keys suffice. *)
Lemma dict_build_append {A B} (f : string -> A -> option (string * B))
    (items : list (string * A)) :
  forall acc : dict B,
    List.NoDup (keys acc ++ keys (assigned f items)) ->
    dict_build f items acc = (acc ++ assigned f items)%list.
Proof.
  induction items as [|[k v] items IH]; intros acc Hnd;
    cbn [dict_build assigned] in *.
  - symmetry. apply app_nil_r.
  - destruct (f k v) as [[k2 v2]|]; [|now apply IH].
    cbn [keys map fst] in Hnd.
    assert (Hk2 : ~ In k2 (keys acc)).
    { apply NoDup_remove_2 in Hnd. rewrite in_app_iff in Hnd. tauto. }
    rewrite IH.
    + rewrite dict_set_fresh by assumption. now rewrite <- app_assoc.
    + rewrite keys_dict_set_fresh by assumption. now rewrite <- app_assoc.
Qed.

Lemma assigned_collapse (chs : dict Node) :
  assigned collapse_child chs
  = map (fun kc => collapse_chains kc.1 kc.2) chs.
Proof.
  induction chs as [|[k c] chs IH]; [reflexivity|].
  cbn [assigned map collapse_child fst snd]. now rewrite IH.
Qed.

(** A tree without single-child nodes is left as it is. *)
Lemma collapse_chains_fixed (t : Node) :
  wf t -> collapsed t = true ->
  forall name, collapse_chains name t = (name, t).
Proof.
  induction t as [cnt chs IH] using Node_ind. intros Hwf Hc name.
  destruct (wf_inv _ Hwf) as [Hnd Hall]. cbn [children] in Hnd, Hall.
  cbn [collapsed] in Hc. apply andb_true_iff in Hc as [Hlen Hcs].
  apply negb_true_iff, Nat.eqb_neq in Hlen.
  rewrite collapse_chains_branch by assumption.
  assert (Hmap : map (fun kc => collapse_chains kc.1 kc.2) chs = chs).
  { transitivity (map (fun kc : string * Node => kc) chs); [|apply map_id].
    apply map_ext_in. intros [k c] Hin. cbn [fst snd].
    rewrite forallb_forall in Hcs. rewrite Forall_forall in IH, Hall.
    apply list_elem_of_In in Hin as Hel.
    apply (IH (k, c) Hel); [apply (Hall (k, c) Hel) | apply (Hcs (k, c) Hin)]. }
  rewrite dict_build_append; rewrite assigned_collapse, Hmap; [reflexivity|].
  assumption.
Qed.

Lemma plain_inv (cnt : Z) (chs : dict Node) :
  plain (mkNode cnt chs) = true ->
  List.NoDup (keys chs)
  /\ forall k c, In (k, c) chs ->
       Str.nonempty k = true /\ Str.contains "/" k = false /\ plain c = true.
Proof.
  cbn [plain]. intros H. apply andb_true_iff in H as [Hd Hall].
  split; [now apply distinct_NoDup|].
  intros k c Hin. rewrite forallb_forall in Hall.
  specialize (Hall (k, c) Hin). cbn [fst snd] in Hall. unfold plain_name in Hall.
  apply andb_true_iff in Hall as [Hn Hp].
  apply andb_true_iff in Hn as [Hn Hs]. apply negb_true_iff in Hs. auto.
Qed.

(** Collapsed siblings keep distinct names. *)
Lemma collapsed_keys_NoDup (chs : dict Node) :
  List.NoDup (keys chs) ->
  (forall k c, In (k, c) chs ->
     Str.contains "/" k = false
     /\ exists sfx, chain_suffix sfx = true
                    /\ (collapse_chains k c).1 = k +:+ sfx) ->
  List.NoDup (keys (map (fun kc => collapse_chains kc.1 kc.2) chs)).
Proof.
  induction chs as [|[k c] chs IH]; intros Hnd Hall; [constructor|].
  cbn [keys map fst snd] in *. apply NoDup_cons_iff in Hnd as [Hk Hnd].
  constructor.
  - intros Hin. apply in_map_iff in Hin as ([n2 t2] & E & Hin).
    apply in_map_iff in Hin as ([k2 c2] & E2 & Hin). cbn [fst snd] in *.
    destruct (Hall k c (or_introl eq_refl)) as (Hs & sfx & Hsfx & Hname).
    destruct (Hall k2 c2 (or_intror Hin)) as (Hs2 & sfx2 & Hsfx2 & Hname2).
    rewrite E2 in Hname2. cbn [fst] in Hname2. subst n2.
    rewrite Hname in Hname2.
    apply plain_prefix_inj in Hname2; try assumption. subst k2.
    apply Hk. change k with (fst (k, c2)). now apply in_map.
  - apply IH; [assumption|]. intros k2 c2 Hin. apply Hall. now right.
Qed.

Lemma nonempty_append (a b : string) :
  Str.nonempty a = true -> Str.nonempty (a +:+ b) = true.
Proof. destruct a; [discriminate | reflexivity]. Qed.

Lemma collapse_chains_plain (t : Node) :
  plain t = true ->
  forall name, Str.nonempty name = true -> collapse_ok name t.
Proof.
  induction t as [cnt chs IH] using Node_ind. intros Hp name Hname.
  destruct (plain_inv _ _ Hp) as [Hnd Hall].
  destruct (Nat.eq_dec (length chs) 1%nat) as [Hone|Hmany].
  - destruct chs as [|[k c] [|y l]]; try discriminate Hone.
    unfold collapse_ok. rewrite collapse_chains_single, Hname.
    destruct (Hall k c (or_introl eq_refl)) as (_ & _ & Hpc).
    apply Forall_inv in IH. cbn [snd] in IH.
    destruct (IH Hpc (name +:+ "/" +:+ k) (nonempty_append _ _ Hname))
      as ((sfx & Hsfx & E) & Hw & Hc).
    split; [|split; assumption].
    exists ("/" +:+ k +:+ sfx). split; [reflexivity|].
    rewrite E. now rewrite !append_assoc.
  - unfold collapse_ok. rewrite collapse_chains_branch by assumption.
    cbn [fst snd].
    assert (Hch : forall k c, In (k, c) chs -> collapse_ok k c).
    { intros k c Hin. destruct (Hall k c Hin) as (Hn & _ & Hpc).
      rewrite Forall_forall in IH. apply list_elem_of_In in Hin.
      exact (IH (k, c) Hin Hpc k Hn). }
    assert (Hk : List.NoDup (keys (assigned collapse_child chs))).
    { rewrite assigned_collapse. apply collapsed_keys_NoDup; [assumption|].
      intros k c Hin. split; [apply (Hall k c Hin)|apply (Hch k c Hin)]. }
    rewrite dict_build_append by exact Hk. cbn [app].
    split; [exists ""; split; [reflexivity | now rewrite append_nil_r]|].
    split.
    + constructor; [assumption|]. rewrite assigned_collapse.
      apply Forall_forall. intros x Hx. apply list_elem_of_In in Hx.
      apply in_map_iff in Hx as ([k c] & <- & Hin). apply (Hch k c Hin).
    + cbn [collapsed]. rewrite assigned_collapse, length_map.
      apply andb_true_iff. split.
      * now apply negb_true_iff, Nat.eqb_neq.
      * apply forallb_forall. intros x Hx.
        apply in_map_iff in Hx as ([k c] & <- & Hin). apply (Hch k c Hin).
Qed.

(** Collapsing what [collapse_chains] returned changes nothing. *)
Lemma collapse_chains_idempotent (name : string) (t : Node) :
  plain t = true -> Str.nonempty name = true ->
  collapse_chains (collapse_chains name t).1 (collapse_chains name t).2
  = collapse_chains name t.
Proof.
  intros Hp Hn. destruct (collapse_chains_plain t Hp name Hn) as (_ & Hw & Hc).
  rewrite collapse_chains_fixed by assumption.
  now destruct (collapse_chains name t).
Qed.

(** C6: for a chain [A -> B -> C] of single children where [C] has two
    children, [collapse_chains] on [(a, A)] gives one node named [a/b/c]
    with the count of [C] and with the collapsed children of [C], and
    collapsing that result again gives it back unchanged. The name [a] is
    not empty and the children of [C] are plain subtrees, as everywhere
    below the root marker of a built trie. *)
Theorem collapse_chains_chain (a b c k1 k2 : string) (ca cb cc : Z)
    (t1 t2 : Node) :
  Str.nonempty a = true ->
  plain (mkNode cc [(k1, t1); (k2, t2)]) = true ->
  collapse_chains a
    (mkNode ca [(b, mkNode cb [(c, mkNode cc [(k1, t1); (k2, t2)])])])
  = (a +:+ "/" +:+ b +:+ "/" +:+ c,
     mkNode cc [collapse_chains k1 t1; collapse_chains k2 t2])
  /\ collapse_chains (a +:+ "/" +:+ b +:+ "/" +:+ c)
       (mkNode cc [collapse_chains k1 t1; collapse_chains k2 t2])
     = (a +:+ "/" +:+ b +:+ "/" +:+ c,
        mkNode cc [collapse_chains k1 t1; collapse_chains k2 t2]).
Proof.
  intros Ha Hp.
  set (C := mkNode cc [(k1, t1); (k2, t2)]) in *.
  assert (Hn : Str.nonempty ((a +:+ "/" +:+ b) +:+ "/" +:+ c) = true)
    by (do 2 apply nonempty_append; exact Ha).
  destruct (collapse_chains_plain C Hp _ Hn) as (_ & Hw & Hc).
  assert (E : collapse_chains ((a +:+ "/" +:+ b) +:+ "/" +:+ c) C
              = (a +:+ "/" +:+ b +:+ "/" +:+ c,
                 mkNode cc [collapse_chains k1 t1; collapse_chains k2 t2])).
  { unfold C. rewrite collapse_chains_branch by (cbn; lia).
    destruct (plain_inv _ _ Hp) as [Hnd Hall].
    rewrite dict_build_append; rewrite assigned_collapse.
    - cbn [map fst snd app]. now rewrite !append_assoc.
    - apply collapsed_keys_NoDup; [assumption|].
      intros k n Hin. destruct (Hall k n Hin) as (Hk & Hs & Hpn).
      split; [assumption|]. apply (collapse_chains_plain n Hpn k Hk). }
  rewrite !collapse_chains_single, Ha, (nonempty_append a ("/" +:+ b) Ha).
  rewrite E in Hw, Hc. cbn [snd] in Hw, Hc.
  split; [exact E|]. now apply collapse_chains_fixed.
Qed.

Lemma collapse_chains_chain_witness :
  collapse_chains "usr"
    (mkNode 7 [("share", mkNode 7 [("doc", mkNode 7
       [("*.txt", mkNode 4 []); ("man", mkNode 3 [("*.gz", mkNode 3 [])])])])])
  = ("usr/share/doc",
     mkNode 7 [("*.txt", mkNode 4 []); ("man/*.gz", mkNode 3 [])])
  /\ collapse_chains "usr/share/doc"
       (mkNode 7 [("*.txt", mkNode 4 []); ("man/*.gz", mkNode 3 [])])
     = ("usr/share/doc",
        mkNode 7 [("*.txt", mkNode 4 []); ("man/*.gz", mkNode 3 [])]).
Proof.
  exact (collapse_chains_chain "usr" "share" "doc" "*.txt" "man" 7 7 7
           (mkNode 4 []) (mkNode 3 [("*.gz", mkNode 3 [])])
           eq_refl eq_refl).
Defined.

(** ** Child ordering *)

(** Stable insertion sort gives a sorted permutation for any total and
    transitive comparison. *)
Section SortedFacts.
Context {A K : Type} (key : A -> K) (leb : K -> K -> bool).

Let le (a b : A) : Prop := leb (key a) (key b) = true.

Hypothesis leb_total : forall x y, leb x y = true \/ leb y x = true.
Hypothesis leb_trans :
  forall x y z, leb x y = true -> leb y z = true -> leb x z = true.

Lemma insert_sorted_perm (x : A) (l : list A) :
  Permutation (insert_sorted key leb x l) (x :: l).
Proof.
  induction l as [|y l IH]; simpl; [reflexivity|].
  destruct (leb (key x) (key y)); [reflexivity|].
  rewrite IH. apply perm_swap.
Qed.

Lemma sorted_perm (l : list A) : Permutation (sorted key leb l) l.
Proof.
  induction l as [|x l IH]; simpl; [reflexivity|].
  rewrite insert_sorted_perm. now rewrite IH.
Qed.

Lemma insert_sorted_sorted (x : A) (l : list A) :
  StronglySorted le l -> StronglySorted le (insert_sorted key leb x l).
Proof.
  induction 1 as [|y l Hs IH Hy]; simpl.
  - constructor; constructor.
  - destruct (leb (key x) (key y)) eqn:E.
    + constructor; [now constructor|]. constructor; [exact E|].
      eapply Forall_impl; [exact Hy|]. intros z Hz. unfold le in *.
      eapply leb_trans; eassumption.
    + constructor; [exact IH|].
      assert (Hyx : le y x).
      { unfold le. destruct (leb_total (key x) (key y)); congruence. }
      rewrite Forall_forall in *. intros z Hz.
      apply list_elem_of_In in Hz.
      apply (Permutation_in _ (insert_sorted_perm x l)) in Hz.
      destruct Hz as [<-|Hz]; [exact Hyx|].
      apply Hy. now apply list_elem_of_In.
Qed.

Lemma sorted_sorted (l : list A) : StronglySorted le (sorted key leb l).
Proof.
  induction l as [|x l IH]; simpl; [constructor|].
  now apply insert_sorted_sorted.
Qed.
End SortedFacts.

(** Two strongly sorted arrangements of the same elements are equal when
    the order never holds both ways. *)
Lemma sorted_unique {A} (R : A -> A -> Prop) :
  (forall a b, R a b -> R b a -> False) ->
  forall l1 l2 : list A,
    Permutation l1 l2 -> StronglySorted R l1 -> StronglySorted R l2 -> l1 = l2.
Proof.
  intros Hasym. induction l1 as [|x l1 IH]; intros l2 Hp H1 H2.
  - apply Permutation_nil in Hp. now subst.
  - destruct l2 as [|y l2].
    { apply Permutation_sym, Permutation_nil in Hp. discriminate. }
    apply StronglySorted_inv in H1 as [H1 Hx].
    apply StronglySorted_inv in H2 as [H2 Hy].
    rewrite Forall_forall in Hx, Hy.
    assert (Hxy : x = y).
    { assert (Hin : In y (x :: l1))
        by (eapply Permutation_in; [symmetry; exact Hp | now left]).
      assert (Hin' : In x (y :: l2))
        by (eapply Permutation_in; [exact Hp | now left]).
      destruct Hin as [E|Hin]; [exact E|].
      destruct Hin' as [E|Hin']; [now symmetry|].
      exfalso. apply (Hasym x y).
      - apply Hx. now apply list_elem_of_In.
      - apply Hy. now apply list_elem_of_In. }
    subst y. f_equal. apply IH; [|assumption..].
    now apply Permutation_cons_inv in Hp.
Qed.

(** The order of the sort keys is a total order. *)
Lemma string_compare_refl (x : string) : String.compare x x = Eq.
Proof.
  pose proof (String.compare_antisym x x) as H.
  destruct (String.compare x x); (reflexivity || discriminate).
Qed.

Lemma string_compare_trans (x y z : string) :
  String.compare x y = Lt -> String.compare y z = Lt -> String.compare x z = Lt.
Proof.
  intros H1 H2.
  exact (@StrictOrder_Transitive _ _ String_as_OT.lt_strorder x y z H1 H2).
Qed.

Lemma key_compare_antisym (a b : bool * Z * string) :
  key_compare b a = CompOpp (key_compare a b).
Proof.
  destruct a as [[l1 z1] s1], b as [[l2 z2] s2]. unfold key_compare.
  cbn [fst snd]. rewrite (Z.compare_antisym z1 z2), (String.compare_antisym s2 s1).
  destruct l1, l2; cbn; try reflexivity;
    destruct (z1 ?= z2); cbn; try reflexivity;
    destruct (String.compare s1 s2); reflexivity.
Qed.

Lemma key_compare_eq (a b : bool * Z * string) :
  key_compare a b = Eq -> a = b.
Proof.
  destruct a as [[l1 z1] s1], b as [[l2 z2] s2]. unfold key_compare.
  cbn [fst snd]. destruct l1, l2; cbn; try discriminate;
    destruct (z1 ?= z2) eqn:Ez; try discriminate;
    intros Es; apply Z.compare_eq in Ez; apply String.compare_eq_iff in Es;
    congruence.
Qed.

Lemma key_compare_refl (a : bool * Z * string) : key_compare a a = Eq.
Proof.
  destruct a as [[l z] s]. unfold key_compare. cbn [fst snd].
  rewrite Z.compare_refl, string_compare_refl. now destruct l.
Qed.

Lemma key_compare_trans (a b c : bool * Z * string) :
  key_compare a b = Lt -> key_compare b c = Lt -> key_compare a c = Lt.
Proof.
  destruct a as [[l1 z1] s1], b as [[l2 z2] s2], c as [[l3 z3] s3].
  unfold key_compare. cbn [fst snd].
  destruct l1, l2, l3; cbn; try discriminate; try reflexivity;
    destruct (Z.compare_spec z1 z2), (Z.compare_spec z2 z3),
      (Z.compare_spec z1 z3);
    try discriminate; try reflexivity; try lia;
    apply string_compare_trans.
Qed.

Lemma key_leb_cases (a b : bool * Z * string) :
  key_leb a b = true <-> key_compare a b = Lt \/ a = b.
Proof.
  unfold key_leb. split.
  - destruct (key_compare a b) eqn:E; try discriminate; intros _.
    + right. now apply key_compare_eq.
    + now left.
  - intros [->| ->]; [reflexivity|]. now rewrite key_compare_refl.
Qed.

Lemma key_leb_total (a b : bool * Z * string) :
  key_leb a b = true \/ key_leb b a = true.
Proof.
  unfold key_leb. rewrite (key_compare_antisym a b).
  destruct (key_compare a b); cbn; auto.
Qed.

Lemma key_leb_trans (a b c : bool * Z * string) :
  key_leb a b = true -> key_leb b c = true -> key_leb a c = true.
Proof.
  rewrite !key_leb_cases. intros [H1| ->] [H2| ->]; auto.
  left. eapply key_compare_trans; eassumption.
Qed.

Lemma child_before_key (a b : string * Node) :
  child_before a b <-> key_compare (sort_key a) (sort_key b) = Lt.
Proof.
  unfold child_before, sort_key, key_compare, String.ltb. cbn [fst snd].
  destruct (is_leaf_name a.1), (is_leaf_name b.1); cbn;
    destruct (Z.compare_spec (- count a.2) (- count b.2));
    destruct (String.compare a.1 b.1);
    intuition (try discriminate; try lia).
Qed.

Lemma child_before_irrefl (a : string * Node) : ~ child_before a a.
Proof. rewrite child_before_key, key_compare_refl. discriminate. Qed.

Lemma child_before_trans (a b c : string * Node) :
  child_before a b -> child_before b c -> child_before a c.
Proof. rewrite !child_before_key. apply key_compare_trans. Qed.

Lemma child_before_total (a b : string * Node) :
  a.1 <> b.1 -> child_before a b \/ child_before b a.
Proof.
  intros Hne. rewrite !child_before_key.
  rewrite (key_compare_antisym (sort_key a) (sort_key b)).
  destruct (key_compare (sort_key a) (sort_key b)) eqn:E; cbn; auto.
  apply key_compare_eq in E. unfold sort_key in E. congruence.
Qed.

Lemma sorted_children_perm (node : Node) :
  Permutation (sorted_children node) (children node).
Proof. apply sorted_perm. Qed.

Lemma sorted_children_sorted (node : Node) :
  List.NoDup (keys (children node)) ->
  StronglySorted child_before (sorted_children node).
Proof.
  intros Hnd.
  assert (Hk : List.NoDup (keys (sorted_children node))).
  { eapply Permutation_NoDup; [|exact Hnd].
    apply Permutation_map. symmetry. apply sorted_children_perm. }
  pose proof (sorted_sorted sort_key key_leb key_leb_total key_leb_trans
                (children node)) as Hs.
  fold (sorted_children node) in Hs.
  induction Hs as [|x l Hs IH Hx]; [constructor|].
  cbn [keys map] in Hk. apply NoDup_cons_iff in Hk as [Hxl Hk].
  constructor; [now apply IH|].
  rewrite Forall_forall in *. intros y Hy. specialize (Hx y Hy).
  apply key_leb_cases in Hx as [Hx|Hx]; [now apply child_before_key|].
  exfalso. apply Hxl. unfold sort_key in Hx.
  replace x.1 with y.1 by congruence.
  apply in_map. now apply list_elem_of_In.
Qed.

(** C7: [sorted_children] arranges the children by a strict total order:
    entries that are not leaf-shaped first, then larger counts first, then
    smaller names first. The order is irreflexive, transitive and decides
    any two entries with different names; the result is a permutation of
    the children in which every entry comes before all later ones, and it
    is the only such arrangement, ties in the counts included. *)
Theorem sorted_children_order (node : Node) :
  (forall a, ~ child_before a a)
  /\ (forall a b c, child_before a b -> child_before b c -> child_before a c)
  /\ (forall a b, a.1 <> b.1 -> child_before a b \/ child_before b a)
  /\ Permutation (sorted_children node) (children node)
  /\ (List.NoDup (keys (children node)) ->
      StronglySorted child_before (sorted_children node)
      /\ forall l, Permutation l (children node) ->
                   StronglySorted child_before l ->
                   l = sorted_children node).
Proof.
  split; [exact child_before_irrefl|].
  split; [exact child_before_trans|].
  split; [exact child_before_total|].
  split; [apply sorted_children_perm|].
  intros Hnd. pose proof (sorted_children_sorted node Hnd) as Hs.
  split; [exact Hs|]. intros l Hp Hl.
  apply (sorted_unique child_before); [| |assumption..].
  - intros a b Hab Hba.
    exact (child_before_irrefl a (child_before_trans a b a Hab Hba)).
  - rewrite Hp. symmetry. apply sorted_children_perm.
Qed.

Example sorted_children_tie :
  sorted_children tie_node
  = [("a", mkNode 2 []); ("b", mkNode 2 []); ("*", mkNode 5 []);
     ("*.x", mkNode 5 [])].
Proof. reflexivity. Qed.

Lemma sorted_children_order_witness :
  List.NoDup (keys (children tie_node))
  /\ StronglySorted child_before (sorted_children tie_node).
Proof.
  assert (H : List.NoDup (keys (children tie_node))).
  { apply distinct_NoDup. reflexivity. }
  split; [exact H|].
  exact (proj1 (proj2 (proj2 (proj2 (proj2 (sorted_children_order tie_node)))) H)).
Defined.

(** ** The two renderers *)

Lemma flat_map_enumerate {A B} (g : A -> list B) (items : list A) :
  forall a : nat,
    flat_map (fun ikv : nat * A => g ikv.2)
      (combine (seq a (length items)) items)
    = flat_map g items.
Proof.
  induction items as [|x items IH]; intros a; [reflexivity|].
  cbn [length seq combine flat_map snd]. now rewrite IH.
Qed.

Lemma map_flat_map {A B C} (h : B -> C) (g : A -> list B) (l : list A) :
  map h (flat_map g l) = flat_map (fun x => map h (g x)) l.
Proof.
  induction l as [|x l IH]; [reflexivity|].
  cbn [flat_map]. now rewrite map_app, IH.
Qed.

Lemma flat_map_of_map {A B C} (g : B -> list C) (h : A -> B) (l : list A) :
  flat_map g (map h l) = flat_map (fun x => g (h x)) l.
Proof.
  induction l as [|x l IH]; [reflexivity|].
  cbn [map flat_map]. now rewrite IH.
Qed.

Lemma flat_map_ext_in {A B} (f g : A -> list B) (l : list A) :
  (forall x, In x l -> f x = g x) -> flat_map f l = flat_map g l.
Proof.
  induction l as [|x l IH]; intros H; [reflexivity|].
  cbn [flat_map]. rewrite (H x) by now left.
  rewrite IH; [reflexivity|]. intros y Hy. apply H. now right.
Qed.

Section RenderFacts.
Variables (max_depth top : Z) (tee corner pipe dash : string).

Let text := _print max_depth top tee corner pipe dash.
Let slice := json_slice max_depth top.

Lemma _print_S (fuel : nat) (node : Node) (prefix : string) (depth : Z) :
  text (S fuel) node prefix depth
  = let items := shown_children top node in
    flat_map
      (fun ikv : nat * (string * Node) =>
         let is_last := Nat.eqb ikv.1 (length items - 1) in
         let line :=
           mkLine prefix (if is_last then corner else tee) ikv.2.1
             (count ikv.2.2) (depth + 1) in
         if negb (max_depth =? 0) && (depth + 1 >=? max_depth)
         then [line]
         else line :: text fuel ikv.2.2
                        (prefix +:+ (if is_last then dash else pipe))
                        (depth + 1))
      (combine (seq 0 (length items)) items).
Proof. reflexivity. Qed.

Lemma json_slice_S (fuel : nat) (name : string) (node : Node) (depth : Z) :
  slice (S fuel) name node depth
  = if negb (max_depth =? 0) && (depth >=? max_depth)
    then JObj name (count node) []
    else JObj name (count node)
           (map (fun kv => slice fuel kv.1 kv.2 (depth + 1))
              (shown_children top node)).
Proof. reflexivity. Qed.

(** The lines printed below a node are about the nodes of the JSON
    objects of its shown children, in the same order and at the same
    depths. *)
Lemma _print_json_slice (fuel : nat) :
  forall (node : Node) (prefix : string) (depth : Z),
    map line_node (text (S fuel) node prefix depth)
    = flat_map
        (fun kv => json_nodes (depth + 1) (slice fuel kv.1 kv.2 (depth + 1)))
        (shown_children top node).
Proof.
  induction fuel as [|fuel IH]; intros node prefix depth;
    rewrite _print_S; cbv zeta; rewrite map_flat_map;
    rewrite <- (flat_map_enumerate _ (shown_children top node) 0);
    apply flat_map_ext; intros [i [name child]]; cbn [fst snd].
  - now destruct (negb (max_depth =? 0) && (depth + 1 >=? max_depth)).
  - rewrite json_slice_S.
    destruct (negb (max_depth =? 0) && (depth + 1 >=? max_depth));
      [reflexivity|].
    cbn [map json_nodes]. unfold line_node at 1. cbn [l_depth l_name l_count].
    f_equal. rewrite IH. now rewrite flat_map_of_map.
Qed.

(** *** The fuel of the renderers is enough *)

Lemma height_child (node : Node) (k : string) (c : Node) :
  In (k, c) (children node) -> (height c < height node)%nat.
Proof.
  destruct node as [cnt chs]. cbn [children height]. intros Hin.
  apply Nat.lt_succ_r.
  assert (H : In (height c) (map (fun kc : string * Node => height kc.2) chs)).
  { change (height c) with ((fun kc : string * Node => height kc.2) (k, c)).
    now apply in_map. }
  generalize dependent (map (fun kc : string * Node => height kc.2) chs).
  induction l as [|x l IH]; intros H; [destruct H|].
  cbn [list_max fold_right]. destruct H as [->|H]; [lia|].
  specialize (IH H). unfold list_max in IH. lia.
Qed.

Lemma firstn_In {A} (n : nat) :
  forall (items : list A) (x : A), In x (firstn n items) -> In x items.
Proof.
  induction n as [|n IH]; intros [|y items] x; cbn [firstn In];
    [tauto | tauto | tauto |].
  intros [->|Hx]; [now left | right; now apply IH].
Qed.

Lemma slice_to_In {A} (items : list A) (n : Z) (x : A) :
  In x (slice_to items n) -> In x items.
Proof. unfold slice_to. destruct (n <? 0); apply firstn_In. Qed.

Lemma shown_children_In (node : Node) (kv : string * Node) :
  In kv (shown_children top node) -> In kv (children node).
Proof.
  unfold shown_children. intros H.
  apply (Permutation_in _ (sorted_children_perm node)).
  destruct (negb (top =? 0) && _); [now apply slice_to_In in H | exact H].
Qed.

Lemma json_slice_fuel (fuel : nat) :
  forall (name : string) (node : Node) (depth : Z),
    (height node <= fuel)%nat ->
    slice (S fuel) name node depth = slice fuel name node depth.
Proof.
  induction fuel as [|fuel IH]; intros name node depth Hh.
  - destruct node. cbn [height] in Hh. lia.
  - rewrite (json_slice_S (S fuel)), (json_slice_S fuel).
    destruct (negb (max_depth =? 0) && (depth >=? max_depth)); [reflexivity|].
    f_equal. apply map_ext_in. intros [k c] Hin. cbn [fst snd].
    apply shown_children_In, height_child in Hin. apply IH. lia.
Qed.

Lemma _print_fuel (fuel : nat) :
  forall (node : Node) (prefix : string) (depth : Z),
    (height node <= fuel)%nat ->
    text (S fuel) node prefix depth = text fuel node prefix depth.
Proof.
  induction fuel as [|fuel IH]; intros node prefix depth Hh.
  - destruct node. cbn [height] in Hh. lia.
  - rewrite (_print_S (S fuel)), (_print_S fuel). cbv zeta.
    apply flat_map_ext_in. intros [i [k c]] Hin. cbn [fst snd].
    destruct (negb (max_depth =? 0) && (depth + 1 >=? max_depth));
      [reflexivity|].
    f_equal. apply in_combine_r in Hin.
    apply shown_children_In, height_child in Hin. apply IH. lia.
Qed.

(** More fuel than the height of the tree changes nothing. *)
Lemma json_slice_enough (extra : nat) (name : string) (node : Node) (depth : Z) :
  slice (extra + height node) name node depth
  = slice (height node) name node depth.
Proof.
  induction extra as [|extra IH]; [reflexivity|].
  cbn [Nat.add]. rewrite json_slice_fuel by lia. exact IH.
Qed.

Lemma _print_enough (extra : nat) (node : Node) (prefix : string) (depth : Z) :
  text (extra + height node) node prefix depth
  = text (height node) node prefix depth.
Proof.
  induction extra as [|extra IH]; [reflexivity|].
  cbn [Nat.add]. rewrite _print_fuel by lia. exact IH.
Qed.
End RenderFacts.

Lemma flat_map_singleton {A B} (g : A -> B) (l : list A) :
  flat_map (fun x => [g x]) l = map g l.
Proof.
  induction l as [|x l IH]; [reflexivity|].
  cbn [flat_map map app]. now rewrite IH.
Qed.

Lemma shown_children_top (top : Z) (node : Node) :
  0 < top ->
  shown_children top node = firstn (Z.to_nat top) (sorted_children node).
Proof.
  intros Htop. unfold shown_children, slice_to.
  replace (top =? 0) with false by (symmetry; apply Z.eqb_neq; lia).
  replace (top <? 0) with false by (symmetry; apply Z.ltb_ge; lia).
  cbn [negb andb].
  destruct (Z.gtb_spec (Z.of_nat (length (sorted_children node))) top);
    [reflexivity|].
  symmetry. apply firstn_all2. lia.
Qed.

(** ** Nothing to render *)

Lemma build_tree_no_paths (re_search : string -> string -> bool)
    (args : Args.t) (paths : list string) :
  List.filter (passes re_search args) paths = [] ->
  build_tree re_search args paths = new_node.
Proof.
  rewrite build_tree_fold. generalize new_node.
  induction paths as [|p paths IH]; intros t H; [reflexivity|].
  cbn [List.filter fold_left] in *.
  destruct (passes re_search args p); [discriminate|]. now apply IH.
Qed.

(** C9: when no path passes the inclusion filter, when the count of the
    root is below the threshold, or when the pruned root has no children,
    [main] returns normally and writes nothing: no line of a tree, no JSON
    document and no filter. *)
Theorem main_nothing_to_render (re_search : string -> string -> bool)
    (args : Args.t) (paths : list string) :
  List.filter (passes re_search args) paths = []
  \/ prune_tree (build_tree re_search args paths) (Args.min_count args) = None
  \/ (exists t,
        prune_tree (build_tree re_search args paths) (Args.min_count args)
        = Some t /\ children t = []) ->
  main re_search args paths = Some [].
Proof.
  intros [H|[H|(t & H & Hc)]]; unfold main.
  - rewrite (build_tree_no_paths _ _ _ H). unfold new_node.
    rewrite prune_tree_unfold. now destruct (0 <? Args.min_count args).
  - now rewrite H.
  - now rewrite H, Hc.
Qed.

Lemma main_nothing_to_render_witness :
  List.filter
    (passes (fun _ _ => false)
       (Args.mk false 1 0 0 "/usr" "" "" last false false false true all))
    ["/etc/passwd"; "/etc/fstab"] = []
  /\ main (fun _ _ => false)
       (Args.mk false 1 0 0 "/usr" "" "" last false false false true all)
       ["/etc/passwd"; "/etc/fstab"] = Some [].
Proof.
  split; [reflexivity|].
  apply main_nothing_to_render. left. reflexivity.
Defined.

(** ** Collapsing and the tree kept for filter derivation *)

(** C1: a render with collapsing changes the tree that the filter
    derivation reads afterwards. [print_tree] copies only the dictionary
    of the root; [collapse_chains] then assigns to the [children] of the
    node objects below it, which the pruned tree shares. On the pruned tree
    of [/etc/a.conf] and [/usr/b.txt] the node of the root marker ends up
    with the children [etc/*.conf] and [usr/*.txt]; [collect_filters] in
    [ext] mode gives the two filters before the render and none after it,
    and [main] with [--compact --emit-filter] writes no filter while
    without [--compact] it writes both. *)
Theorem print_tree_compact_changes_tree (re_search : string -> string -> bool) :
  prune_tree (build_tree re_search (two_dirs_args true) two_dirs_paths) 1
  = Some two_dirs_tree
  /\ (let '(root, s) := Store.alloc_tree two_dirs_tree [] in
      Store.snapshot (S (length s)) s root = Some two_dirs_tree
      /\ match Store.print_tree s root false true 0 0 true with
         | Some (_, s1) =>
             Store.snapshot (S (length s1)) s1 root = Some two_dirs_tree_after
         | None => False
         end
      /\ match Store.print_tree s root false true 0 0 false with
         | Some (_, s1) =>
             Store.snapshot (S (length s1)) s1 root = Some two_dirs_tree
         | None => False
         end)
  /\ two_dirs_tree_after <> two_dirs_tree
  /\ collect_filters ext two_dirs_tree [] = {[ "/etc/*.conf"; "/usr/*.txt" ]}
  /\ collect_filters ext two_dirs_tree_after [] = ∅
  /\ main re_search (two_dirs_args true) two_dirs_paths
     = Some [Stdout "/ [2]"; Stdout "└── / [2]";
             Stdout "    ├── etc/*.conf [1]"; Stdout "    └── usr/*.txt [1]"]
  /\ main re_search (two_dirs_args false) two_dirs_paths
     = Some [Stdout "/ [2]"; Stdout "└── / [2]"; Stdout "    ├── etc [1]";
             Stdout "    │   └── *.conf [1]"; Stdout "    └── usr [1]";
             Stdout "        └── *.txt [1]";
             Stderr "/etc/*.conf"; Stderr "/usr/*.txt"].
Proof.
  split; [reflexivity|].
  split; [vm_compute; repeat split; reflexivity|].
  split; [discriminate|].
  repeat split; vm_compute; reflexivity.
Qed.

(** ** Trees laid out in a store

    A located tree records, for every node of a tree, the location of its
    object. It describes a region of a store in which no object is shared
    when its locations are distinct. *)

Lemma erase_unfold (l : Store.loc) (cnt : Z) (chs : dict LNode) :
  erase (mkL l cnt chs) = mkNode cnt (map erase_item chs).
Proof. reflexivity. Qed.

Lemma holds_inv (s : Store.store) (l : Store.loc) (cnt : Z) (chs : dict LNode) :
  holds s (mkL l cnt chs) ->
  s !! l = Some (Store.mkObj cnt (map entry chs))
  /\ Forall (fun kc => holds s kc.2) chs.
Proof. intros H. inversion H; subst. auto. Qed.

Lemma in_dict_locs (d : dict LNode) (l : Store.loc) :
  In l (dict_locs d) <-> exists kc, In kc d /\ In l (all_locs kc.2).
Proof. unfold dict_locs. now rewrite in_flat_map. Qed.

(** A store that agrees on the locations of the tree holds it as well. *)
Lemma holds_frame (s s' : Store.store) (lt : LNode) :
  holds s lt ->
  (forall l, In l (all_locs lt) -> s' !! l = s !! l) ->
  holds s' lt.
Proof.
  induction lt as [l cnt chs IH] using LNode_ind. intros Hh Hs.
  apply holds_inv in Hh as [Hl Hc]. constructor.
  - rewrite Hs; [exact Hl | now left].
  - rewrite Forall_forall in *. intros kc Hkc.
    apply IH; [assumption | now apply Hc |].
    intros l' Hl'. apply Hs. cbn [all_locs]. right.
    apply in_dict_locs. exists kc. split; [|assumption].
    now apply list_elem_of_In.
Qed.

Lemma holds_locs_lt (s : Store.store) (lt : LNode) :
  holds s lt -> forall l, In l (all_locs lt) -> (l < length s)%nat.
Proof.
  induction lt as [l cnt chs IH] using LNode_ind. intros Hh l' Hl'.
  apply holds_inv in Hh as [Hl Hc]. destruct Hl' as [<-|Hl'].
  - now apply lookup_lt_Some in Hl.
  - apply in_dict_locs in Hl' as (kc & Hkc & Hl').
    apply list_elem_of_In in Hkc. rewrite Forall_forall in *.
    exact (IH kc Hkc (Hc kc Hkc) l' Hl').
Qed.

Lemma holds_app (s new : Store.store) (lt : LNode) :
  holds s lt -> holds (s ++ new)%list lt.
Proof.
  intros Hh. apply (holds_frame s); [assumption|].
  intros l Hl. apply lookup_app_l. now apply (holds_locs_lt s lt).
Qed.

Lemma height_unfold (cnt : Z) (chs : dict Node) :
  height (mkNode cnt chs)
  = S (list_max (map (fun kc : string * Node => height kc.2) chs)).
Proof. reflexivity. Qed.

(** A traversal with enough fuel reads the tree back. *)
Lemma snapshot_holds (s : Store.store) (lt : LNode) :
  holds s lt ->
  forall fuel, (height (erase lt) <= fuel)%nat ->
    Store.snapshot fuel s (ln_loc lt) = Some (erase lt).
Proof.
  induction lt as [l cnt chs IH] using LNode_ind. intros Hh fuel Hf.
  apply holds_inv in Hh as [Hl Hc].
  destruct fuel as [|fuel]; [rewrite erase_unfold, height_unfold in Hf; lia|].
  cbn [Store.snapshot ln_loc]. rewrite Hl. cbn [mbind option_bind Store.o_children Store.o_count].
  assert (Hm : mapM (fun kl : string * Store.loc =>
                       c ← Store.snapshot fuel s kl.2; Some (kl.1, c))
                 (map entry chs) = Some (map erase_item chs)).
  { apply mapM_Some. apply Forall2_fmap. apply Forall2_same_length_lookup_2.
    - reflexivity.
    - intros i kc kc' Hi Hi'. rewrite Hi in Hi'. injection Hi' as <-.
      apply list_elem_of_lookup_2 in Hi. rewrite Forall_forall in IH, Hc.
      unfold entry, erase_item. cbn [fst snd].
      rewrite (IH kc Hi (Hc kc Hi)); [reflexivity|].
      apply list_elem_of_In in Hi.
      assert (Hin : In (kc.1, erase kc.2) (children (erase (mkL l cnt chs)))).
      { rewrite erase_unfold. cbn [children].
        change (kc.1, erase kc.2) with (erase_item kc). now apply in_map. }
      apply height_child in Hin. lia. }
  rewrite Hm. reflexivity.
Qed.

Lemma NoDup_app_intro {A} (l1 l2 : list A) :
  List.NoDup l1 -> List.NoDup l2 -> (forall x, In x l1 -> ~ In x l2) ->
  List.NoDup (l1 ++ l2).
Proof.
  induction l1 as [|x l1 IH]; intros H1 H2 Hd; [exact H2|].
  apply NoDup_cons_iff in H1 as [Hx H1]. cbn [app]. constructor.
  - rewrite in_app_iff. intros [H|H]; [contradiction|].
    apply (Hd x); [now left | exact H].
  - apply IH; [assumption..|]. intros y Hy. apply Hd. now right.
Qed.

Lemma holds_children_locs_lt (s : Store.store) (chs : dict LNode) :
  Forall (fun kc => holds s kc.2) chs ->
  forall l, In l (dict_locs chs) -> (l < length s)%nat.
Proof.
  intros Hc l Hl. apply in_dict_locs in Hl as (kc & Hkc & Hl).
  rewrite Forall_forall in Hc. apply list_elem_of_In in Hkc.
  exact (holds_locs_lt s kc.2 (Hc kc Hkc) l Hl).
Qed.

(** [alloc_tree] lays the tree out after the objects that exist, without
    sharing. *)
Lemma alloc_tree_spec (t : Node) :
  forall s : Store.store,
    exists lt new,
      Store.alloc_tree t s = (ln_loc lt, (s ++ new)%list)
      /\ erase lt = t
      /\ holds (s ++ new)%list lt
      /\ List.NoDup (all_locs lt)
      /\ (forall l, In l (all_locs lt) -> (length s <= l)%nat).
Proof.
  induction t as [cnt chs IH] using Node_ind. intros s.
  assert (Hitems : forall s : Store.store,
            exists lchs new,
              Store.alloc_items Store.alloc_tree chs s
              = (map entry lchs, (s ++ new)%list)
              /\ map erase_item lchs = chs
              /\ Forall (fun kc => holds (s ++ new)%list kc.2) lchs
              /\ List.NoDup (dict_locs lchs)
              /\ (forall l, In l (dict_locs lchs) -> (length s <= l)%nat)).
  { clear s. induction chs as [|[k c] chs IHl]; intros s.
    - exists [], []. rewrite app_nil_r. repeat split; try constructor.
      intros l [].
    - apply Forall_cons in IH as [IHc IH]. cbn [snd] in IHc.
      destruct (IHc s) as (ltc & new1 & Ea & Ee & Hh & Hnd & Hlo).
      destruct (IHl IH (s ++ new1)%list)
        as (lchs & new2 & Ea2 & Ee2 & Hh2 & Hnd2 & Hlo2).
      exists ((k, ltc) :: lchs), (new1 ++ new2)%list.
      cbn [Store.alloc_items]. rewrite Ea, Ea2, <- app_assoc.
      split; [reflexivity|]. split; [cbn [map]; unfold erase_item at 1;
                                     cbn [fst snd]; congruence|].
      rewrite app_assoc. split; [|split].
      + constructor; [now apply holds_app | assumption].
      + cbn [dict_locs flat_map snd]. apply NoDup_app_intro; try assumption.
        intros l Hl Hl'. apply (holds_locs_lt _ _ Hh) in Hl.
        apply Hlo2 in Hl'. lia.
      + cbn [dict_locs flat_map snd]. intros l Hl.
        apply in_app_iff in Hl as [Hl|Hl]; [now apply Hlo|].
        apply Hlo2 in Hl. rewrite length_app in Hl. lia. }
  destruct (Hitems s) as (lchs & new & Ea & Ee & Hh & Hnd & Hlo).
  exists (mkL (length (s ++ new)%list) cnt lchs),
    (new ++ [Store.mkObj cnt (map entry lchs)])%list.
  cbn [Store.alloc_tree]. rewrite Ea. unfold Store.alloc. rewrite <- app_assoc.
  split; [reflexivity|]. split; [rewrite erase_unfold; congruence|].
  rewrite app_assoc. split; [|split].
  - constructor.
    + apply list_lookup_middle. reflexivity.
    + eapply Forall_impl; [exact Hh|]. intros kc Hkc. now apply holds_app.
  - cbn [all_locs]. constructor; [|exact Hnd].
    intros Hin. apply (holds_children_locs_lt _ _ Hh) in Hin. lia.
  - cbn [all_locs]. intros l [<-|Hl].
    + rewrite length_app. lia.
    + now apply Hlo.
Qed.

(** ** Collapsing in place *)

Lemma collapse_left_branch (cnt : Z) (chs : dict Node) :
  length chs <> 1%nat ->
  collapse_left (mkNode cnt chs)
  = mkNode cnt (dict_build collapse_child chs []).
Proof.
  intros H. destruct chs as [|[k c] [|y l]];
    [reflexivity | exfalso; now apply H | reflexivity].
Qed.

Lemma dict_set_map {A B} (f : A -> B) (d : dict A) (k : string) (v : A) :
  map (fun kv => (kv.1, f kv.2)) (dict_set d k v)
  = dict_set (map (fun kv => (kv.1, f kv.2)) d) k (f v).
Proof.
  induction d as [|[k0 v0] d IH]; [reflexivity|].
  cbn [dict_set map fst snd]. destruct (String.eqb k0 k); [reflexivity|].
  cbn [map fst snd]. now rewrite IH.
Qed.

Lemma incl_dict_locs (d : dict LNode) (X : list Store.loc) :
  Forall (fun kc => incl (all_locs kc.2) X) d -> incl (dict_locs d) X.
Proof.
  intros H l Hl. apply in_dict_locs in Hl as (kc & Hkc & Hl).
  rewrite Forall_forall in H. apply list_elem_of_In in Hkc.
  exact (H kc Hkc l Hl).
Qed.

Lemma NoDup_app_disjoint {A} (l1 l2 : list A) :
  List.NoDup (l1 ++ l2) ->
  List.NoDup l1 /\ List.NoDup l2 /\ forall x, In x l1 -> ~ In x l2.
Proof.
  induction l1 as [|x l1 IH]; cbn [app]; intros H.
  - repeat split; [constructor | assumption | intros x []].
  - apply NoDup_cons_iff in H as [Hx H]. destruct (IH H) as (H1 & H2 & Hd).
    rewrite in_app_iff in Hx. repeat split; [|assumption|].
    + constructor; tauto.
    + intros y [<-|Hy]; [tauto | now apply Hd].
Qed.

(** The loop over the children, given the statement for every child:
    [acc'] is the dictionary built, [left] are the children as they are
    left behind. *)
Lemma store_collapse_items (fuel : nat) (rest : dict LNode) :
  Forall (fun kc => collapse_refines kc.2) rest ->
  forall (acc : dict LNode) (s : Store.store) (X : list Store.loc),
    Forall (fun kc => holds s kc.2) rest ->
    List.NoDup (dict_locs rest) ->
    Forall (fun kc => (height (erase kc.2) <= fuel)%nat) rest ->
    Forall (fun kc => holds s kc.2 /\ incl (all_locs kc.2) X) acc ->
    (forall l, In l X -> ~ In l (dict_locs rest)) ->
    exists acc' left s',
      Store.collapse_items (Store.collapse_chains fuel)
        (map entry rest) (map entry acc) s
      = Some (map entry acc', s')
      /\ map erase_item acc'
         = dict_build collapse_child (map erase_item rest) (map erase_item acc)
      /\ Forall (fun kc => holds s' kc.2
                           /\ incl (all_locs kc.2) (X ++ dict_locs rest)) acc'
      /\ map entry left = map entry rest
      /\ map erase_item left
         = map (fun kc => (kc.1, collapse_left (erase kc.2))) rest
      /\ Forall (fun kc => holds s' kc.2
                           /\ incl (all_locs kc.2) (dict_locs rest)) left
      /\ length s' = length s
      /\ (forall l, ~ In l (dict_locs rest) -> s' !! l = s !! l).
Proof.
  induction 1 as [|[k c] rest Hc _ IH]; intros acc s X Hh Hnd Hf Hacc HX.
  - exists acc, [], s.
    cbn [map Store.collapse_items dict_build dict_locs flat_map].
    repeat split; try reflexivity; try constructor.
    eapply Forall_impl; [exact Hacc|]. intros kc [H1 H2]. split; [exact H1|].
    intros l Hl. apply in_app_iff. left. now apply H2.
  - cbn [snd] in Hc. cbn [dict_locs flat_map snd] in Hnd, HX.
    fold (dict_locs rest) in Hnd, HX.
    apply NoDup_app_disjoint in Hnd as (Hndc & Hndr & Hdis).
    apply Forall_cons in Hh as [Hhc Hhr]. apply Forall_cons in Hf as [Hfc Hfr].
    cbn [snd] in Hhc, Hfc.
    destruct (Hc s k fuel Hhc Hndc Hfc) as (c' & c0 & s1 & Ec & Pc).
    destruct Pc as [Pres Phold Plocs Ploc0 Pleft Phold0 Plocs0 Plen Pframe].
    assert (Hhr1 : Forall (fun kc => holds s1 kc.2) rest).
    { rewrite Forall_forall in *. intros kc Hkc.
      apply (holds_frame s); [now apply Hhr|].
      intros l Hl. apply Pframe. intros Hlc. apply (Hdis l Hlc).
      apply in_dict_locs. exists kc. split; [|exact Hl].
      now apply list_elem_of_In. }
    set (n' := (collapse_chains k (erase c)).1) in *.
    assert (Hacc1 : Forall (fun kc => holds s1 kc.2
                        /\ incl (all_locs kc.2) (X ++ all_locs c))
                      (dict_set acc n' c')).
    { apply Forall_dict_set.
      - eapply Forall_impl; [exact Hacc|]. intros kc [H1 H2]. split.
        + apply (holds_frame s); [exact H1|]. intros l Hl. apply Pframe.
          intros Hlc. apply (HX l (H2 l Hl)). apply in_app_iff. now left.
        + intros l Hl. apply in_app_iff. left. now apply H2.
      - cbn [snd]. split; [exact Phold|]. intros l Hl. apply in_app_iff.
        right. now apply Plocs. }
    destruct (IH (dict_set acc n' c') s1 (X ++ all_locs c)%list Hhr1 Hndr Hfr Hacc1)
      as (acc' & left & s' & Ei & Ee & Hall & Hle & Hlr & Hlh & Hlen & Hframe).
    { intros l Hl. apply in_app_iff in Hl as [Hl|Hl].
      - intros Hr. apply (HX l Hl). apply in_app_iff. now right.
      - now apply Hdis. }
    exists acc', ((k, c0) :: left), s'.
    cbn [map Store.collapse_items]. unfold entry at 1. cbn [fst snd].
    rewrite Ec. cbn [mbind option_bind fst snd].
    change (dict_set (map entry acc) n' (ln_loc c'))
      with (dict_set (map (fun kv : string * LNode => (kv.1, ln_loc kv.2)) acc)
              n' (ln_loc c')).
    rewrite <- (dict_set_map ln_loc). fold entry. rewrite Ei.
    split; [reflexivity|]. repeat apply conj.
    + rewrite Ee. cbn [dict_build]. unfold erase_item at 3. cbn [fst snd].
      unfold collapse_child at 2.
      destruct (collapse_chains k (erase c)) as [k2 v2] eqn:Ek.
      cbn [fst snd] in Pres. subst n'. cbn [fst]. rewrite <- Pres.
      change (map erase_item (dict_set acc k2 c'))
        with (map (fun kv : string * LNode => (kv.1, erase kv.2))
                (dict_set acc k2 c')).
      now rewrite (dict_set_map erase).
    + cbn [dict_locs flat_map snd]. fold (dict_locs rest).
      rewrite app_assoc. exact Hall.
    + unfold entry at 1 3. cbn [fst snd]. now rewrite Ploc0, Hle.
    + unfold erase_item at 1. cbn [fst snd]. now rewrite Pleft, Hlr.
    + cbn [dict_locs flat_map snd]. fold (dict_locs rest). constructor.
      * cbn [snd]. split.
        -- apply (holds_frame s1); [exact Phold0|]. intros x Hx.
           apply Hframe. apply Hdis. now apply Plocs0.
        -- intros x Hx. apply in_app_iff. left. now apply Plocs0.
      * eapply Forall_impl; [exact Hlh|]. intros kc [H1 H2].
        split; [exact H1|]. intros x Hx. apply in_app_iff. right. now apply H2.
    + congruence.
    + intros l Hl. cbn [dict_locs flat_map snd] in Hl. fold (dict_locs rest) in Hl.
      rewrite in_app_iff in Hl. rewrite Hframe by tauto. apply Pframe. tauto.
Qed.

Lemma erase_height_child (l : Store.loc) (cnt : Z) (chs : dict LNode)
    (fuel : nat) :
  (height (erase (mkL l cnt chs)) <= S fuel)%nat ->
  Forall (fun kc => (height (erase kc.2) <= fuel)%nat) chs.
Proof.
  intros H. apply Forall_forall. intros kc Hkc. apply list_elem_of_In in Hkc.
  assert (Hin : In (erase_item kc) (children (erase (mkL l cnt chs)))).
  { rewrite erase_unfold. cbn [children]. now apply in_map. }
  apply height_child in Hin. lia.
Qed.

(** [Store.collapse_chains] returns what [collapse_chains] computes on the
    tree value, and leaves [collapse_left] of it at the node it was given;
    it changes the store only inside the tree. *)
Lemma store_collapse_chains (lt : LNode) : collapse_refines lt.
Proof.
  induction lt as [l cnt chs IH] using LNode_ind.
  intros s name fuel Hh Hnd Hf.
  apply holds_inv in Hh as [Hl Hc].
  destruct fuel as [|fuel]; [rewrite erase_unfold, height_unfold in Hf; lia|].
  pose proof (erase_height_child _ _ _ _ Hf) as Hfc.
  cbn [all_locs] in Hnd. fold (dict_locs chs) in Hnd.
  apply NoDup_cons_iff in Hnd as [Hlc Hndc].
  cbn [ln_loc].
  destruct (Nat.eq_dec (length chs) 1%nat) as [Hone|Hmany].
  - destruct chs as [|[k c] [|kc2 chs]]; try discriminate Hone.
    cbn [Store.collapse_chains]. rewrite Hl.
    cbn [mbind option_bind Store.o_children Store.o_count].
    cbn [map]. unfold entry at 1. cbn [fst snd].
    apply Forall_cons in IH as [IHc _]. apply Forall_cons in Hc as [Hhc _].
    apply Forall_cons in Hfc as [Hfc _]. cbn [snd] in IHc, Hhc, Hfc.
    cbn [dict_locs flat_map snd] in Hlc, Hndc. rewrite app_nil_r in Hlc, Hndc.
    destruct (IHc s (if Str.nonempty name then name +:+ "/" +:+ k else k)
                fuel Hhc Hndc Hfc) as (c' & c0 & s' & Ec & Pc).
    destruct Pc as [Pres Phold Plocs Ploc0 Pleft Phold0 Plocs0 Plen Pframe].
    exists c', (mkL l cnt [(k, c0)]), s'.
    rewrite erase_unfold. cbn [map]. unfold erase_item. cbn [fst snd].
    rewrite collapse_chains_single. split; [exact Ec|].
    assert (Hsub : forall x, In x (all_locs c) ->
                     In x (all_locs (mkL l cnt [(k, c)]))).
    { intros x Hx. cbn [all_locs flat_map snd]. right.
      rewrite app_nil_r. exact Hx. }
    constructor; cbn [ln_loc].
    + rewrite erase_unfold. cbn [map]. unfold erase_item. cbn [fst snd].
      rewrite collapse_chains_single. exact Pres.
    + exact Phold.
    + intros x Hx. apply Hsub. now apply Plocs.
    + reflexivity.
    + rewrite !erase_unfold. cbn [map collapse_left]. unfold erase_item.
      cbn [fst snd]. now rewrite Pleft.
    + constructor.
      * rewrite Pframe by exact Hlc. rewrite Hl. cbn [map]. unfold entry.
        cbn [fst snd]. now rewrite Ploc0.
      * constructor; [exact Phold0 | constructor].
    + intros x Hx. cbn [all_locs flat_map snd] in Hx. rewrite app_nil_r in Hx.
      destruct Hx as [<-|Hx]; [now left|]. apply Hsub. now apply Plocs0.
    + exact Plen.
    + intros x Hx. apply Pframe. intros Hxc. apply Hx. now apply Hsub.
  - assert (Hgo : Store.collapse_chains (S fuel) name l s
                  = r ← Store.collapse_items (Store.collapse_chains fuel)
                        (map entry chs) [] s;
                    s2 ← Store.set_children l r.1 r.2;
                    Some (name, l, s2)).
    { cbn [Store.collapse_chains]. rewrite Hl.
      cbn [mbind option_bind Store.o_children Store.o_count].
      destruct chs as [|[k c] [|kc2 chs]];
        [reflexivity | exfalso; now apply Hmany | reflexivity]. }
    rewrite Hgo. clear Hgo.
    destruct (store_collapse_items fuel chs IH [] s [] Hc Hndc Hfc)
      as (acc' & left & s' & Ei & Ee & Hall & _ & _ & _ & Hlen & Hframe);
      [constructor | intros x [] |].
    cbn [map] in Ei, Ee. rewrite Ei.
    cbn [mbind option_bind fst snd]. unfold Store.set_children.
    rewrite Hframe by exact Hlc. rewrite Hl.
    cbn [mbind option_bind Store.o_count].
    set (s2 := <[l := Store.mkObj cnt (map entry acc')]> s').
    assert (Hlt : (l < length s')%nat).
    { rewrite Hlen. now apply lookup_lt_Some in Hl. }
    assert (Hacc : Forall (fun kc => holds s2 kc.2
                             /\ incl (all_locs kc.2) (dict_locs chs)) acc').
    { eapply Forall_impl; [exact Hall|]. intros kc [H1 H2]. cbn [app] in H2.
      split; [|exact H2]. apply (holds_frame s'); [exact H1|].
      intros x Hx. unfold s2. apply list_lookup_insert_ne.
      intros <-. apply Hlc. now apply H2. }
    assert (Hres : erase (mkL l cnt acc')
                   = mkNode cnt (dict_build collapse_child (map erase_item chs) [])).
    { rewrite erase_unfold. now rewrite Ee. }
    assert (Hlen' : length (map erase_item chs) <> 1%nat)
      by now rewrite length_map.
    assert (Hincl : incl (all_locs (mkL l cnt acc')) (all_locs (mkL l cnt chs))).
    { cbn [all_locs]. intros x [<-|Hx]; [now left|]. right.
      fold (dict_locs acc') in Hx. fold (dict_locs chs).
      revert x Hx. apply incl_dict_locs.
      eapply Forall_impl; [exact Hacc|]. now intros kc [_ H]. }
    assert (Hholds : holds s2 (mkL l cnt acc')).
    { constructor.
      - unfold s2. now apply list_lookup_insert_eq.
      - eapply Forall_impl; [exact Hacc|]. now intros kc [H _]. }
    exists (mkL l cnt acc'), (mkL l cnt acc'), s2.
    rewrite (erase_unfold l cnt chs), collapse_chains_branch by exact Hlen'.
    split; [reflexivity|].
    constructor; cbn [ln_loc fst snd]; try assumption; try reflexivity.
    + rewrite Hres, (erase_unfold l cnt chs).
      now rewrite collapse_chains_branch.
    + rewrite Hres, (erase_unfold l cnt chs). now rewrite collapse_left_branch.
    + unfold s2. etransitivity; [apply length_insert | exact Hlen].
    + intros x Hx. cbn [all_locs] in Hx. fold (dict_locs chs) in Hx.
      unfold s2. etransitivity.
      * apply list_lookup_insert_ne. intros <-. apply Hx. now left.
      * apply Hframe. intros Hxc. apply Hx. now right.
Qed.

(** ** Heights, for the fuel of the traversals *)

Lemma height_le_intro (cnt : Z) (chs : dict Node) (n : nat) :
  Forall (fun kc => (height kc.2 <= n)%nat) chs ->
  (height (mkNode cnt chs) <= S n)%nat.
Proof.
  intros H. rewrite height_unfold. apply le_n_S.
  induction H as [|kc chs Hkc _ IH]; cbn [map list_max fold_right]; [lia|].
  unfold list_max in IH. lia.
Qed.

Lemma height_children_le (t : Node) (n : nat) :
  (height t <= S n)%nat -> Forall (fun kc => (height kc.2 <= n)%nat) (children t).
Proof.
  intros H. apply Forall_forall. intros [k c] Hin.
  apply list_elem_of_In, height_child in Hin. cbn [snd]. lia.
Qed.

Lemma dict_build_Forall {A B} (f : string -> A -> option (string * B))
    (P : string * B -> Prop) (items : list (string * A)) :
  forall acc : dict B,
    Forall P acc ->
    (forall k v kv, In (k, v) items -> f k v = Some kv -> P kv) ->
    Forall P (dict_build f items acc).
Proof.
  induction items as [|[k v] items IH]; intros acc Hacc Hf; cbn [dict_build];
    [exact Hacc|].
  destruct (f k v) as [[k2 v2]|] eqn:E.
  - apply IH.
    + apply Forall_dict_set; [exact Hacc|]. apply (Hf k v); [now left | exact E].
    + intros k' v' kv Hin. apply Hf. now right.
  - apply IH; [exact Hacc|]. intros k' v' kv Hin. apply Hf. now right.
Qed.

Lemma height_collapsed_children (cnt : Z) (chs : dict Node) (n : nat) :
  Forall (fun kc => forall name,
            (height (collapse_chains name kc.2).2 <= height kc.2)%nat) chs ->
  (height (mkNode cnt chs) <= S n)%nat ->
  (height (mkNode cnt (dict_build collapse_child chs [])) <= S n)%nat.
Proof.
  intros IH Hn. apply height_le_intro. apply dict_build_Forall; [constructor|].
  intros k v kv Hin [= <-].
  apply height_children_le in Hn. cbn [children] in Hn.
  rewrite Forall_forall in IH, Hn. apply list_elem_of_In in Hin.
  specialize (IH (k, v) Hin k). specialize (Hn (k, v) Hin). cbn [snd] in *. lia.
Qed.

Lemma height_collapse_chains (t : Node) :
  forall name, (height (collapse_chains name t).2 <= height t)%nat.
Proof.
  induction t as [cnt chs IH] using Node_ind. intros name.
  destruct (Nat.eq_dec (length chs) 1%nat) as [Hone|Hmany].
  - destruct chs as [|[k c] [|y l]]; try discriminate Hone.
    rewrite collapse_chains_single. apply Forall_cons in IH as [IHc _].
    cbn [snd] in IHc. etransitivity; [apply IHc|].
    apply Nat.lt_le_incl. apply (height_child _ k). now left.
  - rewrite collapse_chains_branch by assumption. cbn [snd].
    destruct (height (mkNode cnt chs)) as [|n] eqn:E;
      [rewrite height_unfold in E; discriminate|].
    apply height_collapsed_children; [exact IH | lia].
Qed.

Lemma height_collapse_left (t : Node) :
  (height (collapse_left t) <= height t)%nat.
Proof.
  induction t as [cnt chs IH] using Node_ind.
  destruct (Nat.eq_dec (length chs) 1%nat) as [Hone|Hmany].
  - destruct chs as [|[k c] [|y l]]; try discriminate Hone.
    apply Forall_cons in IH as [IHc _]. cbn [snd collapse_left] in *.
    rewrite !height_unfold. cbn [map list_max fold_right snd]. lia.
  - rewrite collapse_left_branch by assumption.
    destruct (height (mkNode cnt chs)) as [|n] eqn:E;
      [rewrite height_unfold in E; discriminate|].
    apply height_collapsed_children; [|lia].
    apply Forall_forall. intros kc _ name. apply height_collapse_chains.
Qed.

Lemma height_le_locs (lt : LNode) :
  (height (erase lt) <= length (all_locs lt))%nat.
Proof.
  induction lt as [l cnt chs IH] using LNode_ind.
  rewrite erase_unfold. cbn [all_locs length]. apply height_le_intro.
  fold (dict_locs chs). apply Forall_forall. intros kc Hkc.
  apply list_elem_of_In, in_map_iff in Hkc as (lc & <- & Hin).
  unfold erase_item. cbn [snd]. rewrite Forall_forall in IH.
  etransitivity; [apply IH; now apply list_elem_of_In|].
  clear IH. induction chs as [|x chs IHl]; [destruct Hin|].
  cbn [dict_locs flat_map]. rewrite length_app.
  destruct Hin as [->|Hin]; [lia|]. specialize (IHl Hin).
  unfold dict_locs in IHl. lia.
Qed.

Lemma holds_height (s : Store.store) (lt : LNode) :
  holds s lt -> List.NoDup (all_locs lt) ->
  (height (erase lt) <= length s)%nat.
Proof.
  intros Hh Hnd. etransitivity; [apply height_le_locs|].
  transitivity (length (seq 0 (length s))).
  - apply NoDup_incl_length; [exact Hnd|].
    intros l Hl. apply in_seq. apply (holds_locs_lt s lt Hh) in Hl. lia.
  - apply Nat.eq_le_incl. apply List.length_seq.
Qed.

(** ** What [print_tree] prints and what it leaves behind *)

Lemma lookup_snoc {A} (s : list A) (x : A) :
  (s ++ [x])%list !! length s = Some x.
Proof. apply list_lookup_middle. reflexivity. Qed.

Lemma set_children_Some (s : Store.store) (node : Store.loc)
    (d : dict Store.loc) (o : Store.Obj) :
  s !! node = Some o ->
  Store.set_children node d s
  = Some (<[node := Store.mkObj (Store.o_count o) d]> s).
Proof. intros H. unfold Store.set_children. now rewrite H. Qed.

Lemma store_print_tree (t : Node) (s0 : Store.store)
    (use_ascii show_counts : bool) (max_depth top : Z) (compact : bool) :
  exists s1,
    Store.print_tree (Store.alloc_tree t s0).2 (Store.alloc_tree t s0).1
      use_ascii show_counts max_depth top compact
    = Some (render_text (print_tree_view compact t) use_ascii show_counts
              max_depth top, s1)
    /\ Store.snapshot (S (length s1)) s1 (Store.alloc_tree t s0).1
       = Some (print_tree_left compact t).
Proof.
  destruct (alloc_tree_spec t s0) as (lt & new & Ea & Ee & Hh & Hnd & _).
  rewrite Ea. cbn [fst snd]. set (s := (s0 ++ new)%list) in *. clearbody s.
  clear Ea s0 new. pose proof (holds_height s lt Hh Hnd) as Hheight.
  destruct lt as [root cnt chs]. subst t. cbn [ln_loc].
  pose proof Hh as Hh0. apply holds_inv in Hh as [Hl Hc].
  cbn [all_locs] in Hnd. fold (dict_locs chs) in Hnd.
  apply NoDup_cons_iff in Hnd as [Hroot Hndc].
  unfold Store.print_tree. rewrite Hl. cbn [mbind option_bind].
  unfold Store.alloc. cbn [Store.o_count Store.o_children].
  set (obj := Store.mkObj cnt (map entry chs)) in *.
  set (w := length s) in *. set (sw := (s ++ [obj])%list) in *.
  assert (Hlenw : length sw = S (length s)).
  { unfold sw. rewrite length_app. cbn [length]. lia. }
  assert (Hw : forall x, In x (dict_locs chs) -> x <> w).
  { intros x Hx. apply (holds_children_locs_lt s chs Hc) in Hx. unfold w. lia. }
  assert (Hrootw : root <> w).
  { apply lookup_lt_Some in Hl. unfold w. lia. }
  assert (Hcw : Forall (fun kc => holds sw kc.2) chs).
  { eapply Forall_impl; [exact Hc|]. intros kc Hkc. now apply holds_app. }
  rewrite erase_unfold in *. destruct compact; cbn [print_tree_view print_tree_left
                                                    count children].
  - (* collapsing *)
    assert (Hfc : Forall (fun kc => (height (erase kc.2) <= S (length sw))%nat) chs).
    { apply Forall_forall. intros kc Hkc. apply list_elem_of_In in Hkc.
      assert (Hin : In (erase_item kc) (children (mkNode cnt (map erase_item chs))))
        by (cbn [children]; now apply in_map).
      apply height_child in Hin. cbn [snd] in Hin. lia. }
    assert (Href : Forall (fun kc => collapse_refines kc.2) chs).
    { apply Forall_forall. intros kc _. apply store_collapse_chains. }
    destruct (store_collapse_items (S (length sw)) chs Href [] sw [] Hcw Hndc Hfc)
      as (acc' & left & s' & Ei & Ee & Hall & Hle & Hlr & Hlh & Hlen & Hframe);
      [constructor | intros x [] |].
    cbn [map] in Ei, Ee. rewrite Ei. cbn [mbind option_bind fst snd].
    assert (Hsw : s' !! w = Some obj).
    { rewrite Hframe; [apply lookup_snoc|]. intros Hx. now apply (Hw w). }
    rewrite (set_children_Some s' w (map entry acc') obj Hsw).
    cbn [mbind option_bind]. change (Store.o_count obj) with cnt.
    match goal with
    | |- context [Store.snapshot _ ?st w] => set (s2 := st)
    end.
    assert (Hs2 : forall x, x <> w -> s2 !! x = s' !! x).
    { intros x Hx. unfold s2. apply list_lookup_insert_ne. congruence. }
    assert (Hlen2 : length s2 = length sw).
    { unfold s2. etransitivity; [apply length_insert | exact Hlen]. }
    assert (Hview : holds s2 (mkL w cnt acc')).
    { constructor.
      - unfold s2. apply list_lookup_insert_eq. rewrite Hlen, Hlenw. unfold w. lia.
      - eapply Forall_impl; [exact Hall|]. intros kc [H1 H2]. cbn [app] in H2.
        apply (holds_frame s'); [exact H1|]. intros x Hx. apply Hs2.
        apply Hw. now apply H2. }
    assert (Hleft : holds s2 (mkL root cnt left)).
    { constructor.
      - rewrite Hs2 by exact Hrootw. rewrite Hframe by exact Hroot.
        rewrite Hle. unfold sw. etransitivity; [|exact Hl].
        apply lookup_app_l. now apply lookup_lt_Some in Hl.
      - eapply Forall_impl; [exact Hlh|]. intros kc [H1 H2].
        apply (holds_frame s'); [exact H1|]. intros x Hx. apply Hs2.
        apply Hw. now apply H2. }
    assert (Hhc : Forall (fun kc : string * Node => forall name,
               (height (collapse_chains name kc.2).2 <= height kc.2)%nat)
              (map erase_item chs)).
    { apply Forall_forall. intros kc _ name. apply height_collapse_chains. }
    pose proof (snapshot_holds s2 _ Hview (S (length sw))) as Hsnap.
    rewrite erase_unfold, Ee in Hsnap. cbn [ln_loc] in Hsnap.
    rewrite Hsnap by (apply height_collapsed_children; [exact Hhc | lia]).
    cbn [mbind option_bind]. eexists. split; [reflexivity|].
    pose proof (snapshot_holds s2 _ Hleft (S (length s2))) as Hsnap2.
    rewrite erase_unfold, Hlr in Hsnap2. cbn [ln_loc] in Hsnap2.
    rewrite map_map. apply Hsnap2.
    apply height_le_intro. apply Forall_forall. intros kc Hkc.
    apply list_elem_of_In, in_map_iff in Hkc as (lc & <- & Hin). cbn [snd].
    etransitivity; [apply height_collapse_left|].
    assert (Hin' : In (erase_item lc) (children (mkNode cnt (map erase_item chs))))
      by (cbn [children]; now apply in_map).
    apply height_child in Hin'. cbn [snd] in Hin'. lia.
  - (* no collapsing *)
    cbn [mbind option_bind].
    assert (Hview : holds sw (mkL w cnt chs)).
    { constructor; [apply lookup_snoc | exact Hcw]. }
    pose proof (snapshot_holds sw _ Hview (S (length sw))) as Hsnap.
    rewrite erase_unfold in Hsnap. cbn [ln_loc] in Hsnap.
    rewrite Hsnap by (rewrite !height_unfold in *; lia).
    cbn [mbind option_bind]. eexists. split; [reflexivity|].
    pose proof (snapshot_holds sw _ (holds_app s [obj] _ Hh0) (S (length sw)))
      as Hsnap2.
    rewrite erase_unfold in Hsnap2. cbn [ln_loc] in Hsnap2. apply Hsnap2. lia.
Qed.

(** ** What [main] writes *)

(** [main] never runs out of fuel, and writes [main_output]. *)
Lemma main_spec (re_search : string -> string -> bool) (args : Args.t)
    (paths : list string) :
  main re_search args paths = Some (main_output re_search args paths).
Proof.
  unfold main, main_output.
  destruct (prune_tree _ _) as [tree|]; [|reflexivity].
  destruct (is_nil (children tree)); [reflexivity|].
  destruct (Args.json args); [reflexivity|].
  destruct (store_print_tree tree [] (Args.ascii args)
              (negb (Args.no_counts args)) (Args.max_depth args)
              (Args.top args) (Args.compact args)) as (s1 & Ep & Es).
  destruct (Store.alloc_tree tree []) as [root s]. cbn [fst snd] in Ep, Es.
  rewrite Ep. cbn [mbind option_bind fst snd].
  destruct (Args.emit_filter args).
  - rewrite Es. reflexivity.
  - now rewrite app_nil_r.
Qed.

(** ** Normalised paths start with the root marker, except for [//] *)

Lemma split_not_nil (sep : ascii) (s : string) : Str.split sep s <> [].
Proof.
  induction s as [|c s IH]; cbn [Str.split]; [discriminate|].
  destruct (Ascii.eqb c sep); [discriminate|].
  destruct (Str.split sep s); [contradiction | discriminate].
Qed.

Lemma split_sep_free (sep : ascii) (s w : string) :
  In w (Str.split sep s) -> Str.contains sep w = false.
Proof.
  revert w. induction s as [|c s IH]; intros w; cbn [Str.split].
  - intros [<-|[]]. reflexivity.
  - destruct (Ascii.eqb c sep) eqn:E.
    + intros [<-|H]; [reflexivity | now apply IH].
    + destruct (Str.split sep s) as [|w0 ws] eqn:Es;
        [exfalso; exact (split_not_nil sep s Es)|].
      intros [<-|H].
      * cbn [Str.contains]. rewrite E. apply IH. now left.
      * apply IH. now right.
Qed.

Lemma nonempty_comps_nil (s : string) :
  nonempty_comps s = [] -> all_slashes s = true.
Proof.
  unfold nonempty_comps. induction s as [|c s IH]; [reflexivity|].
  cbn [Str.split all_slashes]. destruct (Ascii.eqb c "/").
  - cbn [List.filter Str.nonempty]. exact IH.
  - destruct (Str.split "/" s); cbn [List.filter Str.nonempty]; discriminate.
Qed.

Lemma nonempty_comps_component (s w : string) :
  In w (nonempty_comps s) -> component w.
Proof.
  unfold nonempty_comps. intros H. apply filter_In in H as [H1 H2].
  split; [exact H2 | now apply (split_sep_free "/" s)].
Qed.

Lemma norm_step_components (k : Z) (comps : list string) (comp : string) :
  Forall component comps -> Str.contains "/" comp = false ->
  Forall component (Posix.norm_step k comps comp).
Proof.
  intros Hc Hs. unfold Posix.norm_step.
  destruct (String.eqb comp "" || String.eqb comp ".") eqn:E; [exact Hc|].
  destruct (_ || _ || _).
  - apply Forall_app. split; [exact Hc|]. constructor; [|constructor].
    split; [|exact Hs]. destruct comp; [discriminate E | reflexivity].
  - destruct (negb (is_nil comps)); [|exact Hc].
    rewrite Forall_forall in *. intros w Hw. apply Hc.
    apply list_elem_of_In in Hw. apply list_elem_of_In.
    clear -Hw. induction comps as [|x [|y l] IH]; cbn [removelast] in *;
      [destruct Hw | destruct Hw |].
    destruct Hw as [->|Hw]; [now left | right; now apply IH].
Qed.

Lemma fold_norm_step_components (k : Z) (l : list string) :
  forall comps,
    Forall component comps ->
    Forall (fun w => Str.contains "/" w = false) l ->
    Forall component (fold_left (Posix.norm_step k) l comps).
Proof.
  induction l as [|x l IH]; intros comps Hc Hl; cbn [fold_left]; [exact Hc|].
  apply Forall_cons in Hl as [Hx Hl].
  apply IH; [now apply norm_step_components | exact Hl].
Qed.

Lemma all_slashes_append (a b : string) :
  all_slashes (a +:+ b) = all_slashes a && all_slashes b.
Proof.
  induction a as [|c a IH]; [reflexivity|].
  rewrite append_cons. cbn [all_slashes]. rewrite IH. now rewrite andb_assoc.
Qed.

Lemma component_not_slashes (w : string) : component w -> all_slashes w = false.
Proof.
  intros [Hn Hs]. destruct w as [|c w]; [discriminate|].
  cbn [Str.contains all_slashes] in *. now destruct (Ascii.eqb c "/").
Qed.

Lemma join_not_slashes (comps : list string) :
  Forall component comps -> comps <> [] ->
  all_slashes (Str.join "/" comps) = false.
Proof.
  intros Hc Hne. destruct comps as [|w ws]; [contradiction|].
  apply Forall_cons in Hc as [Hw _]. apply component_not_slashes in Hw.
  cbn [Str.join]. destruct ws; [exact Hw|].
  rewrite all_slashes_append, Hw. reflexivity.
Qed.

(** A normalised path made of separators only is [/] or [//]. *)
Lemma normpath_all_slashes (path : string) :
  all_slashes (Posix.normpath path) = true ->
  Posix.normpath path = "/" \/ Posix.normpath path = "//".
Proof.
  unfold Posix.normpath. destruct (String.eqb path ""); [discriminate|].
  set (k := if Str.startswith path "/" then _ else _).
  assert (Hc : Forall component (fold_left (Posix.norm_step k)
                                   (Str.split "/" path) [])).
  { apply fold_norm_step_components; [constructor|].
    apply Forall_forall. intros w Hw. apply list_elem_of_In in Hw.
    now apply (split_sep_free "/" path). }
  destruct (fold_left (Posix.norm_step k) (Str.split "/" path) []) as [|w ws] eqn:E.
  - cbn [Str.join]. rewrite append_nil_r.
    assert (Hk : k = 0 \/ k = 1 \/ k = 2).
    { unfold k. destruct (Str.startswith path "/"); [|now left].
      destruct (_ && _); auto. }
    destruct Hk as [->|[->| ->]]; cbn; [discriminate | now left | now right].
  - pose proof (join_not_slashes (w :: ws) Hc ltac:(discriminate)) as Hj.
    destruct (Str.nonempty _); [|discriminate].
    rewrite all_slashes_append, Hj, andb_false_r. discriminate.
Qed.

Lemma last_str_snoc (l : list string) (x : string) :
  last_str (l ++ [x]) = x.
Proof. unfold last_str. apply last_last. Qed.

(** The segment sequence of a path is never empty and ends in a bucket;
    it starts with the root marker unless the path normalises to [//]. *)
Lemma path_to_parts_shape (path : string) (mode : ExtMode) :
  path_to_parts path mode <> []
  /\ is_bucket (last_str (path_to_parts path mode))
  /\ (Posix.normpath path <> "//" -> hd "" (path_to_parts path mode) = "/").
Proof.
  unfold path_to_parts.
  pose proof (normpath_all_slashes path) as Hall.
  set (norm := Posix.normpath path) in *.
  destruct (String.eqb_spec norm "/") as [E|Hne].
  { repeat split; [discriminate | now left]. }
  destruct (Str.startswith norm "/") eqn:Es.
  - cbn [is_nil negb]. rewrite last_str_snoc.
    split; [now destruct (removelast _)|].
    split; [apply get_ext_leaf_bucket|]. intros Hne2.
    destruct (nonempty_comps (Str.slice_from norm 1)) as [|c cs] eqn:Ec;
      [|reflexivity].
    exfalso. apply nonempty_comps_nil in Ec.
    destruct norm as [|a rest]; [discriminate Es|].
    cbn [Str.startswith] in Es. apply andb_true_iff in Es as [Ea _].
    apply Ascii.eqb_eq in Ea. subst a.
    change (Str.slice_from (String "/" rest) 1) with rest in Ec.
    destruct Hall as [H|H]; [cbn [all_slashes]; now rewrite Ec | | ];
      congruence.
  - destruct (nonempty_comps norm) as [|p ps] eqn:Ep.
    + cbn. repeat split; [discriminate | now left].
    + assert (Hp : component p).
      { apply (nonempty_comps_component norm). rewrite Ep. now left. }
      assert (Hps : String.eqb p "/" = false).
      { destruct (String.eqb_spec p "/") as [->|]; [|reflexivity].
        now destruct Hp as [_ Hp]. }
      cbn [is_nil negb hd andb]. rewrite Hps. cbn [negb is_nil].
      rewrite last_str_snoc.
      split; [now destruct (removelast _)|].
      split; [apply get_ext_leaf_bucket | reflexivity].
Qed.

(** Inserting a sequence that starts with the root marker keeps the
    root marker the only key under the root. *)
Lemma ensure_path_root_marker (t : Node) (parts : list string) :
  keys (children t) = [] \/ keys (children t) = ["/"] ->
  parts <> [] -> hd "" parts = "/" ->
  keys (children (ensure_path t parts)) = ["/"].
Proof.
  intros Hk Hne Hhd. destruct parts as [|p rest]; [contradiction|].
  cbn [hd] in Hhd. subst p. cbn [ensure_path children].
  destruct (children t) as [|[k c] [|y l]]; cbn [keys map fst] in *.
  - reflexivity.
  - destruct Hk as [Hk|Hk]; [discriminate|]. injection Hk as ->.
    reflexivity.
  - destruct Hk; discriminate.
Qed.

(** As long as no accepted path normalises to [//], the built root has at
    most one child, and its key is the root marker. *)
Lemma build_tree_root_marker (re_search : string -> string -> bool)
    (args : Args.t) (paths : list string) :
  (forall p, In p paths -> passes re_search args p = true ->
             Posix.normpath p <> "//") ->
  keys (children (build_tree re_search args paths)) = []
  \/ keys (children (build_tree re_search args paths)) = ["/"].
Proof.
  rewrite build_tree_fold.
  assert (H0 : keys (children new_node) = []
               \/ keys (children new_node) = ["/"]) by now left.
  revert H0. generalize new_node.
  induction paths as [|p paths IH]; intros t Ht Hp; cbn [fold_left];
    [exact Ht|].
  apply IH; [|intros q Hq; apply Hp; now right].
  change (want_path p (Args.prefix args) (compile_filters re_search args).1
            (compile_filters re_search args).2) with (passes re_search args p).
  destruct (passes re_search args p) eqn:E; cbn [negb]; [|exact Ht].
  right. destruct (path_to_parts_shape p (Args.ext_mode args)) as (H1 & _ & H3).
  apply ensure_path_root_marker; [exact Ht | exact H1|].
  apply H3. apply Hp; [now left | exact E].
Qed.

(** ** The built trie is plain below the root marker *)

Lemma plain_intro (cnt : Z) (chs : dict Node) :
  List.NoDup (keys chs) ->
  Forall (fun kc => plain_name kc.1 = true /\ plain kc.2 = true) chs ->
  plain (mkNode cnt chs) = true.
Proof.
  intros Hnd Hall. cbn [plain]. apply andb_true_iff. split.
  - now apply distinct_NoDup.
  - apply forallb_forall. intros kc Hkc. rewrite Forall_forall in Hall.
    apply list_elem_of_In in Hkc. destruct (Hall kc Hkc) as [H1 H2].
    now rewrite H1, H2.
Qed.

Lemma plain_elim (t : Node) :
  plain t = true ->
  List.NoDup (keys (children t))
  /\ Forall (fun kc => plain_name kc.1 = true /\ plain kc.2 = true) (children t).
Proof.
  destruct t as [cnt chs]. cbn [plain children]. intros H.
  apply andb_true_iff in H as [Hd Hall]. split; [now apply distinct_NoDup|].
  apply Forall_forall. intros kc Hkc. apply list_elem_of_In in Hkc.
  rewrite forallb_forall in Hall. now apply andb_true_iff, Hall.
Qed.

Lemma ensure_path_plain (parts : list string) :
  forall t, plain t = true ->
    Forall (fun w => plain_name w = true) parts ->
    plain (ensure_path t parts) = true.
Proof.
  induction parts as [|p rest IH]; intros t Ht Hp;
    destruct (plain_elim t Ht) as [Hnd Hall]; cbn [ensure_path].
  - now apply plain_intro.
  - apply Forall_cons in Hp as [Hp Hrest]. apply plain_intro.
    + now apply NoDup_keys_dict_set.
    + apply Forall_dict_set; [exact Hall|]. cbn [fst snd].
      split; [exact Hp|]. apply IH; [|exact Hrest].
      destruct (dict_get (children t) p) as [c|] eqn:E; [|reflexivity].
      now apply (Forall_dict_get _ _ _ _ Hall E).
Qed.

Lemma contains_drop (c : ascii) (n : nat) :
  forall s, Str.contains c s = false -> Str.contains c (Str.drop n s) = false.
Proof.
  induction n as [|n IH]; intros [|d s] H; cbn [Str.drop]; try exact H.
  cbn [Str.contains] in H. destruct (Ascii.eqb d c); [discriminate|].
  now apply IH.
Qed.

Lemma contains_split (c sep : ascii) (s : string) :
  Str.contains c s = false ->
  forall w, In w (Str.split sep s) -> Str.contains c w = false.
Proof.
  induction s as [|d s IH]; cbn [Str.split]; intros H w.
  - intros [<-|[]]. reflexivity.
  - cbn [Str.contains] in H. destruct (Ascii.eqb d c) eqn:Ed; [discriminate|].
    destruct (Ascii.eqb d sep).
    + intros [<-|Hw]; [reflexivity | now apply IH].
    + destruct (Str.split sep s) as [|w0 ws] eqn:Es;
        [exfalso; exact (split_not_nil sep s Es)|].
      intros [<-|Hw].
      * cbn [Str.contains]. rewrite Ed. apply (IH H). now left.
      * apply (IH H). now right.
Qed.

Lemma last_str_In (l : list string) : l <> [] -> In (last_str l) l.
Proof.
  unfold last_str. induction l as [|x [|y l] IH]; intros H;
    [contradiction | now left |].
  right. apply IH. discriminate.
Qed.

Lemma star_dot_plain (e : string) :
  Str.contains "/" e = false -> plain_name ("*." +:+ e) = true.
Proof.
  intros H. unfold plain_name.
  change ("*." +:+ e) with (String "*" (String "." e)).
  cbn [Str.nonempty Str.contains]. cbn. now rewrite H.
Qed.

(** The bucket of a component is a plain name. *)
Lemma get_ext_leaf_plain (base : string) (mode : ExtMode) :
  Str.contains "/" base = false ->
  plain_name (get_ext_leaf base mode) = true.
Proof.
  intros Hb. unfold get_ext_leaf.
  destruct mode; try reflexivity;
    destruct (Str.startswith base "."); try reflexivity;
    destruct (negb (Str.contains "." base)); try reflexivity.
  - destruct (Str.nonempty (last_str _)); [|reflexivity].
    apply star_dot_plain.
    apply (contains_split "/" "." base Hb), last_str_In, split_not_nil.
  - destruct (Str.nonempty (Str.slice_from _ _)); [|reflexivity].
    apply star_dot_plain. unfold Str.slice_from.
    destruct (_ <? 0); now apply contains_drop.
Qed.

Lemma component_plain (w : string) : component w -> plain_name w = true.
Proof. intros [H1 H2]. unfold plain_name. now rewrite H1, H2. Qed.

Lemma removelast_In {A} (l : list A) (x : A) : In x (removelast l) -> In x l.
Proof.
  induction l as [|y [|z l] IH]; cbn [removelast In]; [tauto | tauto |].
  intros [->|H]; [now left | right; now apply IH].
Qed.

(** After the root marker come plain names only. *)
Lemma comps_leaf_plain (comps : list string) (mode : ExtMode) :
  Forall component comps -> comps <> [] ->
  Forall (fun w => plain_name w = true)
    (removelast comps ++ [get_ext_leaf (last_str comps) mode]).
Proof.
  intros Hc Hne. apply Forall_app. split.
  - apply Forall_forall. intros w Hw. apply list_elem_of_In, removelast_In in Hw.
    rewrite Forall_forall in Hc. apply component_plain, Hc.
    now apply list_elem_of_In.
  - constructor; [|constructor]. apply get_ext_leaf_plain.
    rewrite Forall_forall in Hc.
    apply (Hc (last_str comps)), list_elem_of_In, last_str_In, Hne.
Qed.

Lemma path_to_parts_plain (path : string) (mode : ExtMode) :
  Posix.normpath path <> "//" ->
  exists rest,
    path_to_parts path mode = "/" :: rest
    /\ Forall (fun w => plain_name w = true) rest.
Proof.
  intros Hne2.
  destruct (path_to_parts_shape path mode) as (_ & _ & Hhd).
  specialize (Hhd Hne2). revert Hhd. unfold path_to_parts.
  set (norm := Posix.normpath path) in *.
  destruct (String.eqb norm "/").
  { intros _. exists ["*"]. split; [reflexivity | repeat constructor]. }
  destruct (Str.startswith norm "/").
  - cbn [is_nil negb].
    pose proof (nonempty_comps_component (Str.slice_from norm 1)) as Hc.
    destruct (nonempty_comps (Str.slice_from norm 1)) as [|c cs].
    + cbn. intros H. exfalso. revert H.
      pose proof (get_ext_leaf_bucket "/" mode) as [->|(e & _ & ->)];
        discriminate.
    + intros _. exists (removelast (c :: cs) ++ [get_ext_leaf (last_str (c :: cs)) mode])%list.
      split; [reflexivity|]. apply comps_leaf_plain; [|discriminate].
      apply Forall_forall. intros w Hw. apply Hc. now apply list_elem_of_In.
  - pose proof (nonempty_comps_component norm) as Hc.
    destruct (nonempty_comps norm) as [|p ps].
    + intros _. exists ["*"]. split; [reflexivity | repeat constructor].
    + assert (Hps : String.eqb p "/" = false).
      { destruct (String.eqb_spec p "/") as [->|]; [|reflexivity].
        now destruct (Hc "/" (or_introl eq_refl)) as [_ H]. }
      cbn [is_nil negb hd andb]. rewrite Hps. cbn [negb is_nil].
      intros _. exists (removelast (p :: ps) ++ [get_ext_leaf (last_str (p :: ps)) mode])%list.
      split; [reflexivity|]. apply comps_leaf_plain; [|discriminate].
      apply Forall_forall. intros w Hw. apply Hc. now apply list_elem_of_In.
Qed.

(** Every node under the built root is plain: [collapse_chains] as called
    by [print_tree] meets the assumptions of [collapse_chains_plain]. *)
Lemma build_tree_plain (re_search : string -> string -> bool)
    (args : Args.t) (paths : list string) :
  (forall p, In p paths -> passes re_search args p = true ->
             Posix.normpath p <> "//") ->
  Forall (fun kc => plain kc.2 = true)
    (children (build_tree re_search args paths)).
Proof.
  rewrite build_tree_fold.
  assert (H0 : Forall (fun kc : string * Node => plain kc.2 = true)
                 (children new_node)) by constructor.
  revert H0. generalize new_node.
  induction paths as [|p paths IH]; intros t Ht Hp; cbn [fold_left];
    [exact Ht|].
  apply IH; [|intros q Hq; apply Hp; now right].
  change (want_path p (Args.prefix args) (compile_filters re_search args).1
            (compile_filters re_search args).2) with (passes re_search args p).
  destruct (passes re_search args p) eqn:E; cbn [negb]; [|exact Ht].
  destruct (path_to_parts_plain p (Args.ext_mode args)) as (rest & -> & Hrest).
  { apply Hp; [now left | exact E]. }
  cbn [ensure_path children]. apply Forall_dict_set; [exact Ht|].
  cbn [snd]. apply ensure_path_plain; [|exact Hrest].
  destruct (dict_get (children t) "/") as [c|] eqn:Ec; [|reflexivity].
  now apply (Forall_dict_get _ _ _ _ Ht Ec).
Qed.

(** C8: for every tree and every pair of limits the lines of the text
    renderer, without chain collapsing, are about exactly the nodes of the
    JSON document, in the same order, at the same depths and with the same
    counts. A node at depth [max_depth] is in both: the JSON object has an
    empty children list there and the text has no lines below it. Both show
    the first [top] children of the same ordering at every level. The lines
    are what [print_tree] prints for the tree when it does not collapse. *)
Theorem renderers_same_nodes (tree : Node) (use_ascii : bool)
    (max_depth top : Z) :
  map line_node (render_lines tree use_ascii max_depth top)
  = json_nodes 0 (json_root max_depth top tree)
  /\ (forall (s0 : Store.store) (show_counts : bool),
        exists s1,
          Store.print_tree (Store.alloc_tree tree s0).2
            (Store.alloc_tree tree s0).1 use_ascii show_counts max_depth top
            false
          = Some (map (line_text show_counts)
                    (render_lines tree use_ascii max_depth top), s1))
  /\ (forall fuel name node depth,
        max_depth <> 0 -> max_depth <= depth ->
        json_slice max_depth top fuel name node depth
        = JObj name (count node) [])
  /\ (forall tee corner pipe dash fuel node prefix depth,
        max_depth <> 0 -> max_depth <= depth + 1 ->
        map line_node
          (_print max_depth top tee corner pipe dash (S fuel) node prefix depth)
        = map (fun kv => (depth + 1, kv.1, count kv.2))
            (shown_children top node))
  /\ (forall node, 0 < top ->
        shown_children top node
        = firstn (Z.to_nat top) (sorted_children node)).
Proof.
  split; [|split; [|split; [|split]]].
  - unfold render_lines, json_root.
    destruct use_ascii; cbn [map json_nodes]; unfold line_node at 1;
      cbn [l_depth l_name l_count]; f_equal;
      rewrite _print_json_slice, flat_map_of_map; reflexivity.
  - intros s0 show_counts.
    destruct (store_print_tree tree s0 use_ascii show_counts max_depth top false)
      as (s1 & Ep & _).
    exists s1. exact Ep.
  - intros fuel name node depth Hne Hle. destruct fuel; [reflexivity|].
    rewrite json_slice_S.
    replace (max_depth =? 0) with false by (symmetry; now apply Z.eqb_neq).
    replace (depth >=? max_depth) with true; [reflexivity|].
    symmetry. apply Z.geb_le. lia.
  - intros tee corner pipe dash fuel node prefix depth Hne Hle.
    rewrite _print_json_slice, <- flat_map_singleton.
    apply flat_map_ext. intros [k c]. cbn [fst snd].
    destruct fuel; [reflexivity|].
    rewrite json_slice_S.
    replace (max_depth =? 0) with false by (symmetry; now apply Z.eqb_neq).
    replace (depth + 1 >=? max_depth) with true; [reflexivity|].
    symmetry. apply Z.geb_le. lia.
  - intros node. apply shown_children_top.
Qed.

Lemma renderers_same_nodes_witness :
  0 < 2
  /\ shown_children 2 tie_node = firstn 2 (sorted_children tie_node).
Proof.
  split; [reflexivity|].
  exact (proj2 (proj2 (proj2 (proj2 (renderers_same_nodes tie_node false 0 2))))
           tie_node eq_refl).
Defined.

(** ** Reading the paths *)


























(** ** Inserting a route *)

Lemma node_at_cons (t : Node) (k : string) (r : list string) :
  node_at t (k :: r)
  = match dict_get (children t) k with
    | Some c => node_at c r
    | None => None
    end.
Proof. reflexivity. Qed.

Lemma ensure_path_cons (t : Node) (k : string) (rest : list string) :
  ensure_path t (k :: rest)
  = mkNode (count t + 1)
      (dict_set (children t) k
         (ensure_path
            (match dict_get (children t) k with
             | Some c => c
             | None => new_node
             end) rest)).
Proof. reflexivity. Qed.

Lemma ensure_path_reaches (parts : list string) :
  forall t, is_Some (node_at (ensure_path t parts) parts).
Proof.
  induction parts as [|k rest IH]; intros t; [destruct t; cbn; eauto|].
  rewrite ensure_path_cons, node_at_cons. cbn [children].
  rewrite dict_get_set_eq. apply IH.
Qed.

Lemma ensure_path_keeps (parts : list string) :
  forall t route,
    is_Some (node_at t route) -> is_Some (node_at (ensure_path t parts) route).
Proof.
  induction parts as [|k rest IH]; intros t route.
  - destruct route; [cbn; eauto | destruct t; exact (fun H => H)].
  - destruct route as [|k' r]; [cbn; eauto|].
    rewrite ensure_path_cons, !node_at_cons. cbn [children].
    destruct (String.eqb_spec k k') as [<-|Hne].
    + rewrite dict_get_set_eq.
      destruct (dict_get (children t) k) as [c|]; [apply IH|].
      intros [x Hx]. discriminate.
    + now rewrite dict_get_set_ne.
Qed.

Lemma node_at_new_node (route : list string) :
  is_Some (node_at new_node route) -> route = [].
Proof. destruct route; [reflexivity|]. intros [x Hx]. discriminate. Qed.

Lemma ensure_path_only_route (parts : list string) :
  forall t route,
    is_Some (node_at (ensure_path t parts) route) ->
    is_Some (node_at t route) \/ route_prefix route parts = true.
Proof.
  induction parts as [|k rest IH]; intros t route.
  - destruct route; [cbn; eauto | destruct t; now left].
  - destruct route as [|k' r]; [cbn; eauto|].
    rewrite ensure_path_cons, !node_at_cons. cbn [children route_prefix].
    destruct (String.eqb_spec k k') as [<-|Hne].
    + rewrite dict_get_set_eq, String.eqb_refl. cbn [andb].
      destruct (dict_get (children t) k) as [c|]; [apply IH|].
      intros H. apply IH in H as [H|H]; [|now right].
      apply node_at_new_node in H as ->. right. now destruct rest.
    + rewrite dict_get_set_ne by assumption. now left.
Qed.

Lemma existsb_keys {V} (d : dict V) (k : string) :
  existsb (String.eqb k) (keys d) = true <-> In k (keys d).
Proof.
  rewrite existsb_exists. split.
  - intros (x & Hx & E). apply String.eqb_eq in E. now subst.
  - intros H. exists k. split; [exact H | apply String.eqb_refl].
Qed.

(** X2: [ensure_path] creates what is missing on the route and keeps what
    is there. Afterwards the route leads to a node; every node that was
    there still is, and a node that is new lies on the route; every node on
    the route has gained one, the root included, and no other count has
    changed. Under the root the names keep their order, a new one going to
    the end, and no name comes to be used twice. *)
Theorem ensure_path_inserts (t : Node) (parts : list string) :
  is_Some (node_at (ensure_path t parts) parts)
  /\ (forall route,
        is_Some (node_at (ensure_path t parts) route)
        <-> is_Some (node_at t route) \/ route_prefix route parts = true)
  /\ (forall route,
        count_at (ensure_path t parts) route
        = count_at t route + (if route_prefix route parts then 1 else 0))
  /\ keys (children (ensure_path t parts))
     = match parts with
       | [] => keys (children t)
       | k :: _ =>
           if existsb (String.eqb k) (keys (children t))
           then keys (children t)
           else (keys (children t) ++ [k])%list
       end
  /\ (wf t -> wf (ensure_path t parts)).
Proof.
  split; [apply ensure_path_reaches|]. split; [|split; [|split]].
  - intros route. split; [apply ensure_path_only_route|].
    intros [H|H]; [now apply ensure_path_keeps|].
    revert t route H. induction parts as [|k rest IH]; intros t route H.
    + destruct route; [cbn; eauto | discriminate].
    + destruct route as [|k' r]; [cbn; eauto|].
      cbn [route_prefix] in H. apply andb_true_iff in H as [Hk Hr].
      apply String.eqb_eq in Hk. subst k'.
      rewrite ensure_path_cons, node_at_cons. cbn [children].
      rewrite dict_get_set_eq. now apply IH.
  - intros route. apply ensure_path_count_at.
  - destruct parts as [|k rest]; [now destruct t|].
    rewrite ensure_path_cons. cbn [children].
    destruct (existsb (String.eqb k) (keys (children t))) eqn:E.
    + apply keys_dict_set_present. now apply existsb_keys.
    + apply keys_dict_set_fresh. intros H. apply existsb_keys in H. congruence.
  - apply ensure_path_wf.
Qed.

Lemma ensure_path_inserts_witness :
  wf (ensure_path etc_conf_tree ["/"; "usr"; "*"]).
Proof.
  apply (ensure_path_inserts etc_conf_tree ["/"; "usr"; "*"]).
  repeat (constructor; cbn; try (intros H; intuition discriminate)).
Defined.

(** ** Counts along the routes of a built trie *)

Lemma counted_unfold (cnt : Z) (chs : dict Node) :
  counted (mkNode cnt chs) = true <->
  sum_counts chs <= cnt
  /\ Forall (fun kc => 1 <= count kc.2 /\ counted kc.2 = true) chs.
Proof.
  cbn [counted]. rewrite andb_true_iff, Z.leb_le, forallb_forall, Forall_forall.
  split; intros [H1 H2]; (split; [exact H1|]); intros kc Hin.
  - apply list_elem_of_In in Hin. specialize (H2 kc Hin).
    apply andb_true_iff in H2 as [H2 H3]. apply Z.leb_le in H2. auto.
  - apply list_elem_of_In in Hin. destruct (H2 kc Hin) as [H3 H4].
    apply andb_true_iff. split; [now apply Z.leb_le | exact H4].
Qed.

Lemma sum_counts_dict_set (d : dict Node) (k : string) (v : Node) :
  sum_counts (dict_set d k v)
  = sum_counts d + count v
    - match dict_get d k with Some c => count c | None => 0 end.
Proof.
  induction d as [|[k' v'] d IH]; cbn [dict_set dict_get sum_counts fold_right snd].
  - lia.
  - destruct (String.eqb k' k); cbn [sum_counts fold_right snd].
    + fold (sum_counts d). lia.
    + fold (sum_counts d) (sum_counts (dict_set d k v)). rewrite IH. lia.
Qed.

Lemma count_ensure_path (t : Node) (parts : list string) :
  count (ensure_path t parts) = count t + 1.
Proof. destruct parts; reflexivity. Qed.

Lemma counted_new_node : counted new_node = true.
Proof. reflexivity. Qed.

Lemma ensure_path_counted (parts : list string) :
  forall t, counted t = true -> counted (ensure_path t parts) = true.
Proof.
  induction parts as [|k rest IH]; intros [cnt chs] Ht;
    apply counted_unfold in Ht as [Hs Hall]; cbn [ensure_path count children];
    apply counted_unfold.
  - split; [lia | exact Hall].
  - rewrite sum_counts_dict_set, count_ensure_path.
    destruct (dict_get chs k) as [c|] eqn:Hc.
    + pose proof (Forall_dict_get _ _ _ _ Hall Hc) as [Hc1 Hc2]. cbn [snd] in *.
      split; [lia|].
      apply Forall_dict_set; [exact Hall|]. cbn [snd].
      rewrite count_ensure_path. split; [lia | now apply IH].
    + split; [cbn [count new_node]; lia|].
      apply Forall_dict_set; [exact Hall|]. cbn [snd].
      rewrite count_ensure_path. split; [cbn; lia | now apply IH].
Qed.

Lemma build_tree_step_invariant (re_search : string -> string -> bool)
    (args : Args.t) (P : Node -> Prop) (paths : list string) :
  P new_node ->
  (forall t parts, P t -> P (ensure_path t parts)) ->
  P (build_tree re_search args paths).
Proof.
  intros H0 Hstep. rewrite build_tree_fold.
  generalize new_node H0. induction paths as [|p paths IH]; intros t Ht;
    cbn [fold_left]; [exact Ht|].
  apply IH. destruct (negb (passes re_search args p)); auto.
Qed.

Lemma build_tree_wf (re_search : string -> string -> bool) (args : Args.t)
    (paths : list string) :
  wf (build_tree re_search args paths).
Proof.
  apply build_tree_step_invariant; [exact wf_new_node|].
  intros t parts Ht. now apply ensure_path_wf.
Qed.

Lemma build_tree_counted (re_search : string -> string -> bool)
    (args : Args.t) (paths : list string) :
  counted (build_tree re_search args paths) = true.
Proof.
  apply build_tree_step_invariant; [reflexivity|].
  intros t parts Ht. now apply ensure_path_counted.
Qed.

Lemma counted_node_at (t : Node) :
  counted t = true ->
  forall route n, node_at t route = Some n -> counted n = true.
Proof.
  induction t as [cnt chs IH] using Node_ind. intros Ht [|k r] n; cbn [node_at children].
  - now intros [= <-].
  - apply counted_unfold in Ht as [_ Hall].
    destruct (dict_get chs k) as [c|] eqn:Hc; [|discriminate].
    apply (Forall_dict_get _ _ _ _ IH Hc).
    apply (Forall_dict_get _ _ _ _ Hall Hc).
Qed.

Lemma sum_counts_ge (chs : dict Node) :
  Forall (fun kc => 1 <= count kc.2 /\ counted kc.2 = true) chs ->
  0 <= sum_counts chs
  /\ Forall (fun kc => count kc.2 <= sum_counts chs) chs.
Proof.
  induction 1 as [|[k c] chs [Hc _] _ [IH0 IH]]; cbn [sum_counts fold_right snd].
  - split; [lia | constructor].
  - fold (sum_counts chs). cbn [snd] in Hc. split; [lia|].
    constructor; [cbn [snd]; lia|].
    eapply Forall_impl; [exact IH|]. cbn. intros kc Hkc. lia.
Qed.

(** X3: in the trie [build_tree] returns, under every node the counts of
    the children add up to at most the count of the node, every child has a
    count between one and the count of its parent, and no name is used
    twice among the children. *)
Theorem build_tree_counts_decrease (re_search : string -> string -> bool)
    (args : Args.t) (paths route : list string) (n : Node) :
  node_at (build_tree re_search args paths) route = Some n ->
  sum_counts (children n) <= count n
  /\ Forall (fun kc => 1 <= count kc.2 <= count n) (children n)
  /\ List.NoDup (keys (children n)).
Proof.
  intros Hn.
  pose proof (counted_node_at _ (build_tree_counted re_search args paths) _ _ Hn)
    as Hc.
  pose proof (wf_node_at _ (build_tree_wf re_search args paths) _ _ Hn) as Hw.
  destruct n as [cnt chs]. apply counted_unfold in Hc as [Hs Hall].
  destruct (sum_counts_ge _ Hall) as [_ Hle].
  destruct (wf_inv _ Hw) as [Hnd _]. cbn [count children] in *.
  repeat split; [exact Hs | | exact Hnd].
  rewrite Forall_forall in *. intros kc Hin.
  specialize (Hall kc Hin). specialize (Hle kc Hin). lia.
Qed.

Lemma build_tree_counts_decrease_witness :
  node_at (build_tree (fun _ _ => false) default_args
             ["/etc/a.conf"; "/etc/b.conf"; "/usr/lib/c.so"]) ["/"]
  = Some (mkNode 3 [("etc", mkNode 2 [("*.conf", mkNode 2 [])]);
                    ("usr", mkNode 1 [("lib", mkNode 1 [("*.so", mkNode 1 [])])])])
  /\ sum_counts [("etc", mkNode 2 [("*.conf", mkNode 2 [])]);
                 ("usr", mkNode 1 [("lib", mkNode 1 [("*.so", mkNode 1 [])])])]
     <= 3.
Proof.
  split; [reflexivity|].
  exact (proj1 (build_tree_counts_decrease (fun _ _ => false) default_args
                  ["/etc/a.conf"; "/etc/b.conf"; "/usr/lib/c.so"] ["/"] _
                  eq_refl)).
Defined.

(** ** Pruning a built trie *)

Lemma assigned_prune_all_kept (T : Z) (chs : dict Node) :
  Forall (fun kc => prune_tree kc.2 T = Some kc.2) chs ->
  assigned (prune_child T) chs = chs.
Proof.
  induction 1 as [|[k c] chs Hc _ IH]; [reflexivity|].
  cbn [assigned]. unfold prune_child at 1. cbn [snd] in Hc.
  now rewrite Hc, IH.
Qed.

Lemma prune_tree_counted (T : Z) (t : Node) :
  wf t -> counted t = true -> T <= 1 -> T <= count t ->
  prune_tree t T = Some t.
Proof.
  induction t as [cnt chs IH] using Node_ind. intros Hwf Hc HT Hge.
  destruct (wf_inv _ Hwf) as [Hnd Hall].
  apply counted_unfold in Hc as [_ Hc]. cbn [count children] in *.
  rewrite prune_tree_unfold.
  replace (cnt <? T) with false by (symmetry; apply Z.ltb_ge; lia).
  rewrite dict_build_nil by eauto using prune_child_keeps_key.
  rewrite assigned_prune_all_kept; [reflexivity|].
  rewrite Forall_forall in *. intros kc Hin.
  destruct (Hc kc Hin) as [H1 H2]. apply IH; auto. lia.
Qed.

(** X4: a threshold of at most one prunes nothing: when at least one path
    passes the inclusion filter, [prune_tree] returns the built trie as it
    is. *)
Theorem prune_tree_min_count_one (re_search : string -> string -> bool)
    (args : Args.t) (paths : list string) (T : Z) :
  T <= 1 ->
  List.filter (passes re_search args) paths <> [] ->
  prune_tree (build_tree re_search args paths) T
  = Some (build_tree re_search args paths).
Proof.
  intros HT Hne.
  apply prune_tree_counted;
    [apply build_tree_wf | apply build_tree_counted | exact HT |].
  change (count (build_tree re_search args paths))
    with (count_at (build_tree re_search args paths) []).
  rewrite build_tree_fold, fold_step_count_at, through_nil.
  change (count_at new_node []) with 0.
  destruct (List.filter _ paths); [congruence|]. cbn [length]. lia.
Qed.

Lemma prune_tree_min_count_one_witness :
  prune_tree (build_tree (fun _ _ => false) default_args etc_conf_paths) 1
  = Some (build_tree (fun _ _ => false) default_args etc_conf_paths).
Proof.
  apply prune_tree_min_count_one; [lia | vm_compute; discriminate].
Defined.

Lemma survivesb_counted (T : Z) (t : Node) :
  counted t = true ->
  forall route n,
    node_at t route = Some n -> T <= count n -> survivesb T t route = true.
Proof.
  induction t as [cnt chs IH] using Node_ind. intros Hc route n Hn Hge.
  apply counted_unfold in Hc as [Hs Hall].
  destruct (sum_counts_ge _ Hall) as [_ Hle].
  destruct route as [|k r]; cbn [survivesb node_at count children] in *.
  - injection Hn as <-. cbn [count] in *.
    replace (cnt <? T) with false by (symmetry; apply Z.ltb_ge; lia).
    reflexivity.
  - destruct (dict_get chs k) as [c|] eqn:Hk; [|discriminate].
    pose proof (Forall_dict_get _ _ _ _ IH Hk) as IHc.
    pose proof (Forall_dict_get _ _ _ _ Hall Hk) as [_ Hcc].
    pose proof (Forall_dict_get _ _ _ _ Hle Hk) as Hck.
    cbn beta iota delta [snd] in IHc, Hcc, Hck.
    specialize (IHc Hcc r n Hn Hge). rewrite IHc.
    apply survivesb_root in IHc.
    replace (cnt <? T) with false by (symmetry; apply Z.ltb_ge; lia).
    reflexivity.
Qed.

(** X5: in a built trie the counts do not grow along a route, so the
    count of a node alone decides whether [prune_tree] keeps it: a route
    leads to a node of the pruned trie exactly when it leads to a node of
    the built trie whose count is at least the threshold. *)
Theorem prune_tree_keeps_by_own_count (re_search : string -> string -> bool)
    (args : Args.t) (paths : list string) (T : Z) (t' : Node)
    (route : list string) :
  prune_tree (build_tree re_search args paths) T = Some t' ->
  (is_Some (node_at t' route) <->
   exists n, node_at (build_tree re_search args paths) route = Some n
             /\ T <= count n).
Proof.
  intros Hp.
  pose proof (build_tree_wf re_search args paths) as Hwf.
  pose proof (build_tree_counted re_search args paths) as Hc.
  rewrite (prune_node_at T _ Hwf t' route Hp).
  split.
  - destruct (survivesb T _ route) eqn:Hs; [|intros [x Hx]; discriminate].
    intros _. now apply survivesb_node_at.
  - intros (n & Hn & Hge).
    rewrite (survivesb_counted T _ Hc route n Hn Hge), Hn.
    destruct (prune_tree n T) eqn:E; [eauto|].
    apply prune_tree_None in E. lia.
Qed.

Lemma prune_tree_keeps_by_own_count_witness :
  is_Some (node_at (mkNode 3 [("/", mkNode 3 [("a", mkNode 2 [("*.txt", mkNode 2 [])])])])
             ["/"; "a"])
  <-> exists n,
        node_at (build_tree (fun _ _ => false) default_args
                   ["/a/x.txt"; "/a/y.txt"; "/b/z"]) ["/"; "a"] = Some n
        /\ 2 <= count n.
Proof.
  apply (prune_tree_keeps_by_own_count (fun _ _ => false) default_args
           ["/a/x.txt"; "/a/y.txt"; "/b/z"] 2).
  reflexivity.
Defined.

Lemma prune_child_Some (T : Z) (k : string) (c c' : Node) :
  prune_tree c T = Some c' -> prune_child T k c = Some (k, c').
Proof. unfold prune_child. now intros ->. Qed.

Lemma prune_child_None (T : Z) (k : string) (c : Node) :
  prune_tree c T = None -> prune_child T k c = None.
Proof. unfold prune_child. now intros ->. Qed.

Lemma assigned_prune_max (T1 T2 : Z) (chs : dict Node) :
  Forall (fun kc => forall t1, prune_tree kc.2 T1 = Some t1 ->
                    prune_tree t1 T2 = prune_tree kc.2 (Z.max T1 T2)) chs ->
  assigned (prune_child T2) (assigned (prune_child T1) chs)
  = assigned (prune_child (Z.max T1 T2)) chs.
Proof.
  induction 1 as [|[k c] chs Hc _ IH]; [reflexivity|].
  cbn [assigned snd] in *.
  destruct (prune_tree c T1) as [c1|] eqn:E1.
  - rewrite (prune_child_Some _ _ _ _ E1). cbn [assigned].
    specialize (Hc _ eq_refl).
    destruct (prune_tree c (Z.max T1 T2)) as [c2|] eqn:E2.
    + rewrite (prune_child_Some _ _ _ _ E2), (prune_child_Some _ _ _ _ Hc).
      now rewrite IH.
    + rewrite (prune_child_None _ _ _ E2), (prune_child_None _ _ _ Hc).
      exact IH.
  - rewrite (prune_child_None _ _ _ E1).
    apply prune_tree_None in E1.
    rewrite (prune_child_None (Z.max T1 T2) k c);
      [exact IH | apply prune_tree_None; lia].
Qed.

(** X6: pruning with one threshold and then with another is pruning once
    with the larger of the two; in particular the order of the two
    thresholds does not matter. *)
Theorem prune_tree_twice (t t1 : Node) (T1 T2 : Z) :
  wf t ->
  prune_tree t T1 = Some t1 ->
  prune_tree t1 T2 = prune_tree t (Z.max T1 T2).
Proof.
  revert t1. induction t as [cnt chs IH] using Node_ind. intros t1 Hwf Hp.
  destruct (prune_tree_Some _ _ _ Hwf Hp) as [Hge ->].
  destruct (wf_inv _ Hwf) as [Hnd Hall]. cbn [count children] in *.
  rewrite !prune_tree_unfold.
  destruct (Z.ltb_spec cnt T2), (Z.ltb_spec cnt (Z.max T1 T2));
    try reflexivity; try lia.
  rewrite !dict_build_nil;
    eauto using prune_child_keeps_key, NoDup_keys_assigned.
  rewrite assigned_prune_max; [reflexivity|].
  rewrite Forall_forall in *. intros kc Hin t1. apply IH; auto.
Qed.

Lemma prune_tree_twice_witness :
  prune_tree (mkNode 3 [("/", mkNode 3 [("a", mkNode 2 [("*.txt", mkNode 2 [])])])]) 3
  = prune_tree (built prune_demo_seqs) (Z.max 2 3).
Proof.
  apply prune_tree_twice; [apply built_wf | reflexivity].
Defined.

(** ** What collapsing keeps *)

Lemma collapse_children_plain (cnt : Z) (chs : dict Node) :
  plain (mkNode cnt chs) = true ->
  dict_build collapse_child chs []
  = map (fun kc => collapse_chains kc.1 kc.2) chs.
Proof.
  intros Hp. destruct (plain_inv _ _ Hp) as [Hnd Hall].
  rewrite dict_build_append; [now rewrite assigned_collapse|].
  cbn [keys map app]. fold (keys (assigned collapse_child chs)).
  rewrite assigned_collapse. apply collapsed_keys_NoDup; [assumption|].
  intros k c Hin. destruct (Hall k c Hin) as (Hn & Hs & Hpc).
  split; [exact Hs|]. exact (proj1 (collapse_chains_plain c Hpc k Hn)).
Qed.

Lemma leaf_paths_unfold (name : string) (cnt : Z) (chs : dict Node) :
  chs <> [] ->
  leaf_paths name (mkNode cnt chs)
  = flat_map (fun kc => leaf_paths (name +:+ "/" +:+ kc.1) kc.2) chs.
Proof. destruct chs; [congruence | reflexivity]. Qed.

Lemma leaf_paths_prefix (p : string) (t : Node) :
  forall name,
    leaf_paths (p +:+ name) t
    = map (fun x => (p +:+ x.1, x.2)) (leaf_paths name t).
Proof.
  induction t as [cnt chs IH] using Node_ind. intros name.
  destruct chs as [|kc chs]; [reflexivity|].
  rewrite !leaf_paths_unfold by discriminate.
  rewrite map_flat_map. apply flat_map_ext_in. intros [k c] Hin.
  rewrite Forall_forall in IH. apply list_elem_of_In in Hin.
  cbn [fst snd]. rewrite <- (IH (k, c) Hin). now rewrite append_assoc.
Qed.

Lemma collapse_chains_leaf_paths (t : Node) :
  plain t = true ->
  forall name, Str.nonempty name = true ->
    leaf_paths (collapse_chains name t).1 (collapse_chains name t).2
    = leaf_paths name t.
Proof.
  induction t as [cnt chs IH] using Node_ind. intros Hp name Hname.
  destruct (plain_inv _ _ Hp) as [Hnd Hall].
  destruct (Nat.eq_dec (length chs) 1%nat) as [Hone|Hmany].
  - destruct chs as [|[k c] [|y l]]; try discriminate Hone.
    rewrite (collapse_chains_single name cnt k c), Hname.
    destruct (Hall k c (or_introl eq_refl)) as (_ & _ & Hpc).
    apply Forall_inv in IH. cbn [snd] in IH.
    rewrite (IH Hpc _ (nonempty_append _ _ Hname)).
    rewrite leaf_paths_unfold by discriminate. cbn [flat_map fst snd].
    now rewrite app_nil_r.
  - rewrite collapse_chains_branch by assumption. cbn [fst snd].
    rewrite (collapse_children_plain cnt) by assumption.
    destruct chs as [|kc chs]; [reflexivity|].
    rewrite !leaf_paths_unfold by discriminate.
    rewrite flat_map_of_map. apply flat_map_ext_in. intros [k c] Hin.
    cbn [fst snd]. destruct (Hall k c Hin) as (Hn & _ & Hpc).
    rewrite Forall_forall in IH. apply list_elem_of_In in Hin.
    rewrite <- !append_assoc.
    rewrite !(leaf_paths_prefix (name +:+ "/")).
    f_equal. exact (IH (k, c) Hin Hpc k Hn).
Qed.

(** X7: on a tree with distinct, non-empty, separator-free names and for
    a non-empty name, [collapse_chains] extends the name by the names of
    the chain it followed, returns a tree in which no node has exactly one
    child and no name is used twice among siblings, and is idempotent; the
    returned tree is not higher than the tree it was given. *)
Theorem collapse_chains_normal_form (name : string) (t : Node) :
  plain t = true -> Str.nonempty name = true ->
  (exists sfx, chain_suffix sfx = true
               /\ (collapse_chains name t).1 = name +:+ sfx)
  /\ collapsed (collapse_chains name t).2 = true
  /\ wf (collapse_chains name t).2
  /\ collapse_chains (collapse_chains name t).1 (collapse_chains name t).2
     = collapse_chains name t
  /\ (height (collapse_chains name t).2 <= height t)%nat.
Proof.
  intros Hp Hn. destruct (collapse_chains_plain t Hp name Hn) as (Hs & Hw & Hc).
  repeat split; try assumption.
  - rewrite collapse_chains_fixed by assumption.
    now destruct (collapse_chains name t).
  - apply height_collapse_chains.
Qed.

Lemma collapse_chains_normal_form_witness :
  collapsed
    (collapse_chains "usr"
       (mkNode 7 [("share", mkNode 7 [("doc", mkNode 7
          [("*.txt", mkNode 4 []);
           ("man", mkNode 3 [("*.gz", mkNode 3 [])])])])])).2 = true.
Proof.
  refine (proj1 (proj2 (collapse_chains_normal_form "usr" _ _ _)));
    reflexivity.
Defined.

(** X8: collapsing keeps what the tree says about its leaves: the
    childless nodes, each with its count and with the names on the way to
    it joined by the separator, are the same, in the same order, after
    [collapse_chains] as before. *)
Theorem collapse_chains_keeps_leaf_paths (name : string) (t : Node) :
  plain t = true -> Str.nonempty name = true ->
  leaf_paths (collapse_chains name t).1 (collapse_chains name t).2
  = leaf_paths name t.
Proof. intros Hp Hn. now apply collapse_chains_leaf_paths. Qed.

Lemma collapse_chains_keeps_leaf_paths_witness :
  leaf_paths "usr/share/doc"
    (mkNode 7 [("*.txt", mkNode 4 []); ("man/*.gz", mkNode 3 [])])
  = [("usr/share/doc/*.txt", 4); ("usr/share/doc/man/*.gz", 3)].
Proof.
  exact (collapse_chains_keeps_leaf_paths "usr"
           (mkNode 7 [("share", mkNode 7 [("doc", mkNode 7
              [("*.txt", mkNode 4 []);
               ("man", mkNode 3 [("*.gz", mkNode 3 [])])])])])
           eq_refl eq_refl).
Defined.

(** ** [collapse_chains] on node objects *)

(** X9: on node objects that form a tree (no object is reached twice)
    [collapse_chains] in place does not run out of fuel when the fuel
    covers the height; it returns the name and, at the location returned,
    the tree that the function on tree values returns; at the location it
    was called on it leaves the chain untouched down to the node the chain
    ends in; it allocates nothing and changes no object outside the tree. *)
Theorem collapse_chains_in_place (lt : LNode) (s : Store.store)
    (name : string) (fuel : nat) :
  holds s lt -> List.NoDup (all_locs lt) ->
  (height (erase lt) <= fuel)%nat ->
  exists (l' : Store.loc) (s' : Store.store),
    Store.collapse_chains fuel name (ln_loc lt) s
    = Some ((collapse_chains name (erase lt)).1, l', s')
    /\ In l' (all_locs lt)
    /\ Store.snapshot (S (length s')) s' l'
       = Some (collapse_chains name (erase lt)).2
    /\ Store.snapshot (S (length s')) s' (ln_loc lt)
       = Some (collapse_left (erase lt))
    /\ length s' = length s
    /\ (forall l, ~ In l (all_locs lt) -> s' !! l = s !! l).
Proof.
  intros Hh Hnd Hf.
  destruct (store_collapse_chains lt s name fuel Hh Hnd Hf)
    as (lt' & lt0 & s' & E & [Hr Hh' Hl' Hl0 Hr0 Hh0 _ Hlen Hfr]).
  pose proof (holds_height s lt Hh Hnd) as Hheight.
  exists (ln_loc lt'), s'. repeat split; try assumption.
  - apply Hl'. destruct lt'. now left.
  - rewrite <- Hr. apply snapshot_holds; [assumption|].
    rewrite Hr, Hlen. etransitivity; [apply height_collapse_chains|]. lia.
  - rewrite <- Hl0, <- Hr0. apply snapshot_holds; [assumption|].
    rewrite Hr0, Hlen. etransitivity; [apply height_collapse_left|]. lia.
Qed.

Lemma collapse_chains_in_place_witness :
  exists (l' : Store.loc) (s' : Store.store),
    Store.collapse_chains 3 "etc" 1%nat
      [Store.mkObj 1 []; Store.mkObj 1 [("*.conf", 0%nat)]]
    = Some ((collapse_chains "etc" (mkNode 1 [("*.conf", mkNode 1 [])])).1,
            l', s')
    /\ In l' [1%nat; 0%nat]
    /\ Store.snapshot (S (length s')) s' l'
       = Some (collapse_chains "etc" (mkNode 1 [("*.conf", mkNode 1 [])])).2
    /\ Store.snapshot (S (length s')) s' 1%nat
       = Some (collapse_left (mkNode 1 [("*.conf", mkNode 1 [])]))
    /\ length s' = 2%nat
    /\ (forall l, ~ In l [1%nat; 0%nat] ->
        s' !! l = [Store.mkObj 1 []; Store.mkObj 1 [("*.conf", 0%nat)]] !! l).
Proof.
  apply (collapse_chains_in_place (mkL 1%nat 1 [("*.conf", mkL 0%nat 1 [])])
           [Store.mkObj 1 []; Store.mkObj 1 [("*.conf", 0%nat)]] "etc" 3).
  - constructor; [reflexivity|]. constructor; [|constructor].
    constructor; [reflexivity | constructor].
  - cbn. repeat constructor; cbn; intuition discriminate.
  - cbn. lia.
Defined.

(** ** [print_tree] and [main] for every input *)

Lemma keys_collapse_left_map (chs : dict Node) :
  keys (map (fun kc => (kc.1, collapse_left kc.2)) chs) = keys chs.
Proof. unfold keys. rewrite map_map. reflexivity. Qed.

Lemma count_collapse_left (t : Node) : count (collapse_left t) = count t.
Proof. destruct t as [cnt [|[k c] [|y l]]]; reflexivity. Qed.

(** X10: [print_tree] returns for every tree and every setting; it prints
    the rendering of the working view, which with [compact] holds the
    collapsed children of the root. The node it was given keeps its count
    and the names and counts of its children; without [compact] the whole
    tree is left as it was. *)
Theorem print_tree_result (t : Node) (s0 : Store.store)
    (use_ascii show_counts : bool) (max_depth top : Z) (compact : bool) :
  exists s1 left,
    Store.print_tree (Store.alloc_tree t s0).2 (Store.alloc_tree t s0).1
      use_ascii show_counts max_depth top compact
    = Some (render_text (print_tree_view compact t) use_ascii show_counts
              max_depth top, s1)
    /\ Store.snapshot (S (length s1)) s1 (Store.alloc_tree t s0).1 = Some left
    /\ count left = count t
    /\ map (fun kc => (kc.1, count kc.2)) (children left)
       = map (fun kc => (kc.1, count kc.2)) (children t)
    /\ (compact = false -> left = t).
Proof.
  destruct (store_print_tree t s0 use_ascii show_counts max_depth top compact)
    as (s1 & E1 & E2).
  exists s1, (print_tree_left compact t). repeat split; try assumption.
  - now destruct compact.
  - destruct compact; [|reflexivity]. cbn [print_tree_left children].
    rewrite map_map. apply map_ext. intros [k c]. cbn [fst snd].
    now rewrite count_collapse_left.
  - now intros ->.
Qed.

Lemma print_tree_result_witness :
  exists s1 left,
    Store.print_tree (Store.alloc_tree two_dirs_tree []).2
      (Store.alloc_tree two_dirs_tree []).1 true true 0 0 false
    = Some (render_text (print_tree_view false two_dirs_tree) true true 0 0, s1)
    /\ Store.snapshot (S (length s1)) s1 (Store.alloc_tree two_dirs_tree []).1
       = Some left
    /\ left = two_dirs_tree.
Proof.
  destruct (print_tree_result two_dirs_tree [] true true 0 0 false)
    as (s1 & left & E1 & E2 & _ & _ & E3).
  exists s1, left. repeat split; [exact E1 | exact E2 | exact (E3 eq_refl)].
Defined.

(** ** Limits of the renderers *)

Lemma length_sorted_children (node : Node) :
  length (sorted_children node) = length (children node).
Proof. apply Permutation_length, sorted_children_perm. Qed.

Lemma shown_children_zero (node : Node) :
  shown_children 0 node = sorted_children node.
Proof. reflexivity. Qed.

Lemma shown_children_negative (top : Z) (node : Node) :
  top < 0 ->
  shown_children top node
  = firstn (length (children node) - Z.to_nat (- top)) (sorted_children node).
Proof.
  intros Htop. unfold shown_children, slice_to.
  replace (top =? 0) with false by (symmetry; apply Z.eqb_neq; lia).
  replace (top <? 0) with true by (symmetry; apply Z.ltb_lt; lia).
  replace (Z.of_nat (length (sorted_children node)) >? top) with true
    by (symmetry; apply Z.gtb_lt; lia).
  cbn [negb andb]. rewrite length_sorted_children. f_equal. lia.
Qed.

Lemma render_lines_depth_one (t : Node) (use_ascii : bool) (max_depth top : Z) :
  max_depth <> 0 -> max_depth <= 1 ->
  render_lines t use_ascii max_depth top = render_lines t use_ascii 1 top.
Proof.
  intros H0 H1. unfold render_lines. destruct use_ascii; f_equal;
    rewrite !_print_S; cbv zeta; apply flat_map_ext_in; intros ikv _;
    replace (max_depth =? 0) with false by (symmetry; apply Z.eqb_neq; lia);
    replace (0 + 1 >=? max_depth) with true by (symmetry; apply Z.geb_le; lia);
    reflexivity.
Qed.

Lemma json_root_depth_one (t : Node) (max_depth top : Z) :
  max_depth <> 0 -> max_depth <= 1 ->
  json_root max_depth top t = json_root 1 top t.
Proof.
  intros H0 H1. unfold json_root. f_equal. apply map_ext. intros [k c].
  destruct t as [cnt chs]. rewrite height_unfold, !json_slice_S.
  replace (max_depth =? 0) with false by (symmetry; apply Z.eqb_neq; lia).
  replace (1 >=? max_depth) with true by (symmetry; apply Z.geb_le; lia).
  reflexivity.
Qed.

(** X11: the limits at their edges. A negative [--max-depth] acts like a
    depth of one in both renderers: only the root and its children are
    shown. A [--top] of zero shows all children, a positive one at most
    that many, and a negative one drops that many children from the end of
    every level, so that nothing is shown where there are no more. *)
Theorem renderer_limits_at_the_edges (t : Node) (use_ascii : bool)
    (max_depth top : Z) :
  (max_depth < 0 ->
   render_lines t use_ascii max_depth top = render_lines t use_ascii 1 top
   /\ json_root max_depth top t = json_root 1 top t)
  /\ shown_children 0 t = sorted_children t
  /\ (0 < top ->
      length (shown_children top t)
      = Nat.min (Z.to_nat top) (length (children t)))
  /\ (top < 0 ->
      shown_children top t
      = firstn (length (children t) - Z.to_nat (- top)) (sorted_children t)).
Proof.
  repeat split.
  - apply render_lines_depth_one; lia.
  - apply json_root_depth_one; lia.
  - intros Htop. rewrite shown_children_top by assumption.
    now rewrite length_firstn, length_sorted_children.
  - apply shown_children_negative.
Qed.

Lemma renderer_limits_at_the_edges_witness :
  shown_children (-1) tie_node
  = firstn (length (children tie_node) - Z.to_nat (- -1))
      (sorted_children tie_node)
  /\ render_lines tie_node true (-3) 0 = render_lines tie_node true 1 0.
Proof.
  split.
  - apply (renderer_limits_at_the_edges tie_node true 0 (-1)). lia.
  - apply (renderer_limits_at_the_edges tie_node true (-3) 0). lia.
Defined.

(** ** Every node is printed once *)

Lemma size_unfold (cnt : Z) (chs : dict Node) :
  size (mkNode cnt chs) = S (list_sum (map (fun kc => size kc.2) chs)).
Proof. reflexivity. Qed.

Lemma list_sum_perm (l1 l2 : list nat) :
  Permutation l1 l2 -> list_sum l1 = list_sum l2.
Proof.
  induction 1; cbn [list_sum fold_right] in *; try fold (list_sum l) in *;
    try lia.
  - fold (list_sum l'). lia.
Qed.

Lemma length_flat_map_sum {A B} (f : A -> list B) (l : list A) :
  length (flat_map f l) = list_sum (map (fun x => length (f x)) l).
Proof.
  induction l as [|x l IH]; [reflexivity|].
  cbn [flat_map map list_sum fold_right]. rewrite length_app, IH. reflexivity.
Qed.

Lemma map_snd_enumerate {A} (items : list A) :
  forall a, map snd (combine (seq a (length items)) items) = items.
Proof.
  induction items as [|x items IH]; intros a; [reflexivity|].
  cbn [length seq combine map snd]. now rewrite IH.
Qed.

Lemma length__print_all (tee corner pipe dash : string) (fuel : nat) :
  forall (node : Node) (prefix : string) (depth : Z),
    (height node <= fuel)%nat ->
    S (length (_print 0 0 tee corner pipe dash fuel node prefix depth))
    = size node.
Proof.
  induction fuel as [|fuel IH]; intros node prefix depth Hh.
  - destruct node. cbn [height] in Hh. lia.
  - rewrite _print_S. cbv zeta. rewrite shown_children_zero.
    rewrite length_flat_map_sum.
    rewrite (map_ext_in _ (fun ikv : nat * (string * Node) => size ikv.2.2)).
    + rewrite <- (map_map snd (fun kv : string * Node => size kv.2)).
      rewrite map_snd_enumerate.
      destruct node as [cnt chs]. rewrite size_unfold. f_equal.
      apply list_sum_perm, Permutation_map.
      apply (sorted_children_perm (mkNode cnt chs)).
    + intros [i [k c]] Hin. cbn [fst snd negb andb Z.eqb length].
      apply in_combine_r in Hin.
      apply (Permutation_in _ (sorted_children_perm node)) in Hin.
      apply height_child in Hin. apply IH. lia.
Qed.

(** X12: without [--max-depth] and [--top] the text renderer prints one
    line for every node of the tree it is given, the root included. *)
Theorem render_lines_every_node (t : Node) (use_ascii : bool) :
  length (render_lines t use_ascii 0 0) = size t.
Proof.
  unfold render_lines. destruct use_ascii; cbn [length];
    apply length__print_all; lia.
Qed.

(** ** No line below the depth limit *)

Lemma _print_depths (max_depth top : Z) (tee corner pipe dash : string)
    (fuel : nat) :
  0 < max_depth ->
  forall (node : Node) (prefix : string) (depth : Z),
    depth < max_depth ->
    Forall (fun l => depth < l_depth l <= max_depth)
      (_print max_depth top tee corner pipe dash fuel node prefix depth).
Proof.
  intros Hmd. induction fuel as [|fuel IH]; intros node prefix depth Hd;
    [constructor|].
  rewrite _print_S. cbv zeta. apply Forall_flat_map, Forall_forall.
  intros [i [k c]] _. cbn [fst snd].
  replace (max_depth =? 0) with false by (symmetry; apply Z.eqb_neq; lia).
  cbn [negb andb].
  destruct (Z.geb_spec (depth + 1) max_depth).
  - constructor; [cbn [l_depth]; lia | constructor].
  - constructor; [cbn [l_depth]; lia|].
    eapply Forall_impl; [apply IH; lia|]. cbn beta. intros l Hl. lia.
Qed.

(** X13: with a positive [--max-depth] the text renderer prints no line
    for a node deeper than the limit; the root is at depth zero. *)
Theorem render_lines_within_max_depth (t : Node) (use_ascii : bool)
    (max_depth top : Z) :
  0 < max_depth ->
  Forall (fun l => 0 <= l_depth l <= max_depth)
    (render_lines t use_ascii max_depth top).
Proof.
  intros Hmd. unfold render_lines.
  destruct use_ascii; (constructor; [cbn [l_depth]; lia|]);
    (eapply Forall_impl; [apply _print_depths; lia|]); cbn beta;
    intros l Hl; lia.
Qed.

Lemma render_lines_within_max_depth_witness :
  Forall (fun l => 0 <= l_depth l <= 2) (render_lines two_dirs_tree true 2 0).
Proof. apply render_lines_within_max_depth. lia. Defined.

(** ** The set [collect_filters] returns *)

Section WalkFacts.
Variable mode : FilterMode.

Lemma walk_unfold (name : string) (node : Node) (stack : list string)
    (out : gset string) :
  walk mode name node stack out
  = if is_leaf_name name then
      if mode_ext mode
      then out ∪ {[ Posix.join (current_dir_path stack) name ]} else out
    else
      fold_left (fun out kc => walk mode kc.1 kc.2 (stack ++ [name]) out)
        (children node)
        (if mode_dir mode
         then out ∪ {[ Posix.join (current_dir_path (stack ++ [name])) "**" ]}
         else out).
Proof. destruct node. reflexivity. Qed.

Lemma fold_walk_acc (chs : dict Node) (stack : list string) :
  Forall (fun kc => forall name stack out,
            walk mode name kc.2 stack out
            = out ∪ walk mode name kc.2 stack ∅) chs ->
  forall out,
    fold_left (fun out kc => walk mode kc.1 kc.2 stack out) chs out
    = out ∪ walks mode chs stack.
Proof.
  unfold walks. induction 1 as [|[k c] chs Hc _ IH]; intros out;
    cbn [fold_left fst snd] in *.
  - set_solver.
  - rewrite IH, (IH (walk mode k c stack ∅)), Hc. set_solver.
Qed.

Lemma walk_acc (node : Node) :
  forall name stack out,
    walk mode name node stack out = out ∪ walk mode name node stack ∅.
Proof.
  induction node as [cnt chs IH] using Node_ind. intros name stack out.
  rewrite !(walk_unfold name (mkNode cnt chs)). cbn [children].
  destruct (is_leaf_name name).
  - destruct (mode_ext mode); set_solver.
  - rewrite !(fold_walk_acc chs (stack ++ [name]) IH).
    destruct (mode_dir mode); set_solver.
Qed.

Lemma walks_acc (chs : dict Node) (stack : list string) (out : gset string) :
  fold_left (fun out kc => walk mode kc.1 kc.2 stack out) chs out
  = out ∪ walks mode chs stack.
Proof.
  apply fold_walk_acc, Forall_forall. intros kc _. apply walk_acc.
Qed.

Lemma walks_cons (k : string) (c : Node) (chs : dict Node)
    (stack : list string) :
  walks mode ((k, c) :: chs) stack
  = walk mode k c stack ∅ ∪ walks mode chs stack.
Proof. unfold walks at 1. cbn [fold_left fst snd]. apply walks_acc. Qed.

Lemma walk_node (name : string) (node : Node) (stack : list string) :
  walk mode name node stack ∅
  = if is_leaf_name name then
      if mode_ext mode
      then {[ Posix.join (current_dir_path stack) name ]} else ∅
    else
      (if mode_dir mode
       then {[ Posix.join (current_dir_path (stack ++ [name])) "**" ]}
       else ∅)
      ∪ walks mode (children node) (stack ++ [name]).
Proof.
  rewrite walk_unfold. destruct (is_leaf_name name).
  - destruct (mode_ext mode); set_solver.
  - rewrite walks_acc. destruct (mode_dir mode); set_solver.
Qed.

Lemma collect_filters_walks (node : Node) (path_stack : list string) :
  collect_filters mode node path_stack = walks mode (children node) [].
Proof. reflexivity. Qed.

Lemma walks_dict_get (chs : dict Node) (k : string) (c : Node)
    (stack : list string) :
  dict_get chs k = Some c -> walk mode k c stack ∅ ⊆ walks mode chs stack.
Proof.
  induction chs as [|[k' c'] chs IH]; cbn [dict_get]; [discriminate|].
  rewrite walks_cons. destruct (String.eqb_spec k' k) as [->|Hne].
  - intros [= ->]. set_solver.
  - intros H. specialize (IH H). set_solver.
Qed.

Lemma walks_dict_set (chs : dict Node) (k : string) (v : Node)
    (stack : list string) :
  (forall c, dict_get chs k = Some c ->
             walk mode k c stack ∅ ⊆ walk mode k v stack ∅) ->
  walks mode (dict_set chs k v) stack
  = walks mode chs stack ∪ walk mode k v stack ∅.
Proof.
  induction chs as [|[k' c'] chs IH]; cbn [dict_get dict_set]; intros Hsub.
  - rewrite walks_cons. unfold walks. cbn [fold_left]. set_solver.
  - destruct (String.eqb_spec k' k) as [->|Hne].
    + specialize (Hsub c' eq_refl). rewrite !walks_cons. set_solver.
    + rewrite !walks_cons, IH by exact Hsub. set_solver.
Qed.

(** Inserting a route adds the filters of the route. *)
Lemma ensure_path_walks (parts : list string) :
  forall (t : Node) (stack : list string),
    walks mode (children (ensure_path t parts)) stack
    = walks mode (children t) stack ∪ route_filters mode parts stack.
Proof.
  induction parts as [|k rest IH]; intros [cnt chs] stack;
    cbn [ensure_path children route_filters].
  - set_solver.
  - set (child := match dict_get chs k with Some c => c | None => new_node end).
    assert (Hnew : walk mode k (ensure_path child rest) stack ∅
                   = walk mode k child stack ∅
                     ∪ route_filters mode (k :: rest) stack).
    { rewrite !walk_node, IH. cbn [route_filters].
      destruct (is_leaf_name k); [|destruct (mode_dir mode)]; set_solver. }
    rewrite walks_dict_set.
    + rewrite Hnew. unfold child. destruct (dict_get chs k) as [c|] eqn:Hc.
      * pose proof (walks_dict_get chs k c stack Hc). cbn [route_filters].
        set_solver.
      * rewrite (walk_node k new_node). cbn [children new_node route_filters].
        unfold walks. cbn [fold_left].
        destruct (is_leaf_name k); [|destruct (mode_dir mode)]; set_solver.
    + intros c Hc. rewrite Hnew. unfold child. rewrite Hc. set_solver.
Qed.
End WalkFacts.

(** X14: [collect_filters] follows the routes that were inserted: after
    [ensure_path] the set holds the filters it held before and those of the
    new route, so the filters of the trie that [build_tree] returns are
    exactly the filters of the routes of the paths that pass the inclusion
    filter. *)
Theorem collect_filters_of_routes (mode : FilterMode)
    (re_search : string -> string -> bool) (args : Args.t) :
  (forall t parts,
     collect_filters mode (ensure_path t parts) []
     = collect_filters mode t [] ∪ route_filters mode parts [])
  /\ (forall paths f,
        f ∈ collect_filters mode (build_tree re_search args paths) []
        <-> exists p,
              In p paths /\ passes re_search args p = true
              /\ f ∈ route_filters mode
                       (path_to_parts p (Args.ext_mode args)) []).
Proof.
  assert (Hstep : forall t parts,
            collect_filters mode (ensure_path t parts) []
            = collect_filters mode t [] ∪ route_filters mode parts []).
  { intros t parts. rewrite !collect_filters_walks. apply ensure_path_walks. }
  split; [exact Hstep|].
  intros paths f. rewrite build_tree_fold.
  assert (Hgen : forall t,
            f ∈ collect_filters mode
                  (fold_left
                     (fun root path =>
                        if negb (passes re_search args path) then root
                        else ensure_path root
                               (path_to_parts path (Args.ext_mode args)))
                     paths t) []
            <-> f ∈ collect_filters mode t []
                \/ exists p,
                     In p paths /\ passes re_search args p = true
                     /\ f ∈ route_filters mode
                              (path_to_parts p (Args.ext_mode args)) []).
  { induction paths as [|p paths IH]; intros t; cbn [fold_left].
    - split; [now left | intros [H|(p & [] & _)]; exact H].
    - rewrite IH. destruct (passes re_search args p) eqn:Hp; cbn [negb].
      + rewrite Hstep, elem_of_union. split.
        * intros [[H|H]|(q & Hq & H)]; [now left | |].
          -- right. exists p. split; [now left | now split].
          -- right. exists q. split; [now right | exact H].
        * intros [H|(q & [<-|Hq] & Hpass & H)]; [now left; left | |].
          -- left. now right.
          -- right. exists q. now split.
      + split.
        * intros [H|(q & Hq & H)]; [now left|].
          right. exists q. split; [now right | exact H].
        * intros [H|(q & [<-|Hq] & Hpass & H)]; [now left | congruence |].
          right. exists q. now split. }
  rewrite Hgen. split; [intros [H|H]; [|exact H] | now right].
  rewrite collect_filters_walks in H. cbn in H. set_solver.
Qed.

(** ** The modes *)

Lemma walk_all (node : Node) :
  forall name stack,
    walk all name node stack ∅
    = walk ext name node stack ∅ ∪ walk dir name node stack ∅.
Proof.
  induction node as [cnt chs IH] using Node_ind. intros name stack.
  rewrite !walk_node. cbn [mode_ext mode_dir children].
  destruct (is_leaf_name name); [set_solver|].
  assert (H : walks all chs (stack ++ [name])
              = walks ext chs (stack ++ [name])
                ∪ walks dir chs (stack ++ [name])).
  { induction IH as [|[k c] chs Hc _ IHl].
    - unfold walks. cbn [fold_left]. set_solver.
    - rewrite !walks_cons, IHl, Hc. set_solver. }
  rewrite H. set_solver.
Qed.

(** X15: mode [all] gives the filters of mode [ext] together with those
    of mode [dir], nothing more and nothing less. *)
Theorem collect_filters_all (node : Node) (path_stack : list string) :
  collect_filters all node path_stack
  = collect_filters ext node path_stack ∪ collect_filters dir node path_stack.
Proof.
  rewrite !collect_filters_walks. destruct node as [cnt chs]. cbn [children].
  induction chs as [|[k c] chs IH].
  - unfold walks. cbn [fold_left]. set_solver.
  - rewrite !walks_cons, IH, walk_all. set_solver.
Qed.

(** ** The shape of a filter *)

Lemma current_dir_path_root (stack : list string) :
  exists r, current_dir_path stack = String "/" r.
Proof.
  unfold current_dir_path. destruct (is_nil stack); [now exists ""|].
  destruct (negb (is_nil _)); eauto.
Qed.

Lemma ends_with_sep (a : string) :
  Str.startswith (Str.drop (Nat.pred (String.length a)) a) "/" = true ->
  exists d, a = d +:+ "/".
Proof.
  induction a as [|x a IH]; [discriminate|].
  destruct a as [|y a].
  - cbn [String.length Nat.pred Str.drop Str.startswith].
    destruct (Ascii.eqb_spec "/" x) as [<-|]; [|discriminate].
    intros _. now exists "".
  - intros H. destruct IH as [d ->]; [exact H|]. now exists (String x d).
Qed.

Lemma join_shape (a b : string) :
  (exists r, a = String "/" r) -> Str.startswith b "/" = false ->
  Str.startswith (Posix.join a b) "/" = true
  /\ exists d, Posix.join a b = d +:+ "/" +:+ b.
Proof.
  intros [r ->] Hb. unfold Posix.join. rewrite Hb.
  cbn [Str.nonempty negb orb].
  destruct (Str.startswith (Str.drop _ _) "/") eqn:E.
  - split; [reflexivity|]. apply ends_with_sep in E as [d ->].
    exists d. now rewrite append_assoc.
  - split; [reflexivity|]. now exists (String "/" r).
Qed.

Lemma is_leaf_name_not_sep (name : string) :
  is_leaf_name name = true -> Str.startswith name "/" = false.
Proof.
  unfold is_leaf_name. destruct name as [|x name]; [reflexivity|].
  cbn [Str.startswith]. destruct (Ascii.eqb_spec "/" x) as [<-|]; [|reflexivity].
  discriminate.
Qed.

Lemma walk_shape (mode : FilterMode) (node : Node) :
  forall name stack f,
    f ∈ walk mode name node stack ∅ ->
    filter_shape f
    /\ (mode = ext -> exists d b, f = d +:+ "/" +:+ b /\ is_leaf_name b = true)
    /\ (mode = dir -> exists d, f = d +:+ "/**").
Proof.
  induction node as [cnt chs IH] using Node_ind. intros name stack f.
  rewrite walk_node. cbn [children].
  destruct (is_leaf_name name) eqn:Hleaf.
  - destruct mode; cbn [mode_ext]; try set_solver; intros Hf;
      apply elem_of_singleton in Hf; subst f;
      destruct (join_shape (current_dir_path stack) name
                  (current_dir_path_root stack) (is_leaf_name_not_sep _ Hleaf))
        as (Hs & d & Hd);
      (split; [split; [exact Hs | exists d, name; auto] |]);
      (split; [intros _; exists d, name; auto | discriminate]).
  - assert (Hchs : f ∈ walks mode chs (stack ++ [name]) ->
              filter_shape f
              /\ (mode = ext ->
                  exists d b, f = d +:+ "/" +:+ b /\ is_leaf_name b = true)
              /\ (mode = dir -> exists d, f = d +:+ "/**")).
    { clear Hleaf. induction IH as [|[k c] chs Hc _ IHl].
      - unfold walks. cbn [fold_left]. set_solver.
      - rewrite walks_cons, elem_of_union. intros [H|H];
          [exact (Hc k _ f H) | exact (IHl H)]. }
    rewrite elem_of_union. intros [Hd|Hw]; [|exact (Hchs Hw)].
    destruct mode; cbn [mode_dir] in Hd; try set_solver;
      apply elem_of_singleton in Hd; subst f;
      destruct (join_shape (current_dir_path (stack ++ [name])) "**"
                  (current_dir_path_root _) eq_refl) as (Hs & d & Hd);
      (split; [split; [exact Hs | exists d, "**"; auto] |]);
      (split; [discriminate | intros _; exists d; exact Hd]).
Qed.

(** X16: every filter [collect_filters] returns is an absolute pattern: it
    starts with the separator and ends in the separator followed by a last
    part. In mode [ext] the last part is a leaf-shaped name, in mode [dir]
    it is [**]. *)
Theorem collect_filters_shape (mode : FilterMode) (node : Node) (f : string) :
  f ∈ collect_filters mode node [] ->
  filter_shape f
  /\ (mode = ext -> exists d b, f = d +:+ "/" +:+ b /\ is_leaf_name b = true)
  /\ (mode = dir -> exists d, f = d +:+ "/**").
Proof.
  rewrite collect_filters_walks. destruct node as [cnt chs]. cbn [children].
  induction chs as [|[k c] chs IH].
  - unfold walks. cbn [fold_left]. set_solver.
  - rewrite walks_cons, elem_of_union. intros [H|H];
      [exact (walk_shape mode c k [] f H) | exact (IH H)].
Qed.

Lemma collect_filters_shape_witness :
  filter_shape "/etc/*.conf"
  /\ (ext = ext ->
      exists d b, "/etc/*.conf" = d +:+ "/" +:+ b /\ is_leaf_name b = true)
  /\ (ext = dir -> exists d, "/etc/*.conf" = d +:+ "/**").
Proof.
  apply (collect_filters_shape ext etc_conf_tree "/etc/*.conf").
  vm_compute. set_solver.
Defined.

(** ** The filters of a route *)

Lemma ends_sep_cons (x : ascii) (a : string) :
  a <> "" -> ends_sep (String x a) = ends_sep a.
Proof. destruct a; [congruence | reflexivity]. Qed.

Lemma ends_sep_append (a b : string) :
  b <> "" -> ends_sep (a +:+ b) = ends_sep b.
Proof.
  intros Hb. induction a as [|x a IH]; [reflexivity|].
  rewrite append_cons, ends_sep_cons; [exact IH|].
  destruct a; [exact Hb | discriminate].
Qed.

Lemma plain_name_component (w : string) : plain_name w = true -> component w.
Proof.
  unfold plain_name, component. intros H. apply andb_true_iff in H as [H1 H2].
  split; [exact H1 | now apply negb_true_iff].
Qed.

Lemma ends_sep_component (w : string) : component w -> ends_sep w = false.
Proof.
  intros [Hn Hc]. induction w as [|x w IH]; [discriminate|].
  cbn [Str.contains] in Hc. destruct (Ascii.eqb_spec x "/") as [->|Hx];
    [discriminate|].
  destruct w as [|y w].
  - unfold ends_sep. cbn [String.length Nat.pred Str.drop Str.startswith].
    destruct (Ascii.eqb_spec "/" x); [congruence | reflexivity].
  - rewrite ends_sep_cons by discriminate. now apply IH.
Qed.

Lemma join_cons (sep w : string) (ws : list string) :
  ws <> [] -> Str.join sep (w :: ws) = w +:+ sep +:+ Str.join sep ws.
Proof. destruct ws; [congruence | reflexivity]. Qed.

Lemma join_snoc (sep : string) (l : list string) (x : string) :
  l <> [] -> Str.join sep (l ++ [x]) = Str.join sep l +:+ sep +:+ x.
Proof.
  induction l as [|w l IH]; [congruence|]. intros _.
  destruct l as [|w' l]; [reflexivity|].
  change ((w :: w' :: l) ++ [x])%list with (w :: ((w' :: l) ++ [x]))%list.
  rewrite join_cons by discriminate. rewrite IH by discriminate.
  rewrite (join_cons sep w (w' :: l)) by discriminate.
  now rewrite !append_assoc.
Qed.

Lemma join_nonempty (l : list string) :
  l <> [] -> Forall component l -> Str.join "/" l <> "".
Proof.
  intros Hne Hall Hj.
  pose proof (join_not_slashes l Hall Hne) as H. now rewrite Hj in H.
Qed.

Lemma ends_sep_join (l : list string) :
  l <> [] -> Forall component l -> ends_sep (Str.join "/" l) = false.
Proof.
  induction l as [|w l IH]; [congruence|]. intros _ Hall.
  apply Forall_cons_1 in Hall as [Hw Hl].
  destruct l as [|w' l]; [now apply ends_sep_component|].
  rewrite join_cons by discriminate.
  rewrite ends_sep_append.
  - rewrite ends_sep_append; [now apply IH|].
    now apply join_nonempty.
  - discriminate.
Qed.

Lemma current_dir_path_dirs (ds : list string) :
  Forall dir_name ds ->
  current_dir_path ("/" :: ds)
  = if is_nil ds then "/" else "/" +:+ Str.join "/" ds.
Proof.
  intros Hall. unfold current_dir_path. cbn [is_nil List.filter].
  change (negb ("/" =? "/")%string) with false. cbn [andb].
  assert (Hf : List.filter
                 (fun s => negb (s =? "/")%string
                           && negb ((s =? "*")%string || Str.startswith s "*."))
                 ds = ds).
  { induction Hall as [|d ds [Hp Hl] _ IH]; [reflexivity|].
    cbn [List.filter]. fold (is_leaf_name d). rewrite Hl, IH.
    destruct (String.eqb_spec d "/") as [->|]; [discriminate | reflexivity]. }
  rewrite Hf. now destruct ds.
Qed.

Lemma join_dirs_leaf (ds : list string) (leaf : string) :
  Forall dir_name ds -> is_leaf_name leaf = true ->
  Posix.join (current_dir_path ("/" :: ds)) leaf
  = "/" +:+ Str.join "/" (ds ++ [leaf]).
Proof.
  intros Hall Hleaf. rewrite current_dir_path_dirs by assumption.
  unfold Posix.join. rewrite (is_leaf_name_not_sep _ Hleaf).
  destruct ds as [|d ds]; [reflexivity|]. cbn [is_nil].
  change (Str.nonempty ("/" +:+ Str.join "/" (d :: ds))) with true.
  cbn [negb orb]. fold (ends_sep ("/" +:+ Str.join "/" (d :: ds))).
  assert (Hc : Forall component (d :: ds)).
  { eapply Forall_impl; [exact Hall|]. intros w [Hw _].
    now apply plain_name_component. }
  rewrite ends_sep_append by now apply join_nonempty.
  rewrite ends_sep_join by (discriminate || assumption).
  rewrite join_snoc by discriminate. now rewrite !append_assoc.
Qed.

Lemma route_filters_ext_dirs (ds : list string) (leaf : string) :
  forall pre,
    Forall dir_name pre -> Forall dir_name ds -> is_leaf_name leaf = true ->
    route_filters ext (ds ++ [leaf]) ("/" :: pre)
    = {[ "/" +:+ Str.join "/" ((pre ++ ds) ++ [leaf]) ]}.
Proof.
  induction ds as [|d ds IH]; intros pre Hpre Hds Hleaf.
  - cbn [app route_filters mode_ext]. rewrite Hleaf, app_nil_r.
    now rewrite join_dirs_leaf.
  - apply Forall_cons_1 in Hds as [[Hp Hl] Hds].
    cbn [app route_filters mode_dir]. rewrite Hl.
    change (("/" :: pre) ++ [d])%list with ("/" :: (pre ++ [d]))%list.
    rewrite IH; try assumption.
    + rewrite <- (app_assoc pre [d] ds). cbn [app]. set_solver.
    + apply Forall_app. split; [assumption|]. now repeat constructor.
Qed.

Lemma route_filters_ext_path (ds : list string) (leaf : string) :
  Forall dir_name ds -> is_leaf_name leaf = true ->
  route_filters ext ("/" :: ds ++ [leaf]) []
  = {[ "/" +:+ Str.join "/" (ds ++ [leaf]) ]}.
Proof.
  intros Hds Hleaf. cbn [route_filters mode_dir app].
  change (is_leaf_name "/") with false. cbn iota.
  rewrite (route_filters_ext_dirs ds leaf []); [set_solver | constructor | |];
    assumption.
Qed.

(** X17: in mode [ext] inserting a route that goes from the root marker
    through directory names to a leaf-shaped name adds one filter, the
    route written as a path: the names after the root marker joined by the
    separator, behind a leading separator. *)
Theorem collect_filters_ext_route (t : Node) (ds : list string)
    (leaf : string) :
  Forall dir_name ds -> is_leaf_name leaf = true ->
  collect_filters ext (ensure_path t ("/" :: ds ++ [leaf])) []
  = collect_filters ext t [] ∪ {[ "/" +:+ Str.join "/" (ds ++ [leaf]) ]}.
Proof.
  intros Hds Hleaf. rewrite !collect_filters_walks, ensure_path_walks.
  now rewrite route_filters_ext_path.
Qed.

Lemma collect_filters_ext_route_witness :
  collect_filters ext
    (ensure_path etc_conf_tree ("/" :: ["usr"; "lib"] ++ ["*.so"])) []
  = collect_filters ext etc_conf_tree []
    ∪ {[ "/" +:+ Str.join "/" (["usr"; "lib"] ++ ["*.so"]) ]}.
Proof.
  apply collect_filters_ext_route; [|reflexivity].
  repeat constructor.
Defined.

(** ** The order of the filter lines *)

Lemma string_leb_total (x y : string) :
  String.leb x y = true \/ String.leb y x = true.
Proof.
  unfold String.leb. rewrite (String.compare_antisym x y).
  destruct (String.compare y x); cbn; auto.
Qed.

Lemma string_leb_cases (x y : string) :
  String.leb x y = true <-> String.compare x y = Lt \/ x = y.
Proof.
  unfold String.leb. split.
  - destruct (String.compare x y) eqn:E; try discriminate; intros _.
    + right. now apply String.compare_eq_iff.
    + now left.
  - intros [->| ->]; [reflexivity|]. now rewrite string_compare_refl.
Qed.

Lemma string_leb_trans (x y z : string) :
  String.leb x y = true -> String.leb y z = true -> String.leb x z = true.
Proof.
  rewrite !string_leb_cases. intros [H1| ->] [H2| ->]; auto.
  left. eapply string_compare_trans; eassumption.
Qed.

Lemma strict_from_nodup (l : list string) :
  StronglySorted (fun a b => String.leb a b = true) l -> List.NoDup l ->
  StronglySorted (fun a b => String.ltb a b = true) l.
Proof.
  induction 1 as [|x l Hs IH Hx]; intros Hnd; constructor.
  - apply IH. now apply NoDup_cons_iff in Hnd.
  - apply NoDup_cons_iff in Hnd as [Hnx _].
    rewrite Forall_forall in *. intros y Hy. specialize (Hx y Hy).
    apply string_leb_cases in Hx as [Hx| ->].
    + unfold String.ltb. now rewrite Hx.
    + exfalso. apply Hnx. now apply list_elem_of_In.
Qed.

(** X18: the filter lines [main] writes are the strings of the set in
    strictly ascending order: every filter of the set is written once and
    nothing else is. *)
Theorem filter_lines_sorted (mode : FilterMode) (tree : Node) :
  StronglySorted (fun a b => String.ltb a b = true) (filter_lines mode tree)
  /\ forall f, In f (filter_lines mode tree)
               <-> f ∈ collect_filters mode tree [].
Proof.
  unfold filter_lines, sorted_strings.
  set (l := elements (collect_filters mode tree [])).
  pose proof (sorted_perm (fun s : string => s) String.leb l) as Hperm.
  split.
  - apply strict_from_nodup.
    + apply (sorted_sorted (fun s : string => s) String.leb
               string_leb_total string_leb_trans).
    + eapply Permutation_NoDup; [symmetry; exact Hperm|].
      apply NoDup_ListNoDup, NoDup_elements.
  - intros f. rewrite <- elem_of_elements. fold l.
    rewrite list_elem_of_In. split; apply Permutation_in;
      [exact Hperm | symmetry; exact Hperm].
Qed.

(** ** The bucket of a basename *)

Lemma split_single (c : ascii) (s w : string) :
  Str.split c s = [w] -> s = w /\ Str.contains c s = false.
Proof.
  revert w. induction s as [|x s IH]; intros w; cbn [Str.split Str.contains].
  - intros [= <-]. now split.
  - destruct (Ascii.eqb x c) eqn:E.
    + intros [= <- H]. now apply split_not_nil in H.
    + destruct (Str.split c s) as [|w' ws] eqn:Es;
        [exfalso; exact (split_not_nil c s Es)|].
      intros [= <- ->]. destruct (IH w' eq_refl) as [-> H]. now split.
Qed.

Lemma split_no_sep (c : ascii) (s : string) :
  Str.contains c s = false -> Str.split c s = [s].
Proof.
  induction s as [|x s IH]; cbn [Str.split Str.contains]; [reflexivity|].
  destruct (Ascii.eqb x c); [discriminate|]. intros H. now rewrite (IH H).
Qed.

Lemma last_str_cons (x : string) (l : list string) :
  l <> [] -> last_str (x :: l) = last_str l.
Proof. unfold last_str. destruct l; [congruence | reflexivity]. Qed.

(** A string with the separator ends in the last split field, behind a
    separator. *)
Lemma split_last_suffix (c : ascii) (s : string) :
  Str.contains c s = true ->
  exists stem, s = stem +:+ String c (last_str (Str.split c s)).
Proof.
  induction s as [|x s IH]; cbn [Str.split Str.contains]; [discriminate|].
  destruct (Ascii.eqb_spec x c) as [->|Hx].
  - intros _. rewrite last_str_cons by apply split_not_nil.
    destruct (Str.contains c s) eqn:Hc.
    + destruct (IH eq_refl) as [stem E]. exists (String c stem).
      now rewrite append_cons, <- E.
    + exists "". now rewrite (split_no_sep c s Hc).
  - intros Hc. destruct (IH Hc) as [stem E].
    destruct (Str.split c s) as [|w [|w2 ws]] eqn:Es.
    + exfalso. exact (split_not_nil c s Es).
    + apply split_single in Es as [_ Es]. congruence.
    + exists (String x stem). rewrite append_cons.
      rewrite last_str_cons by discriminate.
      rewrite last_str_cons in E by discriminate. now rewrite <- E.
Qed.

(** A string with the separator is what is before the first separator,
    the separator, and the slice behind the index [find] returns. *)
Lemma find_first_prefix (c : ascii) (s : string) :
  Str.contains c s = true ->
  0 <= Str.find c s
  /\ exists stem,
       Str.contains c stem = false
       /\ s = stem +:+ String c (Str.slice_from s (Str.find c s + 1)).
Proof.
  induction s as [|x s IH]; cbn [Str.find Str.contains]; [discriminate|].
  destruct (Ascii.eqb x c) eqn:Hx.
  - intros _. split; [lia|]. exists "". split; [reflexivity|].
    apply Ascii.eqb_eq in Hx. now subst x.
  - intros Hc. destruct (IH Hc) as (Hge & stem & Hs & E).
    replace (Str.find c s <? 0) with false by (symmetry; apply Z.ltb_ge; lia).
    split; [lia|]. exists (String x stem). split.
    + cbn [Str.contains]. now rewrite Hx.
    + rewrite append_cons. f_equal.
      replace (Str.slice_from (String x s) (Str.find c s + 1 + 1))
        with (Str.slice_from s (Str.find c s + 1)); [exact E|].
      unfold Str.slice_from.
      replace (Str.find c s + 1 <? 0) with false
        by (symmetry; apply Z.ltb_ge; lia).
      replace (Str.find c s + 1 + 1 <? 0) with false
        by (symmetry; apply Z.ltb_ge; lia).
      replace (Z.to_nat (Str.find c s + 1 + 1))
        with (S (Z.to_nat (Str.find c s + 1))) by lia.
      reflexivity.
Qed.

(** X19: the bucket [get_ext_leaf] returns is always leaf-shaped, and an
    extension it names is a true suffix of the basename: the basename is a
    non-empty stem, a dot and the extension. Under [last] the extension has
    no dot, so it is what follows the last dot; under [full] the stem has
    no dot, so the extension is all that follows the first dot. *)
Theorem get_ext_leaf_extension (basename : string) (mode : ExtMode) :
  is_leaf_name (get_ext_leaf basename mode) = true
  /\ forall e,
       get_ext_leaf basename mode = "*." +:+ e ->
       e <> ""
       /\ exists stem,
            stem <> "" /\ basename = stem +:+ "." +:+ e
            /\ (mode = last -> Str.contains "." e = false)
            /\ (mode = full -> Str.contains "." stem = false).
Proof.
  split; [apply is_bucket_leaf_name, get_ext_leaf_bucket|].
  intros e. unfold get_ext_leaf.
  destruct mode; [| |discriminate];
    (destruct (Str.startswith basename ".") eqn:Hdot; [discriminate|]);
    (destruct (Str.contains "." basename) eqn:Hc; cbn [negb];
     [|discriminate]).
  - set (ext := last_str (Str.split "." basename)).
    destruct (Str.nonempty ext) eqn:Hne; [|discriminate].
    change ("*." +:+ ext) with (String "*" (String "." ext)).
    change ("*." +:+ e) with (String "*" (String "." e)).
    intros [= <-]. split; [now apply nonempty_true|].
    destruct (split_last_suffix "." basename Hc) as [stem E]. fold ext in E.
    exists stem. repeat split; [| exact E | | discriminate].
    + intros ->. rewrite E in Hdot. discriminate.
    + intros _. apply (split_sep_free "." basename).
      apply last_str_In, split_not_nil.
  - set (ext := Str.slice_from basename (Str.find "." basename + 1)).
    destruct (Str.nonempty ext) eqn:Hne; [|discriminate].
    change ("*." +:+ ext) with (String "*" (String "." ext)).
    change ("*." +:+ e) with (String "*" (String "." e)).
    intros [= <-]. split; [now apply nonempty_true|].
    destruct (find_first_prefix "." basename Hc) as (_ & stem & Hs & E).
    fold ext in E. exists stem. repeat split; [| exact E | discriminate |].
    + intros ->. rewrite E in Hdot. discriminate.
    + intros _. exact Hs.
Qed.

Lemma get_ext_leaf_extension_witness :
  "gz" <> ""
  /\ exists stem,
       stem <> "" /\ "report.tar.gz" = stem +:+ "." +:+ "gz"
       /\ (last = last -> Str.contains "." "gz" = false)
       /\ (last = full -> Str.contains "." stem = false).
Proof.
  apply (proj2 (get_ext_leaf_extension "report.tar.gz" last) "gz").
  reflexivity.
Defined.

(** ** Routes *)

(** X20: unless a path normalises to [//], its route is the root marker,
    then names that are not empty and have no separator, then a
    leaf-shaped bucket that has no separator either; so a route has at
    least two segments. *)
Theorem path_to_parts_route (path : string) (mode : ExtMode) :
  Posix.normpath path <> "//" ->
  exists dirs leaf,
    path_to_parts path mode = "/" :: dirs ++ [leaf]
    /\ Forall (fun w => plain_name w = true) dirs
    /\ is_bucket leaf /\ is_leaf_name leaf = true /\ plain_name leaf = true.
Proof.
  intros Hn. destruct (path_to_parts_plain path mode Hn) as (rest & E & Hrest).
  destruct (path_to_parts_shape path mode) as (_ & Hb & _).
  rewrite E in Hb.
  destruct rest as [|r rest _] using rev_ind.
  - exfalso. cbn in Hb. destruct Hb as [H|(e & _ & H)]; discriminate.
  - exists rest, r. apply Forall_app in Hrest as [Hd Hr].
    apply Forall_cons_1 in Hr as [Hr _].
    rewrite app_comm_cons, last_str_snoc in Hb.
    repeat split; try assumption. now apply is_bucket_leaf_name.
Qed.

Lemma path_to_parts_route_witness :
  exists dirs leaf,
    path_to_parts "/usr/../etc//ssh/./sshd_config" last = "/" :: dirs ++ [leaf]
    /\ Forall (fun w => plain_name w = true) dirs
    /\ is_bucket leaf /\ is_leaf_name leaf = true /\ plain_name leaf = true.
Proof. apply path_to_parts_route. vm_compute. discriminate. Defined.

Lemma clean_component (w : string) : clean w -> component w.
Proof. now intros [H _]. Qed.

Lemma split_join (l : list string) :
  l <> [] -> Forall component l -> Str.split "/" (Str.join "/" l) = l.
Proof.
  induction l as [|w l IH]; [congruence|]. intros _ Hall.
  apply Forall_cons_1 in Hall as [[_ Hw] Hl].
  destruct l as [|w' l]; [now apply split_no_sep|].
  rewrite join_cons by discriminate.
  specialize (IH ltac:(discriminate) Hl).
  revert IH. generalize (Str.join "/" (w' :: l)). intros r IH.
  induction w as [|x w IHw].
  - rewrite append_nil_l. change ("/" +:+ r) with (String "/" r).
    cbn [Str.split]. change (Ascii.eqb "/" "/") with true. cbn iota.
    now rewrite IH.
  - cbn [Str.contains] in Hw. destruct (Ascii.eqb x "/") eqn:Hx;
      [discriminate|].
    rewrite append_cons. cbn [Str.split]. rewrite Hx.
    now rewrite (IHw Hw).
Qed.

Lemma norm_step_clean (k : Z) (acc : list string) (w : string) :
  clean w -> Posix.norm_step k acc w = (acc ++ [w])%list.
Proof.
  intros ([Hn _] & Hd & Hdd). unfold Posix.norm_step.
  destruct (String.eqb_spec w "") as [->|_]; [discriminate|].
  destruct (String.eqb_spec w ".") as [->|_]; [congruence|].
  destruct (String.eqb_spec w "..") as [->|_]; [congruence|].
  reflexivity.
Qed.

Lemma fold_norm_step_clean (k : Z) (l : list string) :
  Forall clean l ->
  forall acc, fold_left (Posix.norm_step k) l acc = (acc ++ l)%list.
Proof.
  induction 1 as [|w l Hw _ IH]; intros acc; cbn [fold_left].
  - now rewrite app_nil_r.
  - rewrite norm_step_clean by assumption. rewrite IH.
    now rewrite <- app_assoc.
Qed.

Lemma join_head (l : list string) :
  l <> [] -> Forall component l ->
  exists x r, Str.join "/" l = String x r /\ x <> "/"%char.
Proof.
  intros Hne Hall. destruct l as [|w l]; [congruence|].
  apply Forall_cons_1 in Hall as [[Hn Hc] _].
  destruct w as [|x w]; [discriminate|]. cbn [Str.contains] in Hc.
  destruct (Ascii.eqb_spec x "/") as [->|Hx]; [discriminate|].
  exists x. destruct l as [|w' l]; [exists w; now split|].
  rewrite join_cons by discriminate. rewrite append_cons. eauto.
Qed.

Lemma normpath_clean (l : list string) :
  l <> [] -> Forall clean l ->
  Posix.normpath (Str.join "/" l) = Str.join "/" l
  /\ Posix.normpath ("/" +:+ Str.join "/" l) = "/" +:+ Str.join "/" l.
Proof.
  intros Hne Hall.
  assert (Hc : Forall component l).
  { eapply Forall_impl; [exact Hall|]. exact clean_component. }
  destruct (join_head l Hne Hc) as (x & r & E & Hx).
  pose proof (split_join l Hne Hc) as Hsplit.
  assert (Hxs : Ascii.eqb "/" x = false).
  { destruct (Ascii.eqb_spec "/" x); congruence. }
  split; unfold Posix.normpath.
  - rewrite Hsplit, E. cbn [String.eqb Str.startswith]. rewrite Hxs.
    cbn [andb]. rewrite fold_norm_step_clean by assumption. cbn [app].
    change (Z.to_nat 0) with O. cbn [Posix.repeat_sep].
    rewrite append_nil_l, E. reflexivity.
  - assert (H1 : Str.split "/" ("/" +:+ Str.join "/" l) = "" :: l).
    { change ("/" +:+ Str.join "/" l) with (String "/" (Str.join "/" l)).
      cbn [Str.split]. change (Ascii.eqb "/" "/") with true. cbn iota.
      now rewrite Hsplit. }
    assert (H2 : Str.startswith ("/" +:+ Str.join "/" l) "/" = true)
      by reflexivity.
    assert (H3 : Str.startswith ("/" +:+ Str.join "/" l) "//" = false).
    { rewrite E. change ("/" +:+ String x r) with (String "/" (String x r)).
      cbn [Str.startswith]. change (Ascii.eqb "/" "/") with true.
      now rewrite Hxs. }
    assert (H4 : fold_left (Posix.norm_step 1) ("" :: l) [] = l).
    { cbn [fold_left]. change (Posix.norm_step 1 [] "") with (@nil string).
      now rewrite fold_norm_step_clean. }
    rewrite H1, H2, H3. cbn [andb]. rewrite H4.
    change (("/" +:+ Str.join "/" l =? "")%string) with false. cbn iota.
    change (Z.to_nat 1) with 1%nat. cbn [Posix.repeat_sep].
    change ("/" +:+ "") with "/". reflexivity.
Qed.

Lemma nonempty_comps_join (l : list string) :
  l <> [] -> Forall component l -> nonempty_comps (Str.join "/" l) = l.
Proof.
  intros Hne Hc. unfold nonempty_comps. rewrite split_join by assumption.
  clear Hne. induction Hc as [|w l [Hn _] _ IH]; [reflexivity|].
  cbn [List.filter]. now rewrite Hn, IH.
Qed.

(** X21: a path written with clean components, with or without a leading
    separator, has the components as its route: the root marker, the
    directories as they stand, and the bucket of the last component. *)
Theorem path_to_parts_clean (ds : list string) (base : string)
    (mode : ExtMode) :
  Forall clean ds -> clean base ->
  path_to_parts ("/" +:+ Str.join "/" (ds ++ [base])) mode
  = "/" :: ds ++ [get_ext_leaf base mode]
  /\ path_to_parts (Str.join "/" (ds ++ [base])) mode
     = "/" :: ds ++ [get_ext_leaf base mode].
Proof.
  intros Hds Hbase.
  assert (Hall : Forall clean (ds ++ [base])).
  { apply Forall_app. split; [exact Hds|].
    constructor; [exact Hbase | constructor]. }
  assert (Hne : (ds ++ [base])%list <> []) by now destruct ds.
  assert (Hc : Forall component (ds ++ [base])).
  { eapply Forall_impl; [exact Hall|]. exact clean_component. }
  destruct (normpath_clean _ Hne Hall) as [Hrel Habs].
  destruct (join_head _ Hne Hc) as (x & r & E & Hx).
  assert (Hxs : Ascii.eqb "/" x = false).
  { destruct (Ascii.eqb_spec "/" x); congruence. }
  assert (Hxs' : Ascii.eqb x "/" = false).
  { destruct (Ascii.eqb_spec x "/"); congruence. }
  assert (Hparts : (removelast ("/" :: ds ++ [base])
                    ++ [get_ext_leaf (last_str ("/" :: ds ++ [base])) mode])%list
                   = "/" :: ds ++ [get_ext_leaf base mode]).
  { rewrite (app_comm_cons ds [base] "/"), last_str_snoc.
    now rewrite removelast_last. }
  set (j := Str.join "/" (ds ++ [base])) in *.
  assert (A1 : String.eqb ("/" +:+ j) "/" = false).
  { rewrite E. reflexivity. }
  assert (A2 : Str.startswith ("/" +:+ j) "/" = true) by reflexivity.
  assert (A3 : Str.slice_from ("/" +:+ j) 1 = j) by reflexivity.
  assert (R1 : String.eqb j "/" = false).
  { rewrite E. cbn [String.eqb]. now rewrite Hxs'. }
  assert (R2 : Str.startswith j "/" = false).
  { rewrite E. cbn [Str.startswith]. now rewrite Hxs. }
  assert (Hcomps : nonempty_comps j = (ds ++ [base])%list)
    by now apply nonempty_comps_join.
  split; unfold path_to_parts; cbv zeta.
  - rewrite Habs, A1, A2, A3, Hcomps. cbn [is_nil negb]. exact Hparts.
  - rewrite Hrel, R1, R2, Hcomps.
    destruct (ds ++ [base])%list as [|w l] eqn:El; [congruence|].
    cbn [is_nil negb hd andb].
    assert (Hw : String.eqb w "/" = false).
    { apply Forall_cons_1 in Hc as [[_ Hw] _].
      destruct (String.eqb_spec w "/") as [->|]; [discriminate | reflexivity]. }
    rewrite Hw. cbn [negb is_nil]. exact Hparts.
Qed.

Lemma path_to_parts_clean_witness :
  path_to_parts ("/" +:+ Str.join "/" (["usr"; "lib64"] ++ ["libc.so.6"])) full
  = "/" :: ["usr"; "lib64"] ++ [get_ext_leaf "libc.so.6" full]
  /\ path_to_parts (Str.join "/" (["usr"; "lib64"] ++ ["libc.so.6"])) full
     = "/" :: ["usr"; "lib64"] ++ [get_ext_leaf "libc.so.6" full].
Proof.
  apply path_to_parts_clean.
  - repeat constructor; discriminate.
  - repeat constructor; discriminate.
Defined.

(** ** The root of the built trie *)

(** X22: as long as no accepted path normalises to [//], the root of the
    built trie has no child at all or the root marker as its only child,
    and below the root every dictionary has distinct names that are not
    empty and have no separator. *)
Theorem build_tree_root (re_search : string -> string -> bool)
    (args : Args.t) (paths : list string) :
  (forall p, In p paths -> passes re_search args p = true ->
             Posix.normpath p <> "//") ->
  (keys (children (build_tree re_search args paths)) = []
   \/ keys (children (build_tree re_search args paths)) = ["/"])
  /\ Forall (fun kc => plain kc.2 = true)
       (children (build_tree re_search args paths)).
Proof.
  intros H. split; [now apply build_tree_root_marker | now apply build_tree_plain].
Qed.

Lemma build_tree_root_witness :
  keys (children (build_tree (fun _ _ => false) default_args etc_conf_paths)) = []
  \/ keys (children (build_tree (fun _ _ => false) default_args etc_conf_paths))
     = ["/"].
Proof.
  apply build_tree_root. intros p Hp _.
  repeat (destruct Hp as [<-|Hp]; [vm_compute; discriminate|]). destruct Hp.
Defined.

(** ** The order of the input does not matter *)

Lemma filter_perm {A} (f : A -> bool) (l l' : list A) :
  Permutation l l' -> Permutation (List.filter f l) (List.filter f l').
Proof.
  induction 1 as [|x l l' _ IH|x y l|l l' l'' _ IH1 _ IH2]; cbn [List.filter].
  - constructor.
  - destruct (f x); [now constructor | exact IH].
  - destruct (f x), (f y); try reflexivity. constructor.
  - now transitivity (List.filter f l').
Qed.

Lemma shape_cons (t : Node) (k : string) (r : list string) :
  shape t (k :: r)
  = match dict_get (children t) k with
    | Some c => shape c r
    | None => None
    end.
Proof. unfold shape. cbn [node_at]. now destruct (dict_get (children t) k). Qed.

Lemma shape_counted (route : list string) :
  forall t, counted t = true ->
    shape t route
    = match route with
      | [] => Some (count t)
      | _ => if 1 <=? count_at t route then Some (count_at t route) else None
      end.
Proof.
  induction route as [|k r IH]; intros [cnt chs] Hc; [reflexivity|].
  apply counted_unfold in Hc as [_ Hall].
  rewrite shape_cons, count_at_cons. cbn [children].
  destruct (dict_get chs k) as [c|] eqn:Hk; [|reflexivity].
  pose proof (Forall_dict_get _ _ _ _ Hall Hk) as [Hc1 Hc2]. cbn [snd] in *.
  rewrite (IH c Hc2). destruct r as [|k' r]; [|reflexivity].
  change (count_at c []) with (count c).
  now replace (1 <=? count c) with true by (symmetry; apply Z.leb_le; lia).
Qed.

Lemma build_tree_same (re_search : string -> string -> bool) (args : Args.t)
    (paths paths' : list string) :
  Permutation paths paths' ->
  same_nodes (build_tree re_search args paths)
    (build_tree re_search args paths').
Proof.
  intros Hp route.
  rewrite !shape_counted by apply build_tree_counted.
  assert (H : forall r,
            count_at (build_tree re_search args paths) r
            = count_at (build_tree re_search args paths') r).
  { intros r. rewrite !build_tree_fold, !fold_step_count_at.
    f_equal. f_equal. apply Permutation_length.
    unfold through. now do 2 apply filter_perm. }
  destruct route as [|k r]; [|now rewrite H].
  f_equal. apply (H []).
Qed.

Lemma same_nodes_count (t1 t2 : Node) :
  same_nodes t1 t2 -> count t1 = count t2.
Proof. intros H. specialize (H []). now injection H. Qed.

Lemma same_nodes_sym (t1 t2 : Node) : same_nodes t1 t2 -> same_nodes t2 t1.
Proof. intros H route. symmetry. apply H. Qed.

Lemma same_nodes_child (t1 t2 : Node) (k : string) (c1 : Node) :
  same_nodes t1 t2 -> dict_get (children t1) k = Some c1 ->
  exists c2, dict_get (children t2) k = Some c2 /\ same_nodes c1 c2.
Proof.
  intros H Hk. pose proof (H [k]) as H1. rewrite !shape_cons, Hk in H1.
  destruct (dict_get (children t2) k) as [c2|] eqn:Hk2; [|discriminate].
  exists c2. split; [reflexivity|]. intros r.
  pose proof (H (k :: r)) as Hr. now rewrite !shape_cons, Hk, Hk2 in Hr.
Qed.

Lemma same_nodes_no_child (t1 t2 : Node) (k : string) :
  same_nodes t1 t2 -> dict_get (children t1) k = None ->
  dict_get (children t2) k = None.
Proof.
  intros H Hk. destruct (dict_get (children t2) k) as [c2|] eqn:Hk2;
    [|reflexivity].
  destruct (same_nodes_child t2 t1 k c2 (same_nodes_sym _ _ H) Hk2)
    as (c1 & E & _). congruence.
Qed.

Lemma survivesb_same (T : Z) (route : list string) :
  forall t1 t2, same_nodes t1 t2 ->
    survivesb T t1 route = survivesb T t2 route.
Proof.
  induction route as [|k r IH]; intros t1 t2 H; cbn [survivesb];
    rewrite (same_nodes_count _ _ H); [reflexivity|].
  f_equal. destruct (dict_get (children t1) k) as [c1|] eqn:Hk.
  - destruct (same_nodes_child _ _ _ _ H Hk) as (c2 & -> & Hc). now apply IH.
  - now rewrite (same_nodes_no_child _ _ _ H Hk).
Qed.

Lemma prune_tree_shape (T : Z) (t t' : Node) (route : list string) :
  wf t -> prune_tree t T = Some t' ->
  shape t' route = if survivesb T t route then shape t route else None.
Proof.
  intros Hwf Hp. unfold shape. rewrite (prune_node_at T t Hwf t' route Hp).
  destruct (survivesb T t route) eqn:Hs; [|reflexivity].
  destruct (survivesb_node_at T t route Hs) as (n & En & Hge). rewrite En.
  destruct (prune_tree n T) as [n'|] eqn:Hn.
  - apply prune_tree_Some in Hn as [_ ->]; [reflexivity|].
    exact (wf_node_at t Hwf route n En).
  - apply prune_tree_None in Hn. lia.
Qed.

Lemma prune_tree_same (T : Z) (t1 t2 : Node) :
  wf t1 -> wf t2 -> same_nodes t1 t2 ->
  match prune_tree t1 T, prune_tree t2 T with
  | Some a, Some b => same_nodes a b
  | None, None => True
  | _, _ => False
  end.
Proof.
  intros Hw1 Hw2 H. pose proof (same_nodes_count _ _ H) as Hc.
  destruct (prune_tree t1 T) as [a|] eqn:E1, (prune_tree t2 T) as [b|] eqn:E2.
  - intros route.
    rewrite (prune_tree_shape T t1 a route Hw1 E1).
    rewrite (prune_tree_shape T t2 b route Hw2 E2).
    now rewrite (survivesb_same T route t1 t2 H), H.
  - apply prune_tree_None in E2.
    apply prune_tree_Some in E1 as [E1 _]; [lia | exact Hw1].
  - apply prune_tree_None in E1.
    apply prune_tree_Some in E2 as [E2 _]; [lia | exact Hw2].
  - exact I.
Qed.

(** *** Sorted children of trees with the same nodes *)

Lemma map_insert_sorted {A K} (key : A -> K) (leb : K -> K -> bool)
    (x : A) (l : list A) :
  map key (insert_sorted key leb x l)
  = insert_sorted (fun k => k) leb (key x) (map key l).
Proof.
  induction l as [|y l IH]; [reflexivity|]. cbn [insert_sorted map].
  destruct (leb (key x) (key y)); cbn [map]; [reflexivity | now rewrite IH].
Qed.

Lemma map_sorted {A K} (key : A -> K) (leb : K -> K -> bool) (l : list A) :
  map key (sorted key leb l) = sorted (fun k => k) leb (map key l).
Proof.
  induction l as [|x l IH]; [reflexivity|].
  unfold sorted in *. cbn [fold_right map]. now rewrite map_insert_sorted, IH.
Qed.

Lemma sort_keys_NoDup (l : dict Node) :
  List.NoDup (keys l) -> List.NoDup (map sort_key l).
Proof.
  intros H. apply (NoDup_map_inv snd). rewrite map_map.
  unfold sort_key. cbn [snd]. exact H.
Qed.

Lemma key_sorted_strict (l : list (bool * Z * string)) :
  StronglySorted (fun a b => key_leb a b = true) l -> List.NoDup l ->
  StronglySorted (fun a b => key_compare a b = Lt) l.
Proof.
  induction 1 as [|x l Hs IH Hx]; intros Hnd; constructor.
  - apply IH. now apply NoDup_cons_iff in Hnd.
  - apply NoDup_cons_iff in Hnd as [Hnx _].
    rewrite Forall_forall in *. intros y Hy. specialize (Hx y Hy).
    apply key_leb_cases in Hx as [Hx| ->]; [exact Hx|].
    exfalso. apply Hnx. now apply list_elem_of_In.
Qed.

Lemma sorted_keys_perm (l1 l2 : list (bool * Z * string)) :
  Permutation l1 l2 -> List.NoDup l1 ->
  sorted (fun k => k) key_leb l1 = sorted (fun k => k) key_leb l2.
Proof.
  intros Hp Hnd.
  pose proof (sorted_perm (fun k : bool * Z * string => k) key_leb l1) as P1.
  pose proof (sorted_perm (fun k : bool * Z * string => k) key_leb l2) as P2.
  apply (sorted_unique (fun a b => key_compare a b = Lt)).
  - intros a b Hab Hba. rewrite key_compare_antisym, Hab in Hba. discriminate.
  - now rewrite P1, Hp, P2.
  - apply key_sorted_strict.
    + apply (sorted_sorted (fun k : bool * Z * string => k) key_leb
               key_leb_total key_leb_trans).
    + eapply Permutation_NoDup; [symmetry; exact P1 | exact Hnd].
  - apply key_sorted_strict.
    + apply (sorted_sorted (fun k : bool * Z * string => k) key_leb
               key_leb_total key_leb_trans).
    + eapply Permutation_NoDup; [|exact Hnd]. now rewrite P2, Hp.
Qed.

Lemma same_nodes_sort_keys_incl (t1 t2 : Node) :
  wf t1 -> same_nodes t1 t2 ->
  forall x, In x (map sort_key (children t1)) ->
            In x (map sort_key (children t2)).
Proof.
  intros Hw H x Hx. apply in_map_iff in Hx as ([k c1] & <- & Hin).
  destruct (wf_inv _ Hw) as [Hnd _].
  apply (In_dict_get _ _ _ Hnd) in Hin.
  destruct (same_nodes_child _ _ _ _ H Hin) as (c2 & Hk2 & Hc).
  apply dict_get_In in Hk2. apply in_map_iff. exists (k, c2).
  split; [|exact Hk2]. unfold sort_key. cbn [fst snd].
  now rewrite (same_nodes_count _ _ Hc).
Qed.

Lemma same_nodes_sorted_keys (t1 t2 : Node) :
  wf t1 -> wf t2 -> same_nodes t1 t2 ->
  map sort_key (sorted_children t1) = map sort_key (sorted_children t2).
Proof.
  intros Hw1 Hw2 H. unfold sorted_children. rewrite !map_sorted.
  destruct (wf_inv _ Hw1) as [Hnd1 _]. destruct (wf_inv _ Hw2) as [Hnd2 _].
  apply sorted_keys_perm; [|now apply sort_keys_NoDup].
  apply Stdlib.Sorting.Permutation.NoDup_Permutation;
    [now apply sort_keys_NoDup | now apply sort_keys_NoDup |].
  intros x. split; apply same_nodes_sort_keys_incl; try assumption.
  now apply same_nodes_sym.
Qed.

Lemma same_entries_of_keys (t1 t2 : Node) :
  wf t1 -> wf t2 -> same_nodes t1 t2 ->
  forall s1 s2,
    map sort_key s1 = map sort_key s2 ->
    (forall x, In x s1 -> In x (children t1)) ->
    (forall y, In y s2 -> In y (children t2)) ->
    Forall2 same_entry s1 s2.
Proof.
  intros Hw1 Hw2 H.
  destruct (wf_inv _ Hw1) as [Hnd1 Hall1].
  destruct (wf_inv _ Hw2) as [Hnd2 Hall2].
  induction s1 as [|[k1 c1] s1 IH]; intros [|[k2 c2] s2] E H1 H2;
    try discriminate E; [constructor|].
  cbn [map] in E. injection E as _ _ <- Es.
  constructor.
  - pose proof (H1 _ (or_introl eq_refl)) as Hin1.
    pose proof (H2 _ (or_introl eq_refl)) as Hin2.
    pose proof (In_dict_get _ _ _ Hnd1 Hin1) as G1.
    pose proof (In_dict_get _ _ _ Hnd2 Hin2) as G2.
    destruct (same_nodes_child _ _ _ _ H G1) as (c2' & G2' & Hc).
    assert (c2' = c2) by congruence. subst c2'.
    rewrite Forall_forall in Hall1, Hall2.
    apply list_elem_of_In in Hin1, Hin2.
    repeat split; [exact (Hall1 _ Hin1) | exact (Hall2 _ Hin2) | exact Hc].
  - apply IH; [exact Es | |]; intros z Hz; [apply H1 | apply H2]; now right.
Qed.

Lemma same_nodes_sorted_children (t1 t2 : Node) :
  wf t1 -> wf t2 -> same_nodes t1 t2 ->
  Forall2 same_entry (sorted_children t1) (sorted_children t2).
Proof.
  intros Hw1 Hw2 H.
  apply (same_entries_of_keys t1 t2 Hw1 Hw2 H).
  - now apply same_nodes_sorted_keys.
  - intros x. apply Permutation_in, sorted_children_perm.
  - intros x. apply Permutation_in, sorted_children_perm.
Qed.

Lemma same_nodes_shown_children (top : Z) (t1 t2 : Node) :
  wf t1 -> wf t2 -> same_nodes t1 t2 ->
  Forall2 same_entry (shown_children top t1) (shown_children top t2).
Proof.
  intros Hw1 Hw2 H.
  pose proof (same_nodes_sorted_children t1 t2 Hw1 Hw2 H) as HF.
  unfold shown_children, slice_to.
  rewrite <- (Forall2_length _ _ _ HF).
  destruct (negb (top =? 0) && _); [|exact HF].
  destruct (top <? 0); now apply Forall2_take.
Qed.

Lemma map_same {A B C} (R : A -> B -> Prop) (f : A -> C) (g : B -> C)
    (l1 : list A) (l2 : list B) :
  Forall2 R l1 l2 -> (forall a b, R a b -> f a = g b) -> map f l1 = map g l2.
Proof.
  intros HF Hfg. induction HF as [|a b l1 l2 Hab _ IH]; [reflexivity|].
  cbn [map]. now rewrite (Hfg a b Hab), IH.
Qed.

Lemma flat_map_same {A B C} (R : A -> B -> Prop) (f : A -> list C)
    (g : B -> list C) (l1 : list A) (l2 : list B) :
  Forall2 R l1 l2 -> (forall a b, R a b -> f a = g b) ->
  flat_map f l1 = flat_map g l2.
Proof.
  intros HF Hfg. induction HF as [|a b l1 l2 Hab _ IH]; [reflexivity|].
  cbn [flat_map]. now rewrite (Hfg a b Hab), IH.
Qed.

Lemma enumerate_same {A B} (R : A -> B -> Prop) (l1 : list A) (l2 : list B) :
  Forall2 R l1 l2 ->
  forall a n,
    Forall2 (fun x y => x.1 = y.1 /\ R x.2 y.2)
      (combine (seq a n) l1) (combine (seq a n) l2).
Proof.
  induction 1 as [|x y l1 l2 Hxy _ IH]; intros a [|n]; cbn [seq combine];
    constructor; [now split | apply IH].
Qed.

Lemma json_slice_same (max_depth top : Z) (fuel : nat) :
  forall (name : string) (t1 t2 : Node) (depth : Z),
    wf t1 -> wf t2 -> same_nodes t1 t2 ->
    json_slice max_depth top fuel name t1 depth
    = json_slice max_depth top fuel name t2 depth.
Proof.
  induction fuel as [|fuel IH]; intros name t1 t2 depth Hw1 Hw2 H;
    [cbn [json_slice]; now rewrite (same_nodes_count _ _ H)|].
  rewrite !json_slice_S, (same_nodes_count _ _ H).
  destruct (negb (max_depth =? 0) && (depth >=? max_depth)); [reflexivity|].
  f_equal.
  apply (map_same same_entry _ _ _ _
           (same_nodes_shown_children top t1 t2 Hw1 Hw2 H)).
  intros [k1 c1] [k2 c2] (Ek & Hc1 & Hc2 & Hc). cbn [fst snd] in *. subst k2.
  now apply IH.
Qed.

Lemma _print_same (max_depth top : Z) (tee corner pipe dash : string)
    (fuel : nat) :
  forall (t1 t2 : Node) (prefix : string) (depth : Z),
    wf t1 -> wf t2 -> same_nodes t1 t2 ->
    _print max_depth top tee corner pipe dash fuel t1 prefix depth
    = _print max_depth top tee corner pipe dash fuel t2 prefix depth.
Proof.
  induction fuel as [|fuel IH]; intros t1 t2 prefix depth Hw1 Hw2 H;
    [reflexivity|].
  rewrite !_print_S. cbv zeta.
  pose proof (same_nodes_shown_children top t1 t2 Hw1 Hw2 H) as HF.
  rewrite <- (Forall2_length _ _ _ HF).
  apply (flat_map_same _ _ _ _ _
           (enumerate_same same_entry _ _ HF 0%nat _)).
  intros [i [k1 c1]] [j [k2 c2]] (Ei & Ek & Hc1 & Hc2 & Hc).
  cbn [fst snd] in *. subst j k2. rewrite (same_nodes_count _ _ Hc).
  destruct (negb (max_depth =? 0) && (depth + 1 >=? max_depth));
    [reflexivity|].
  f_equal. now apply IH.
Qed.

Lemma height_same (t1 : Node) :
  forall t2, wf t1 -> wf t2 -> same_nodes t1 t2 ->
             (height t2 <= height t1)%nat.
Proof.
  induction t1 as [cnt1 chs1 IH] using Node_ind. intros [cnt2 chs2] Hw1 Hw2 H.
  destruct (wf_inv _ Hw1) as [Hnd1 Hall1].
  destruct (wf_inv _ Hw2) as [Hnd2 Hall2]. cbn [children] in *.
  rewrite (height_unfold cnt1 chs1).
  apply height_le_intro. apply Forall_forall. intros [k c2] Hin.
  apply list_elem_of_In in Hin. pose proof Hin as Hin2.
  apply (In_dict_get _ _ _ Hnd2) in Hin.
  destruct (same_nodes_child _ _ k c2 (same_nodes_sym _ _ H) Hin)
    as (c1 & G1 & Hc). cbn [children] in G1.
  pose proof (Forall_dict_get _ _ _ _ IH G1) as IHc.
  pose proof (Forall_dict_get _ _ _ _ Hall1 G1) as Hwc1.
  rewrite Forall_forall in Hall2. apply list_elem_of_In in Hin2.
  pose proof (Hall2 _ Hin2) as Hwc2. cbn [snd] in *.
  specialize (IHc c2 Hwc1 Hwc2 (same_nodes_sym _ _ Hc)).
  apply dict_get_In in G1.
  assert (Hh : In (k, c1) (children (mkNode cnt1 chs1))) by exact G1.
  apply height_child in Hh. rewrite (height_unfold cnt1 chs1) in Hh. lia.
Qed.

Lemma height_same_eq (t1 t2 : Node) :
  wf t1 -> wf t2 -> same_nodes t1 t2 -> height t1 = height t2.
Proof.
  intros Hw1 Hw2 H. apply Nat.le_antisymm.
  - apply height_same; [assumption | assumption | now apply same_nodes_sym].
  - now apply height_same.
Qed.

Lemma json_root_same (max_depth top : Z) (t1 t2 : Node) :
  wf t1 -> wf t2 -> same_nodes t1 t2 ->
  json_root max_depth top t1 = json_root max_depth top t2.
Proof.
  intros Hw1 Hw2 H. unfold json_root.
  rewrite (same_nodes_count _ _ H), (height_same_eq t1 t2 Hw1 Hw2 H). f_equal.
  apply (map_same same_entry _ _ _ _
           (same_nodes_shown_children top t1 t2 Hw1 Hw2 H)).
  intros [k1 c1] [k2 c2] (Ek & Hc1 & Hc2 & Hc). cbn [fst snd] in *. subst k2.
  now apply json_slice_same.
Qed.

Lemma render_text_same (t1 t2 : Node) (use_ascii show_counts : bool)
    (max_depth top : Z) :
  wf t1 -> wf t2 -> same_nodes t1 t2 ->
  render_text t1 use_ascii show_counts max_depth top
  = render_text t2 use_ascii show_counts max_depth top.
Proof.
  intros Hw1 Hw2 H. unfold render_text, render_lines.
  rewrite (same_nodes_count _ _ H), (height_same_eq t1 t2 Hw1 Hw2 H).
  destruct use_ascii; cbn [map]; f_equal; f_equal; now apply _print_same.
Qed.

(** *** Filters of trees with the same nodes *)

Lemma elem_of_walks (mode : FilterMode) (chs : dict Node)
    (stack : list string) (x : string) :
  x ∈ walks mode chs stack
  <-> exists k c, In (k, c) chs /\ x ∈ walk mode k c stack ∅.
Proof.
  induction chs as [|[k c] chs IH].
  - unfold walks. cbn [fold_left]. split; [set_solver|].
    intros (k & c & [] & _).
  - rewrite walks_cons, elem_of_union, IH. split.
    + intros [Hx|(k' & c' & Hin & Hx)]; [exists k, c | exists k', c'];
        (split; [|exact Hx]); [now left | now right].
    + intros (k' & c' & [[= <- <-]|Hin] & Hx); [now left|].
      right. exists k', c'. now split.
Qed.

Lemma walks_same (mode : FilterMode) (chs1 chs2 : dict Node)
    (stack : list string) :
  wf (mkNode 0 chs1) -> wf (mkNode 0 chs2) ->
  same_nodes (mkNode 0 chs1) (mkNode 0 chs2) ->
  Forall (fun kc => forall t2 name stack,
            wf kc.2 -> wf t2 -> same_nodes kc.2 t2 ->
            walk mode name kc.2 stack ∅ = walk mode name t2 stack ∅) chs1 ->
  walks mode chs1 stack = walks mode chs2 stack.
Proof.
  intros Hw1 Hw2 H IH.
  destruct (wf_inv _ Hw1) as [Hnd1 Hall1].
  destruct (wf_inv _ Hw2) as [Hnd2 Hall2]. cbn [children] in *.
  apply set_eq. intros x. rewrite !elem_of_walks. split.
  - intros (k & c1 & Hin & Hx).
    pose proof (In_dict_get _ _ _ Hnd1 Hin) as G1.
    destruct (same_nodes_child _ _ k c1 H G1) as (c2 & G2 & Hc).
    cbn [children] in G2. exists k, c2. split; [now apply dict_get_In|].
    pose proof (Forall_dict_get _ _ _ _ IH G1) as IHc.
    pose proof (Forall_dict_get _ _ _ _ Hall1 G1) as Hwc1.
    pose proof (Forall_dict_get _ _ _ _ Hall2 G2) as Hwc2. cbn [snd] in *.
    now rewrite <- (IHc c2 k stack Hwc1 Hwc2 Hc).
  - intros (k & c2 & Hin & Hx).
    pose proof (In_dict_get _ _ _ Hnd2 Hin) as G2.
    destruct (same_nodes_child _ _ k c2 (same_nodes_sym _ _ H) G2)
      as (c1 & G1 & Hc).
    cbn [children] in G1. exists k, c1. split; [now apply dict_get_In|].
    pose proof (Forall_dict_get _ _ _ _ IH G1) as IHc.
    pose proof (Forall_dict_get _ _ _ _ Hall1 G1) as Hwc1.
    pose proof (Forall_dict_get _ _ _ _ Hall2 G2) as Hwc2. cbn [snd] in *.
    now rewrite (IHc c2 k stack Hwc1 Hwc2 (same_nodes_sym _ _ Hc)).
Qed.

Lemma wf_recount (c1 c2 : Z) (chs : dict Node) :
  wf (mkNode c1 chs) -> wf (mkNode c2 chs).
Proof. intros H. destruct (wf_inv _ H). now constructor. Qed.

Lemma same_nodes_recount (c1 c2 : Z) (chs1 chs2 : dict Node) :
  same_nodes (mkNode c1 chs1) (mkNode c2 chs2) ->
  same_nodes (mkNode 0 chs1) (mkNode 0 chs2).
Proof.
  intros H [|k r]; [reflexivity|].
  specialize (H (k :: r)). now rewrite !shape_cons in *.
Qed.

Lemma walk_same (mode : FilterMode) (t1 : Node) :
  forall t2 name stack,
    wf t1 -> wf t2 -> same_nodes t1 t2 ->
    walk mode name t1 stack ∅ = walk mode name t2 stack ∅.
Proof.
  induction t1 as [cnt1 chs1 IH] using Node_ind.
  intros [cnt2 chs2] name stack Hw1 Hw2 H.
  rewrite !walk_node. cbn [children].
  destruct (is_leaf_name name); [reflexivity|]. f_equal.
  apply walks_same;
    [exact (wf_recount _ _ _ Hw1) | exact (wf_recount _ _ _ Hw2)
     | exact (same_nodes_recount _ _ _ _ H) | exact IH].
Qed.

Lemma collect_filters_same (mode : FilterMode) (t1 t2 : Node) :
  wf t1 -> wf t2 -> same_nodes t1 t2 ->
  collect_filters mode t1 [] = collect_filters mode t2 [].
Proof.
  intros Hw1 Hw2 H. rewrite !collect_filters_walks.
  destruct t1 as [cnt1 chs1], t2 as [cnt2 chs2]. cbn [children].
  apply walks_same;
    [exact (wf_recount _ _ _ Hw1) | exact (wf_recount _ _ _ Hw2)
     | exact (same_nodes_recount _ _ _ _ H) |].
  apply Forall_forall. intros kc _ t2 name stack. apply walk_same.
Qed.

Lemma same_nodes_is_nil (t1 t2 : Node) :
  same_nodes t1 t2 -> is_nil (children t1) = is_nil (children t2).
Proof.
  intros H.
  destruct (children t1) as [|[k c] l1] eqn:E1,
           (children t2) as [|[k2 c2] l2] eqn:E2; try reflexivity; exfalso.
  - assert (G : dict_get (children t2) k2 = Some c2).
    { rewrite E2. cbn [dict_get]. now rewrite String.eqb_refl. }
    destruct (same_nodes_child _ _ _ _ (same_nodes_sym _ _ H) G) as (c1 & G1 & _).
    rewrite E1 in G1. discriminate.
  - assert (G : dict_get (children t1) k = Some c).
    { rewrite E1. cbn [dict_get]. now rewrite String.eqb_refl. }
    destruct (same_nodes_child _ _ _ _ H G) as (c1 & G1 & _).
    rewrite E2 in G1. discriminate.
Qed.

(** X23: without [--compact] what [main] writes does not depend on the
    order of the input lines: the tree lines or the JSON document and the
    filters are the same for any rearrangement of the same paths. *)
Theorem main_input_order (re_search : string -> string -> bool)
    (args : Args.t) (paths paths' : list string) :
  Permutation paths paths' ->
  Args.compact args = false ->
  main re_search args paths = main re_search args paths'.
Proof.
  intros Hp Hcompact. rewrite !main_spec. f_equal. unfold main_output.
  pose proof (build_tree_same re_search args paths paths' Hp) as Hs.
  pose proof (build_tree_wf re_search args paths) as Hw1.
  pose proof (build_tree_wf re_search args paths') as Hw2.
  pose proof (prune_tree_same (Args.min_count args) _ _ Hw1 Hw2 Hs) as Hpr.
  pose proof (prune_tree_wf (Args.min_count args) _ Hw1) as Hpw1.
  pose proof (prune_tree_wf (Args.min_count args) _ Hw2) as Hpw2.
  destruct (prune_tree (build_tree re_search args paths) (Args.min_count args))
    as [t1|];
    destruct (prune_tree (build_tree re_search args paths')
                (Args.min_count args)) as [t2|];
    try contradiction; [|reflexivity].
  specialize (Hpw1 t1 eq_refl). specialize (Hpw2 t2 eq_refl).
  rewrite (same_nodes_is_nil t1 t2 Hpr).
  destruct (is_nil (children t2)); [reflexivity|].
  rewrite Hcompact. cbn [print_tree_view print_tree_left].
  unfold filter_lines.
  rewrite (json_root_same _ _ t1 t2 Hpw1 Hpw2 Hpr).
  rewrite (collect_filters_same _ t1 t2 Hpw1 Hpw2 Hpr).
  now rewrite (render_text_same t1 t2 _ _ _ _ Hpw1 Hpw2 Hpr).
Qed.

Lemma main_input_order_witness :
  main (fun _ _ => false) default_args ["/etc/a.conf"; "/usr/b.txt"]
  = main (fun _ _ => false) default_args ["/usr/b.txt"; "/etc/a.conf"].
Proof.
  apply main_input_order; [apply perm_swap | reflexivity].
Defined.

(** ** When [main] writes nothing *)

Lemma main_output_nil (re_search : string -> string -> bool) (args : Args.t)
    (paths : list string) :
  main_output re_search args paths = []
  <-> match prune_tree (build_tree re_search args paths) (Args.min_count args)
      with
      | None => True
      | Some tree => children tree = []
      end.
Proof.
  unfold main_output.
  destruct (prune_tree _ _) as [tree|]; [|easy].
  destruct (children tree) as [|kc chs] eqn:E; cbn [is_nil]; [easy|].
  destruct (Args.json args); [easy|].
  unfold render_text, render_lines.
  destruct (Args.ascii args); cbn [map app]; easy.
Qed.

Lemma no_children (t : Node) :
  (forall k, shape t [k] = None) -> children t = [].
Proof.
  intros H. destruct t as [cnt [|[k c] chs]]; [reflexivity|].
  specialize (H k). rewrite shape_cons in H. cbn [children dict_get] in H.
  rewrite String.eqb_refl in H. discriminate.
Qed.

Lemma filter_all {A} (f : A -> bool) (l : list A) :
  (forall x, In x l -> f x = true) -> List.filter f l = l.
Proof.
  induction l as [|x l IH]; intros H; [reflexivity|]. cbn [List.filter].
  rewrite (H x (or_introl eq_refl)). f_equal. apply IH.
  intros y Hy. apply H. now right.
Qed.

Lemma through_root_marker (re_search : string -> string -> bool)
    (args : Args.t) (paths : list string) :
  (forall p, In p paths -> passes re_search args p = true ->
             Posix.normpath p <> "//") ->
  through re_search args ["/"] paths
  = List.filter (passes re_search args) paths.
Proof.
  intros H. unfold through. apply filter_all. intros p Hp.
  apply filter_In in Hp as [Hin Hpass].
  destruct (path_to_parts_plain p (Args.ext_mode args) (H p Hin Hpass))
    as (rest & -> & _).
  now destruct rest.
Qed.

(** X24: [main] writes nothing at all exactly when fewer than
    [max 1 min_count] paths pass the selection, as long as no accepted path
    normalises to [//]: no accepted path means no output, whatever
    [--min-count] is, and otherwise the number of accepted paths decides. *)
Theorem main_silent (re_search : string -> string -> bool) (args : Args.t)
    (paths : list string) :
  (forall p, In p paths -> passes re_search args p = true ->
             Posix.normpath p <> "//") ->
  (main re_search args paths = Some []
   <-> Z.of_nat (length (List.filter (passes re_search args) paths))
       < Z.max 1 (Args.min_count args)).
Proof.
  intros Hn. rewrite main_spec.
  set (t := build_tree re_search args paths).
  set (n := Z.of_nat (length (List.filter (passes re_search args) paths))).
  set (T := Args.min_count args).
  assert (Hwf : wf t) by apply build_tree_wf.
  assert (Hcounted : counted t = true) by apply build_tree_counted.
  assert (Hcount : forall r,
             count_at t r = Z.of_nat (length (through re_search args r paths))).
  { intros r. unfold t. rewrite build_tree_fold, fold_step_count_at.
    now destruct r. }
  assert (Hroot : count t = n).
  { change (count t) with (count_at t []). rewrite Hcount.
    unfold n. now rewrite through_nil. }
  assert (Hmark : count_at t ["/"] = n).
  { rewrite Hcount. unfold n. now rewrite through_root_marker. }
  assert (Hle : forall k, count_at t [k] <= n).
  { intros k. rewrite Hcount. unfold n, through.
    apply inj_le, filter_length_le. }
  split.
  - intros H. injection H as H. apply main_output_nil in H. fold t T in H.
    destruct (prune_tree t T) as [t'|] eqn:Ep.
    + destruct (Z.lt_ge_cases n (Z.max 1 T)) as [Hlt|Hge]; [exact Hlt|].
      exfalso.
      pose proof (prune_tree_shape T t t' ["/"] Hwf Ep) as Hs.
      unfold shape at 1 in Hs. cbn [node_at] in Hs. rewrite H in Hs.
      cbn [dict_get option_map] in Hs.
      rewrite (shape_counted ["/"] t Hcounted), Hmark in Hs.
      replace (1 <=? n) with true in Hs by (symmetry; apply Z.leb_le; lia).
      pose proof (shape_counted ["/"] t Hcounted) as Hc. rewrite Hmark in Hc.
      replace (1 <=? n) with true in Hc by (symmetry; apply Z.leb_le; lia).
      rewrite shape_cons in Hc.
      destruct (dict_get (children t) "/") as [c|] eqn:Hk; [|discriminate].
      injection Hc as Hc. cbn [survivesb] in Hs. rewrite Hk, Hc, Hroot in Hs.
      replace (n <? T) with false in Hs by (symmetry; apply Z.ltb_ge; lia).
      discriminate.
    + apply prune_tree_None in Ep. lia.
  - intros Hlt. f_equal. apply main_output_nil. fold t T.
    destruct (prune_tree t T) as [t'|] eqn:Ep; [|exact I].
    apply no_children. intros k.
    rewrite (prune_tree_shape T t t' [k] Hwf Ep).
    destruct (survivesb T t [k]); [|reflexivity].
    rewrite (shape_counted [k] t Hcounted).
    apply prune_tree_Some in Ep as [Ep _]; [|exact Hwf].
    specialize (Hle k).
    now replace (1 <=? count_at t [k]) with false
      by (symmetry; apply Z.leb_gt; lia).
Qed.

Lemma main_silent_witness :
  main (fun _ _ => false) (Args.mk false 6 0 0 "/" "" "" last false false false false ext) etc_conf_paths
  = Some [].
Proof.
  apply main_silent.
  - intros p Hp _.
    repeat (destruct Hp as [<-|Hp]; [vm_compute; discriminate|]). destruct Hp.
  - vm_compute. reflexivity.
Defined.

(** ** The full JSON tree *)

Lemma to_json_fuel (fuel : nat) :
  forall (name : string) (node : Node) (depth : Z),
    (height node <= fuel)%nat ->
    to_json fuel name node = json_slice 0 0 fuel name node depth.
Proof.
  induction fuel as [|fuel IH]; intros name node depth Hh.
  - destruct node. cbn [height] in Hh. lia.
  - rewrite json_slice_S. cbn [to_json Z.eqb negb andb].
    change (shown_children 0 node) with (sorted_children node).
    f_equal. apply map_ext_in. intros [k c] Hin. cbn [fst snd].
    apply (Permutation_in _ (sorted_children_perm node)) in Hin.
    apply height_child in Hin. apply IH. lia.
Qed.

Lemma json_slice_any_fuel (max_depth top : Z) (fuel : nat) (name : string)
    (node : Node) (depth : Z) :
  (height node <= fuel)%nat ->
  json_slice max_depth top fuel name node depth
  = json_slice max_depth top (height node) name node depth.
Proof.
  intros Hh.
  rewrite <- (json_slice_enough max_depth top "" "" "" "" (fuel - height node)).
  f_equal. lia.
Qed.

(** X25: [to_json] gives the document [main] prints with [--json] when
    neither [--max-depth] nor [--top] is set, root included, and more
    fuel than the height of the tree does not change its result. *)
Theorem to_json_full_document (tree : Node) (extra : nat) :
  to_json (extra + S (height tree)) "/" tree = json_root 0 0 tree.
Proof.
  rewrite (to_json_fuel _ "/" tree 0) by lia.
  replace (extra + S (height tree))%nat with (S (extra + height tree))%nat
    by lia.
  rewrite json_slice_S. cbn [Z.eqb negb andb]. unfold json_root. f_equal.
  apply map_ext_in. intros [k c] Hin. cbn [fst snd].
  apply (shown_children_In 0 0 "" "" "" ""), height_child in Hin.
  rewrite (json_slice_any_fuel 0 0 (extra + height tree)) by lia.
  now rewrite (json_slice_any_fuel 0 0 (height tree)) by lia.
Qed.
